(** * PlacementPanic: the confidence-score aggregator and the mock AI routes

    A shallow embedding of [calculateConfidenceScore] as it is written in
    [AI-COMPLETE-CODE.tsx] (module [CompleteCode]) and in
    [AI_FEATURES_IMPLEMENTATION.md] (module [FeaturesImpl]), and of the
    Express handlers of [/api/evaluate-answer] and [/api/analyze-facial]
    (modules [Express], [SetupGuide] and [QuickStart]).  Module [Exact]
    reads the weighted sum in the arithmetic of the rationals, and
    [CompleteCodeHeap] runs [calculateConfidenceScore] on a heap of
    objects.

    Around them: the middleware [authenticateToken] and the route
    [/api/transcribe] ([Transcribe]), the colour of the score card
    ([ScoreCard]), [calculateAverageConfidence] ([FacialAnalysis]),
    [parseEvaluationResponse] ([AnswerEvaluator]), [getQuestions]
    ([QuestionBank]) and the answer-evaluation route of
    [AI_FEATURES_IMPLEMENTATION.md] ([FeaturesRoute]).

    A JavaScript [number] is an IEEE 754 binary64 value, which is what
    Rocq's primitive [float] is: [+], [-], [*] and [/] below are the
    hardware operations JavaScript performs, with round-to-nearest-even,
    signed zeros, infinities and NaN. *)

From Stdlib Require Import ZArith List Bool Ascii String Lia.
From Stdlib Require Import Uint63 Floats.
From Stdlib Require Import Permutation.
From Stdlib Require QArith.
Import ListNotations.

#[local] Set Warnings "-inexact-float,-register-all".
#[local] Open Scope float_scope.

(** ** JavaScript numbers *)

Module JS.

Definition number := float.

(** [a >= b] on numbers: false as soon as one side is NaN. *)
Definition ge (a b : number) : bool := (b <=? a).

(** The exact integer [floor (v + 1/2)] for [v = (-1)^s * m * 2^e],
    [e < 0]: the integer nearest to [v], the upper one on a tie. *)
Definition nearest_tie_up (s : bool) (m : positive) (e : Z) : Z :=
  Z.shiftr (cond_Zopp s (Zpos m) + 2 ^ (- e - 1)) (- e).

(** The number whose value is the integer [z], for [|z| <= 2^53]; the
    sign of a zero result is the sign [s] of the argument. *)
Definition of_integer (s : bool) (z : Z) : number :=
  match z with
  | Z0 => if s then neg_zero else zero
  | Zpos _ => of_uint63 (Uint63.of_Z z)
  | Zneg p => - of_uint63 (Uint63.of_Z (Zpos p))
  end.

(** [Math.round]: NaN, the infinities, the zeros and the integral
    numbers are returned unchanged; any other number becomes the integral
    number nearest to it, the one closer to +infinity on a tie; a result
    of zero keeps the sign of the argument. *)
Definition Math_round (n : number) : number :=
  match Prim2SF n with
  | S754_finite s m e =>
      if (0 <=? e)%Z then n else of_integer s (nearest_tie_up s m e)
  | _ => n
  end.

End JS.

(** ** The data model *)

(** The seven metrics, the shape shared by [inputs], [weights] and
    [normalized] (the breakdown). *)
Record Metrics : Set := mkMetrics {
  voiceVolume : JS.number;
  voiceStability : JS.number;
  pauseFrequency : JS.number;
  facialConfidence : JS.number;
  emotionPositivity : JS.number;
  answerQuality : JS.number;
  answerCompleteness : JS.number
}.

Definition ConfidenceInputs := Metrics.

Record ConfidenceResult : Set := mkResult {
  score : JS.number;
  level : string;
  breakdown : Metrics
}.

(** [Object.entries o]: the own properties in insertion order. *)
Definition Object_entries (o : Metrics) : list (string * JS.number) :=
  [ ("voiceVolume"%string, voiceVolume o);
    ("voiceStability"%string, voiceStability o);
    ("pauseFrequency"%string, pauseFrequency o);
    ("facialConfidence"%string, facialConfidence o);
    ("emotionPositivity"%string, emotionPositivity o);
    ("answerQuality"%string, answerQuality o);
    ("answerCompleteness"%string, answerCompleteness o) ].

(** [o[key]]: [None] stands for [undefined], the value of a property the
    object does not have. *)
Definition get_property (o : Metrics) (key : string) : option JS.number :=
  if String.eqb key "voiceVolume" then Some (voiceVolume o)
  else if String.eqb key "voiceStability" then Some (voiceStability o)
  else if String.eqb key "pauseFrequency" then Some (pauseFrequency o)
  else if String.eqb key "facialConfidence" then Some (facialConfidence o)
  else if String.eqb key "emotionPositivity" then Some (emotionPositivity o)
  else if String.eqb key "answerQuality" then Some (answerQuality o)
  else if String.eqb key "answerCompleteness" then Some (answerCompleteness o)
  else None.

(** [value * w] where [w] may be [undefined]: [ToNumber undefined] is NaN. *)
Definition times (value : JS.number) (w : option JS.number) : JS.number :=
  match w with
  | Some x => value * x
  | None => nan
  end.

(** ** [calculateConfidenceScore] of AI-COMPLETE-CODE.tsx *)

Module CompleteCode.

Definition weights : Metrics :=
  {| voiceVolume := 0.15;
     voiceStability := 0.15;
     pauseFrequency := 0.1;
     facialConfidence := 0.2;
     emotionPositivity := 0.1;
     answerQuality := 0.15;
     answerCompleteness := 0.15 |}.

Definition normalized (inputs : ConfidenceInputs) : Metrics :=
  {| voiceVolume := voiceVolume inputs;
     voiceStability := voiceStability inputs;
     pauseFrequency := 100 - pauseFrequency inputs;
     facialConfidence := facialConfidence inputs;
     emotionPositivity := emotionPositivity inputs + 50;
     answerQuality := answerQuality inputs;
     answerCompleteness := answerCompleteness inputs |}.

(** [Object.entries(normalized).reduce((total, [key, value]) =>
    total + value * weights[key], 0)]: the unrounded score. *)
Definition weighted_sum (inputs : ConfidenceInputs) : JS.number :=
  fold_left
    (fun total kv => total + times (snd kv) (get_property weights (fst kv)))
    (Object_entries (normalized inputs)) 0.

(** The conditional chain of line 95, on the unrounded score. *)
Definition level_of (score : JS.number) : string :=
  if JS.ge score 80 then "Very Confident"
  else if JS.ge score 65 then "Confident"
  else if JS.ge score 50 then "Moderately Confident"
  else "Needs Improvement".

Definition calculateConfidenceScore (inputs : ConfidenceInputs)
  : ConfidenceResult :=
  let score := weighted_sum inputs in
  let level := level_of score in
  {| score := JS.Math_round score;
     level := level;
     breakdown := normalized inputs |}.

End CompleteCode.

(** ** [calculateConfidenceScore] of AI_FEATURES_IMPLEMENTATION.md *)

Module FeaturesImpl.

Definition weights : Metrics :=
  {| voiceVolume := 0.15;
     voiceStability := 0.15;
     pauseFrequency := 0.1;
     facialConfidence := 0.2;
     emotionPositivity := 0.1;
     answerQuality := 0.15;
     answerCompleteness := 0.15 |}.

(** [inputs.emotionPositivity + 100 / 2] parses as
    [inputs.emotionPositivity + (100 / 2)]. *)
Definition normalizedInputs (inputs : ConfidenceInputs) : Metrics :=
  {| voiceVolume := voiceVolume inputs;
     voiceStability := voiceStability inputs;
     pauseFrequency := 100 - pauseFrequency inputs;
     facialConfidence := facialConfidence inputs;
     emotionPositivity := emotionPositivity inputs + 100 / 2;
     answerQuality := answerQuality inputs;
     answerCompleteness := answerCompleteness inputs |}.

Definition weighted_sum (inputs : ConfidenceInputs) : JS.number :=
  let n := normalizedInputs inputs in
  voiceVolume n * voiceVolume weights +
  voiceStability n * voiceStability weights +
  pauseFrequency n * pauseFrequency weights +
  facialConfidence n * facialConfidence weights +
  emotionPositivity n * emotionPositivity weights +
  answerQuality n * answerQuality weights +
  answerCompleteness n * answerCompleteness weights.

Definition getConfidenceLevel (score : JS.number) : string :=
  if JS.ge score 80 then "Very Confident"
  else if JS.ge score 65 then "Confident"
  else if JS.ge score 50 then "Moderately Confident"
  else if JS.ge score 35 then "Less Confident"
  else "Needs Improvement".

Definition calculateConfidenceScore (inputs : ConfidenceInputs)
  : ConfidenceResult :=
  let score := weighted_sum inputs in
  let level := getConfidenceLevel score in
  let breakdown := normalizedInputs inputs in
  {| score := JS.Math_round score; level := level; breakdown := breakdown |}.

End FeaturesImpl.

(** The input of the spec's worked example (also the literal of
    QUICK_START_CODE.md's [handleAnswerSubmit]). *)
Definition example_inputs : ConfidenceInputs :=
  {| voiceVolume := 75; voiceStability := 80; pauseFrequency := 20;
     facialConfidence := 85; emotionPositivity := 40;
     answerQuality := 78; answerCompleteness := 82 |}.

(** ** The exact values of binary64 numbers

    What the monotonicity and sign arguments below need of IEEE 754
    arithmetic: the value of a [spec_float] as an integer (scaled by a
    power of two large enough for every exponent in play), and rounding to
    nearest, ties to even, as a function on these integers. *)

Module Binary64.

#[local] Open Scope Z_scope.

(** Where the bits shifted out of a mantissa lie in the unit [u]: [rho] is
    the remainder, [r] the last bit shifted out, [s] the "sticky" bit. *)
Definition loc_ok (rho u : Z) (r s : bool) : Prop :=
  match r, s with
  | false, false => rho = 0
  | false, true => 0 < 2 * rho < u
  | true, false => 2 * rho = u
  | true, true => u < 2 * rho < 2 * u
  end.

(** [mrs] is [x] truncated to a multiple of [u], with its location. *)
Definition shr_inv (x u : Z) (mrs : shr_record) : Prop :=
  0 <= shr_m mrs /\ 0 < u /\ 0 <= x - shr_m mrs * u < u /\
  loc_ok (x - shr_m mrs * u) u (shr_r mrs) (shr_s mrs).

(** [v / W] rounded to the nearest integer, to the even one on a tie. *)
Definition rne (v W : Z) : Z :=
  let q := v / W in
  let r := v mod W in
  if 2 * r <? W then q
  else if W <? 2 * r then q + 1
  else if Z.even q then q else q + 1.

(** The overflow threshold [2^1024], scaled by [2^K]. *)
Definition Omega (K : Z) : Z := 2 ^ (1024 + K).

(** The value of [x] times [2^K]; an infinity counts as the threshold. *)
Definition SFvalue (K : Z) (x : spec_float) : Z :=
  match x with
  | S754_zero _ => 0
  | S754_infinity s => cond_Zopp s (Omega K)
  | S754_nan => 0
  | S754_finite s m e => cond_Zopp s (Zpos m * 2 ^ (e + K))
  end.

(** [x] is a zero, a finite number or an infinity of sign [s]. *)
Definition SFsign (s : bool) (x : spec_float) : Prop :=
  match x with
  | S754_zero s' | S754_infinity s' | S754_finite s' _ _ => s' = s
  | S754_nan => False
  end.

(** [x] is a zero or a finite number. *)
Definition SFfin (x : spec_float) : Prop :=
  match x with
  | S754_zero _ | S754_finite _ _ _ => True
  | _ => False
  end.

(** The binary64 number nearest to the positive value [V / 2^K], as a
    scaled value: [V] is rounded to a multiple of the unit in the last
    place of its binade, and saturates at the overflow threshold. *)
Definition round_nearest (K V : Z) : Z :=
  let E := fexp prec emax (Z.log2 V + 1 - K) in
  let W := 2 ^ (E + K) in
  Z.min (rne V W * W) (Omega K).

(** The same for a value of either sign. *)
Definition round_signed (K S : Z) : Z :=
  match S with
  | Z0 => 0
  | Zpos _ => round_nearest K S
  | Zneg _ => - round_nearest K (- S)
  end.

(** [Math.round] on scaled values: [floor (v + 1/2)]. *)
Definition round_half_up (K V : Z) : Z :=
  (V + 2 ^ (K - 1)) / 2 ^ K * 2 ^ K.

(** The numbers 100 and 0.1 as [Prim2SF] shows them. *)
(** The largest finite value, [(2^53 - 1) * 2^971], scaled. *)
Definition max_value (K : Z) : Z := (2 ^ 53 - 1) * 2 ^ (971 + K).

Definition SF100 : spec_float := S754_finite false 7036874417766400 (-46).
Definition SF01 : spec_float := S754_finite false 7205759403792794 (-56).

End Binary64.

(** ** The claims' vocabulary *)

(** The labelling in the spec's words: the five labels, by the fixed
    thresholds, of whatever score it is applied to. *)
Definition label_of_thresholds (score : JS.number) : string :=
  if JS.ge score 80 then "Very Confident"
  else if JS.ge score 65 then "Confident"
  else if JS.ge score 50 then "Moderately Confident"
  else if JS.ge score 35 then "Less Confident"
  else "Needs Improvement".

Definition between (lo hi x : JS.number) : bool := (lo <=? x) && (x <=? hi).

(** The ranges the interface documents: 0-100 for six fields, -100 to 100
    for [emotionPositivity]. *)
Definition in_documented_ranges (i : ConfidenceInputs) : bool :=
  between 0 100 (voiceVolume i) && between 0 100 (voiceStability i) &&
  between 0 100 (pauseFrequency i) && between 0 100 (facialConfidence i) &&
  between (-100) 100 (emotionPositivity i) &&
  between 0 100 (answerQuality i) && between 0 100 (answerCompleteness i).

(** An integral number between 0 and 100. *)
Definition integer_in_0_100 (x : JS.number) : bool :=
  between 0 100 x && PrimFloat.Leibniz.eqb (JS.Math_round x) x.

(** The exact value of a finite binary64 number, scaled by [2^k]: an
    integer as soon as [k] is at least the opposite of the exponent. *)
Definition scaled_value (k : Z) (x : JS.number) : Z :=
  match Prim2SF x with
  | S754_finite s m e => cond_Zopp s (Zpos m) * 2 ^ (e + k)
  | _ => 0
  end.

(** The weighted sum written out, as [reduce] accumulates it from 0. *)
Definition weighted_sum_of (n : Metrics) : JS.number :=
  0 + voiceVolume n * 0.15 + voiceStability n * 0.15 +
  pauseFrequency n * 0.1 + facialConfidence n * 0.2 +
  emotionPositivity n * 0.1 + answerQuality n * 0.15 +
  answerCompleteness n * 0.15.

(** Best case in every metric but the last: the unrounded sum is 79.7. *)
Definition boundary_inputs : ConfidenceInputs :=
  {| voiceVolume := 100; voiceStability := 100; pauseFrequency := 100;
     facialConfidence := 100; emotionPositivity := -50;
     answerQuality := 100; answerCompleteness := 98 |}.

(** The unrounded sum is exactly 49. *)
Definition forty_nine_inputs : ConfidenceInputs :=
  {| voiceVolume := 100; voiceStability := 100; pauseFrequency := 90;
     facialConfidence := 90; emotionPositivity := -50;
     answerQuality := 0; answerCompleteness := 0 |}.

(** The lowest and the highest inputs of the documented ranges. *)
Definition lowest_inputs : ConfidenceInputs :=
  {| voiceVolume := 0; voiceStability := 0; pauseFrequency := 100;
     facialConfidence := 0; emotionPositivity := -100;
     answerQuality := 0; answerCompleteness := 0 |}.

Definition highest_inputs : ConfidenceInputs :=
  {| voiceVolume := 100; voiceStability := 100; pauseFrequency := 0;
     facialConfidence := 100; emotionPositivity := 100;
     answerQuality := 100; answerCompleteness := 100 |}.

(** Inputs outside every documented range. *)
Definition oversized_inputs : ConfidenceInputs :=
  {| voiceVolume := 1000; voiceStability := 40; pauseFrequency := 60;
     facialConfidence := 40; emotionPositivity := -10;
     answerQuality := 40; answerCompleteness := 40 |}.

Definition undersized_inputs : ConfidenceInputs :=
  {| voiceVolume := 0; voiceStability := 0; pauseFrequency := 500;
     facialConfidence := 0; emotionPositivity := -10;
     answerQuality := 0; answerCompleteness := 0 |}.

Definition nan_inputs : ConfidenceInputs :=
  {| voiceVolume := nan; voiceStability := 40; pauseFrequency := 60;
     facialConfidence := 40; emotionPositivity := -10;
     answerQuality := 40; answerCompleteness := 40 |}.

(** [{ ...inputs, field: x }]: the inputs with one field replaced, the
    other six held fixed. *)
Definition with_voiceVolume (x : JS.number) (i : ConfidenceInputs)
  : ConfidenceInputs :=
  {| voiceVolume := x; voiceStability := voiceStability i;
     pauseFrequency := pauseFrequency i;
     facialConfidence := facialConfidence i;
     emotionPositivity := emotionPositivity i;
     answerQuality := answerQuality i;
     answerCompleteness := answerCompleteness i |}.

Definition with_voiceStability (x : JS.number) (i : ConfidenceInputs)
  : ConfidenceInputs :=
  {| voiceVolume := voiceVolume i; voiceStability := x;
     pauseFrequency := pauseFrequency i;
     facialConfidence := facialConfidence i;
     emotionPositivity := emotionPositivity i;
     answerQuality := answerQuality i;
     answerCompleteness := answerCompleteness i |}.

Definition with_pauseFrequency (x : JS.number) (i : ConfidenceInputs)
  : ConfidenceInputs :=
  {| voiceVolume := voiceVolume i; voiceStability := voiceStability i;
     pauseFrequency := x;
     facialConfidence := facialConfidence i;
     emotionPositivity := emotionPositivity i;
     answerQuality := answerQuality i;
     answerCompleteness := answerCompleteness i |}.

Definition with_facialConfidence (x : JS.number) (i : ConfidenceInputs)
  : ConfidenceInputs :=
  {| voiceVolume := voiceVolume i; voiceStability := voiceStability i;
     pauseFrequency := pauseFrequency i;
     facialConfidence := x;
     emotionPositivity := emotionPositivity i;
     answerQuality := answerQuality i;
     answerCompleteness := answerCompleteness i |}.

Definition with_emotionPositivity (x : JS.number) (i : ConfidenceInputs)
  : ConfidenceInputs :=
  {| voiceVolume := voiceVolume i; voiceStability := voiceStability i;
     pauseFrequency := pauseFrequency i;
     facialConfidence := facialConfidence i;
     emotionPositivity := x;
     answerQuality := answerQuality i;
     answerCompleteness := answerCompleteness i |}.

Definition with_answerQuality (x : JS.number) (i : ConfidenceInputs)
  : ConfidenceInputs :=
  {| voiceVolume := voiceVolume i; voiceStability := voiceStability i;
     pauseFrequency := pauseFrequency i;
     facialConfidence := facialConfidence i;
     emotionPositivity := emotionPositivity i;
     answerQuality := x;
     answerCompleteness := answerCompleteness i |}.

Definition with_answerCompleteness (x : JS.number) (i : ConfidenceInputs)
  : ConfidenceInputs :=
  {| voiceVolume := voiceVolume i; voiceStability := voiceStability i;
     pauseFrequency := pauseFrequency i;
     facialConfidence := facialConfidence i;
     emotionPositivity := emotionPositivity i;
     answerQuality := answerQuality i;
     answerCompleteness := x |}.

(** [b] is not below [a]: [b < a] is false, and [a <= b] holds as soon as
    both are numbers (a comparison with NaN is always false). *)
Definition not_below (a b : JS.number) : Prop :=
  (b <? a) = false /\
  (is_nan a = false -> is_nan b = false -> (a <=? b) = true).

(** [f] is monotonically nondecreasing (nonincreasing) in the field that
    [set] writes, the other six inputs being held fixed. *)
Definition nondecreasing_in
  (set : JS.number -> ConfidenceInputs -> ConfidenceInputs)
  (f : ConfidenceInputs -> JS.number) : Prop :=
  forall inputs x x', (x <=? x') = true ->
    not_below (f (set x inputs)) (f (set x' inputs)).

Definition nonincreasing_in
  (set : JS.number -> ConfidenceInputs -> ConfidenceInputs)
  (f : ConfidenceInputs -> JS.number) : Prop :=
  forall inputs x x', (x <=? x') = true ->
    not_below (f (set x' inputs)) (f (set x inputs)).

(** In the documented ranges, with a weighted sum of the normalized values
    of 5.1 + 13.5 + 6.9 + 10.4 + 2.4 + 2.4 + 4.8 = 45.5. *)
Definition half_inputs : ConfidenceInputs :=
  {| voiceVolume := 34; voiceStability := 90; pauseFrequency := 31;
     facialConfidence := 52; emotionPositivity := -26;
     answerQuality := 16; answerCompleteness := 32 |}.

(** The same with the number next above 34, [34 + 2^-47] (the number that
    the literal [34.00000000000001] denotes), for [voiceVolume]: the
    weighted sum is [45.5 + 0.15 * 2^-47]. *)
Definition above_half_inputs : ConfidenceInputs :=
  with_voiceVolume 0x1.1000000000001p+5 half_inputs.

(** ** The weighted sum in the spec's words

    The sum of the normalized values weighted by 0.15, 0.15, 0.10, 0.20,
    0.10, 0.15 and 0.15, and the integer nearest to it, as the sentence
    reads them: in the arithmetic of the rational numbers, with no
    rounding on the way. *)
Module Exact.
Import QArith.

(** The value of a finite number, [(-1)^s * m * 2^e]; 0 stands in for
    an infinity or NaN, which has none. *)
Definition value (x : JS.number) : Q :=
  match Prim2SF x with
  | S754_finite s m e => inject_Z (cond_Zopp s (Zpos m)) * 2 ^ e
  | _ => 0
  end.

(** The weights, in the order of the fields. *)
Definition weights : list Q := [0.15; 0.15; 0.10; 0.20; 0.10; 0.15; 0.15].

Definition normalized (inputs : ConfidenceInputs) : list Q :=
  [ value (voiceVolume inputs);
    value (voiceStability inputs);
    100 - value (pauseFrequency inputs);
    value (facialConfidence inputs);
    value (emotionPositivity inputs) + 50;
    value (answerQuality inputs);
    value (answerCompleteness inputs) ].

(** The sum of the normalized values, each times its weight in [w]. *)
Definition weighted_sum_with (w : list Q) (inputs : ConfidenceInputs) : Q :=
  fold_right Qplus 0
    (map (fun vw => fst vw * snd vw) (combine (normalized inputs) w)).

Definition weighted_sum (inputs : ConfidenceInputs) : Q :=
  weighted_sum_with weights inputs.

(** [r] is an integer nearest to [q]: on a tie, either neighbour. *)
Definition nearest (q : Q) (r : Z) : Prop :=
  inject_Z r - (1 # 2) <= q /\ q <= inject_Z r + (1 # 2).

(** [score] is [q] rounded to the nearest integer. *)
Definition rounds_to (q : Q) (score : JS.number) : Prop :=
  exists r : Z, value score == inject_Z r /\ nearest q r.

End Exact.

(** ** The objects of a call

    [calculateConfidenceScore] of AI-COMPLETE-CODE.tsx once more, this
    time with the objects it reads and creates.  [inputs], [weights],
    [normalized] and the result are objects of the heap, held by
    reference, and a call is a computation that takes the heap it starts
    in and gives what it returns together with the heap it leaves.  The
    heap is all the mutable state there is; [Object.entries], [reduce] and
    [Math.round] are the built-in ones. *)

Module Heap.

(** A reference is the address of an object. *)
Definition loc := nat.

Inductive value : Set :=
| Undefined : value
| Num : JS.number -> value
| Str : string -> value
| Ref : loc -> value.

(** An object is its own properties, each key once, in insertion order;
    the heap holds the object of address [l] at position [l]. *)
Definition object := list (string * value).
Definition heap := list object.

Definition lookup (h : heap) (l : loc) : option object := nth_error h l.

(** [o[key]]: [undefined] when [o] has no such property. *)
Fixpoint get_own (o : object) (key : string) : value :=
  match o with
  | [] => Undefined
  | (k, v) :: o' => if String.eqb k key then v else get_own o' key
  end.

(** A computation: [None] when it leaves what is modelled (a reference to
    no object, or arithmetic on a value that is not a number or
    [undefined]). *)
Definition M (A : Type) : Type := heap -> option (A * heap).

Definition ret {A : Type} (a : A) : M A := fun h => Some (a, h).

Definition bind {A B : Type} (c : M A) (f : A -> M B) : M B :=
  fun h =>
    match c h with
    | Some (a, h') => f a h'
    | None => None
    end.

Definition fail {A : Type} : M A := fun _ => None.

Notation "x <- c ;; k" := (bind c (fun x => k))
  (at level 61, c at next level, right associativity).

(** An object literal: a new object, at the first free address. *)
Definition new_object (o : object) : M loc :=
  fun h => Some (List.length h, (h ++ [o])%list).

(** [l.key] and [l[key]]. *)
Definition get (l : loc) (key : string) : M value :=
  fun h =>
    match lookup h l with
    | Some o => Some (get_own o key, h)
    | None => None
    end.

(** [Object.entries(l)]; the array it returns is not kept by the caller,
    and is a list here. *)
Definition Object_entries (l : loc) : M (list (string * value)) :=
  fun h =>
    match lookup h l with
    | Some o => Some (o, h)
    | None => None
    end.

(** [ToNumber] of a number or [undefined]; the fields of [inputs] are
    declared [number], and a string or an object there is not covered. *)
Definition to_number (v : value) : M JS.number :=
  match v with
  | Undefined => ret nan
  | Num n => ret n
  | Str _ => fail
  | Ref _ => fail
  end.

(** [a - b], [a * b], and [a + b] where it is the addition of numbers. *)
Definition minus (a b : value) : M value :=
  x <- to_number a ;; y <- to_number b ;; ret (Num (x - y)).

Definition times (a b : value) : M value :=
  x <- to_number a ;; y <- to_number b ;; ret (Num (x * y)).

Definition plus (a b : value) : M value :=
  x <- to_number a ;; y <- to_number b ;; ret (Num (x + y)).

(** [array.reduce(f, a)]. *)
Fixpoint reduce {A B : Type} (f : A -> B -> M A) (array : list B) (a : A)
  : M A :=
  match array with
  | [] => ret a
  | b :: rest => a' <- f a b ;; reduce f rest a'
  end.

End Heap.

(** [calculateConfidenceScore], statement by statement.  An object
    literal reads its property values in order and is a new object each
    time the statement runs; [breakdown] is a reference to [normalized]. *)
Module CompleteCodeHeap.
Import Heap.

Definition calculateConfidenceScore (inputs : loc) : M loc :=
  weights <- new_object
    [ ("voiceVolume"%string, Num 0.15);
      ("voiceStability"%string, Num 0.15);
      ("pauseFrequency"%string, Num 0.1);
      ("facialConfidence"%string, Num 0.2);
      ("emotionPositivity"%string, Num 0.1);
      ("answerQuality"%string, Num 0.15);
      ("answerCompleteness"%string, Num 0.15) ] ;;
  inputs_voiceVolume <- get inputs "voiceVolume" ;;
  inputs_voiceStability <- get inputs "voiceStability" ;;
  inputs_pauseFrequency <- get inputs "pauseFrequency" ;;
  inverted <- minus (Num 100) inputs_pauseFrequency ;;
  inputs_facialConfidence <- get inputs "facialConfidence" ;;
  inputs_emotionPositivity <- get inputs "emotionPositivity" ;;
  shifted <- plus inputs_emotionPositivity (Num 50) ;;
  inputs_answerQuality <- get inputs "answerQuality" ;;
  inputs_answerCompleteness <- get inputs "answerCompleteness" ;;
  normalized <- new_object
    [ ("voiceVolume"%string, inputs_voiceVolume);
      ("voiceStability"%string, inputs_voiceStability);
      ("pauseFrequency"%string, inverted);
      ("facialConfidence"%string, inputs_facialConfidence);
      ("emotionPositivity"%string, shifted);
      ("answerQuality"%string, inputs_answerQuality);
      ("answerCompleteness"%string, inputs_answerCompleteness) ] ;;
  entries <- Object_entries normalized ;;
  score <- reduce
    (fun total kv =>
       weight <- get weights (fst kv) ;;
       product <- times (snd kv) weight ;;
       plus total product)
    entries (Num 0) ;;
  score <- to_number score ;;
  let level := CompleteCode.level_of score in
  new_object
    [ ("score"%string, Num (JS.Math_round score));
      ("level"%string, Str level);
      ("breakdown"%string, Ref normalized) ].

End CompleteCodeHeap.

(** The number under [key] in [o], if it is a number. *)
Definition number_of (o : Heap.object) (key : string) : option JS.number :=
  match Heap.get_own o key with
  | Heap.Num n => Some n
  | _ => None
  end.

(** The seven metrics the object at [l] holds, when it holds a number for
    each of them (it may have other properties). *)
Definition metrics_at (h : Heap.heap) (l : Heap.loc) : option Metrics :=
  match Heap.lookup h l with
  | Some o =>
      match number_of o "voiceVolume", number_of o "voiceStability",
            number_of o "pauseFrequency", number_of o "facialConfidence",
            number_of o "emotionPositivity", number_of o "answerQuality",
            number_of o "answerCompleteness" with
      | Some a, Some b, Some c, Some d, Some e, Some f, Some g =>
          Some (mkMetrics a b c d e f g)
      | _, _, _, _, _, _, _ => None
      end
  | None => None
  end.

(** The address of the breakdown of the result at [l]. *)
Definition breakdown_at (h : Heap.heap) (l : Heap.loc) : option Heap.loc :=
  match Heap.lookup h l with
  | Some o =>
      match Heap.get_own o "breakdown" with
      | Heap.Ref b => Some b
      | _ => None
      end
  | None => None
  end.

(** The score, the level and the contents of the breakdown of the result
    at [l]. *)
Definition result_at (h : Heap.heap) (l : Heap.loc)
  : option ConfidenceResult :=
  match Heap.lookup h l, breakdown_at h l with
  | Some o, Some b =>
      match Heap.get_own o "score", Heap.get_own o "level",
            metrics_at h b with
      | Heap.Num s, Heap.Str lv, Some n => Some (mkResult s lv n)
      | _, _, _ => None
      end
  | _, _ => None
  end.

(** What a call [c] does in the heap [h]: it returns a reference to a new
    object that holds [res], with a breakdown that is a new object too,
    and the heap it leaves is [h] followed by the objects it has created:
    no object of [h] is changed. *)
Definition returns_new (c : Heap.M Heap.loc) (h : Heap.heap)
  (res : ConfidenceResult) : Prop :=
  exists (r b : Heap.loc) (new : Heap.heap),
    c h = Some (r, (h ++ new)%list) /\
    result_at (h ++ new) r = Some res /\
    breakdown_at (h ++ new) r = Some b /\
    (List.length h <= r)%nat /\ (List.length h <= b)%nat.

(** The object literal of QUICK_START_CODE.md's [handleAnswerSubmit]. *)
Definition example_object : Heap.object :=
  [ ("voiceVolume"%string, Heap.Num 75);
    ("voiceStability"%string, Heap.Num 80);
    ("pauseFrequency"%string, Heap.Num 20);
    ("facialConfidence"%string, Heap.Num 85);
    ("emotionPositivity"%string, Heap.Num 40);
    ("answerQuality"%string, Heap.Num 78);
    ("answerCompleteness"%string, Heap.Num 82) ].

(** The heap a call leaves. *)
Definition heap_after (c : Heap.M Heap.loc) (h : Heap.heap) : Heap.heap :=
  match c h with
  | Some (_, h') => h'
  | None => h
  end.

(** ** The Express routes *)

Module Express.

(** A JSON value, as a body parser produces and [res.json] sends. *)
Inductive json : Set :=
| JNull
| JBool (b : bool)
| JNumber (n : JS.number)
| JString (s : string)
| JArray (items : list json)
| JObject (props : list (string * json)).

(** A request: its headers (names in lower case), [req.body] and
    [req.user]; [None] is [undefined], which is what [req.body] holds
    until a body parser has filled it. *)
Record Request : Set := mkRequest {
  headers : list (string * string);
  body : option json;
  user : option json
}.

(** What the handler sent: the status code and the payload. *)
Record Response : Set := mkResponse {
  status : Z;
  payload : json
}.

(** A statement either completes or throws. *)
Inductive outcome (A : Type) : Type :=
| Returns (a : A)
| Throws.
Arguments Returns {A} a.
Arguments Throws {A}.

Fixpoint lookup {A : Type} (props : list (string * A)) (key : string)
  : option A :=
  match props with
  | [] => None
  | (k, v) :: rest => if String.eqb k key then Some v else lookup rest key
  end.

(** [v.key] for a value that is neither [undefined] nor [null]: none of
    the keys read here is a property of a boolean, a number, a string or
    an array. *)
Definition property (v : json) (key : string) : option json :=
  match v with
  | JObject props => lookup props key
  | _ => None
  end.

(** [const { k1, ..., kn } = v]: a TypeError when [v] is [undefined] or
    [null], otherwise the properties read. *)
Definition destructure (v : option json) (keys : list string)
  : outcome (list (option json)) :=
  match v with
  | None => Throws
  | Some JNull => Throws
  | Some j => Returns (map (property j) keys)
  end.

(** [res.json(x)], on a response whose status was not changed, and
    [res.status(code).json(x)]. *)
Definition res_json (x : json) : Response :=
  {| status := 200; payload := x |}.

Definition res_status_json (code : Z) (x : json) : Response :=
  {| status := code; payload := x |}.

(** [res.sendStatus(code)] sends the code with its reason phrase. *)
Definition res_sendStatus (code : Z) : Response :=
  {| status := code;
     payload := JString (if (code =? 401)%Z then "Unauthorized"
                         else if (code =? 403)%Z then "Forbidden"
                         else "") |}.

(** [s.split(' ')]. *)
Fixpoint split_space (s : string) : list string :=
  match s with
  | EmptyString => [EmptyString]
  | String c rest =>
      if Ascii.eqb c " "%char then EmptyString :: split_space rest
      else match split_space rest with
           | [] => [String c EmptyString]
           | w :: ws => String c w :: ws
           end
  end.

(** [const token = authHeader && authHeader.split(' ')[1]]: [undefined]
    for a missing header, the empty string for an empty one. *)
Definition token_of (authHeader : option string) : option string :=
  match authHeader with
  | None => None
  | Some EmptyString => Some EmptyString
  | Some h => nth_error (split_space h) 1
  end.

(** [!token]. *)
Definition falsy (token : option string) : bool :=
  match token with
  | None => true
  | Some EmptyString => true
  | Some _ => false
  end.

Section Middleware.

(** [jwt.verify(token, process.env.JWT_SECRET)] of the jsonwebtoken
    package: the decoded payload, or [None] when it throws. *)
Variable jwt_verify : string -> option json.

(** [authenticateToken] of SETUP.md. *)
Definition authenticateToken (req : Request)
  (next : Request -> Response) : Response :=
  let authHeader := lookup (headers req) "authorization" in
  let token := token_of authHeader in
  if falsy token then res_sendStatus 401
  else
    match token with
    | Some t =>
        match jwt_verify t with
        | Some u =>
            next {| headers := headers req; body := body req;
                    user := Some u |}
        | None => res_sendStatus 403
        end
    | None => res_sendStatus 401
    end.

(** [app.post(path, authenticateToken, handler)]. *)
Definition app_post (handler : Request -> Response) (req : Request)
  : Response :=
  authenticateToken req handler.

End Middleware.

(** The request passes [authenticateToken]: a bearer token that
    [jwt.verify] accepts. *)
Definition authenticated (jwt_verify : string -> option json)
  (req : Request) : bool :=
  match token_of (lookup (headers req) "authorization") with
  | Some (String c t) =>
      match jwt_verify (String c t) with Some _ => true | None => false end
  | _ => false
  end.

End Express.

(** The routes as the setup guide (src/unnamed/part_001) adds them. *)
Module SetupGuide.
Import Express.

Definition evaluation : json :=
  JObject
    [ ("evaluation"%string,
        JObject
          [ ("correctness"%string, JNumber 85);
            ("completeness"%string, JNumber 78);
            ("clarity"%string, JNumber 82);
            ("keyPoints"%string,
              JArray [JString "Point 1"; JString "Point 2"]);
            ("missingPoints"%string, JArray [JString "Missing 1"]);
            ("suggestions"%string,
              JArray [JString "Add more detail"; JString "Be concise"]) ]) ].

Definition facial_analysis : json :=
  JObject
    [ ("confidence"%string, JNumber 85);
      ("emotions"%string,
        JObject
          [ ("happy"%string, JNumber 45); ("neutral"%string, JNumber 30);
            ("sad"%string, JNumber 10); ("angry"%string, JNumber 5);
            ("fearful"%string, JNumber 5);
            ("surprised"%string, JNumber 5) ]);
      ("eyeContact"%string, JNumber 80);
      ("headPosition"%string, JString "center") ].

Definition evaluate_answer_handler (req : Request) : Response :=
  match destructure (body req) ["question"; "userAnswer"]%string with
  | Returns _ => res_json evaluation
  | Throws =>
      res_status_json 500
        (JObject [("error"%string, JString "Evaluation failed")])
  end.

Definition analyze_facial_handler (req : Request) : Response :=
  res_json facial_analysis.

Definition evaluate_answer jwt_verify : Request -> Response :=
  app_post jwt_verify evaluate_answer_handler.

Definition analyze_facial jwt_verify : Request -> Response :=
  app_post jwt_verify analyze_facial_handler.

End SetupGuide.

(** The routes as QUICK_START_CODE.md adds them. *)
Module QuickStart.
Import Express.

Definition evaluation : json :=
  JObject
    [ ("evaluation"%string,
        JObject
          [ ("correctness"%string, JNumber 85);
            ("completeness"%string, JNumber 78);
            ("clarity"%string, JNumber 82);
            ("keyPoints"%string,
              JArray [JString "Key point 1"; JString "Key point 2"]);
            ("missingPoints"%string, JArray [JString "Missing 1"]);
            ("suggestions"%string, JArray [JString "Suggestion 1"]) ]) ].

Definition facial_analysis : json := SetupGuide.facial_analysis.

Definition evaluate_answer_handler (req : Request) : Response :=
  match destructure (body req) ["question"; "userAnswer"]%string with
  | Returns _ => res_json evaluation
  | Throws =>
      res_status_json 500
        (JObject [("error"%string, JString "Evaluation failed")])
  end.

Definition analyze_facial_handler (req : Request) : Response :=
  match destructure (body req) ["frameData"]%string with
  | Returns _ => res_json facial_analysis
  | Throws =>
      res_status_json 500
        (JObject [("error"%string, JString "Analysis failed")])
  end.

Definition evaluate_answer jwt_verify : Request -> Response :=
  app_post jwt_verify evaluate_answer_handler.

Definition analyze_facial jwt_verify : Request -> Response :=
  app_post jwt_verify analyze_facial_handler.

End QuickStart.

(** A request with a bearer token and a JSON body, one with the token and
    no parsed body, and a verifier that accepts the token "abc". *)
Definition accept_abc (token : string) : option Express.json :=
  if String.eqb token "abc"
  then Some (Express.JObject [("userId"%string, Express.JString "u1")])
  else None.

Definition request_with_body : Express.Request :=
  {| Express.headers := [("authorization"%string, "Bearer abc"%string)];
     Express.body :=
       Some (Express.JObject
               [("question"%string, Express.JString "What is a heap?");
                ("userAnswer"%string, Express.JString "A tree.")]);
     Express.user := None |}.

Definition request_without_body : Express.Request :=
  {| Express.headers := [("authorization"%string, "Bearer abc"%string)];
     Express.body := None;
     Express.user := None |}.

(** ** The transcription route *)

(** [/api/transcribe] as the setup guide (src/unnamed/part_001) and
    QUICK_START_CODE.md add it: the handler destructures [req.body] inside
    [try] and answers with a fixed transcript. *)
Module Transcribe.
Import Express.

Definition failed : Response :=
  res_status_json 500
    (JObject [("error"%string, JString "Transcription failed")]).

Definition setup_guide_transcript : json :=
  JObject [("transcript"%string, JString "User spoke: [transcribed text]")].

Definition quick_start_transcript : json :=
  JObject [("transcript"%string, JString "Mock transcript of audio")].

Definition setup_guide_handler (req : Request) : Response :=
  match destructure (body req) ["audio"%string] with
  | Returns _ => res_json setup_guide_transcript
  | Throws => failed
  end.

Definition quick_start_handler (req : Request) : Response :=
  match destructure (body req) ["audio"%string] with
  | Returns _ => res_json quick_start_transcript
  | Throws => failed
  end.

Definition setup_guide jwt_verify : Request -> Response :=
  app_post jwt_verify setup_guide_handler.

Definition quick_start jwt_verify : Request -> Response :=
  app_post jwt_verify quick_start_handler.

End Transcribe.

(** A string without a space. *)
Fixpoint no_space (s : string) : bool :=
  match s with
  | EmptyString => true
  | String c rest => negb (Ascii.eqb c " "%char) && no_space rest
  end.

(** The request [req] with its [authorization] header set to [value]. *)
Definition with_authorization (value : string) (req : Express.Request)
  : Express.Request :=
  {| Express.headers := [("authorization"%string, value)];
     Express.body := Express.body req;
     Express.user := Express.user req |}.

(** ** The score card *)

(** [ConfidenceScoreCard]: the class that colours the card, as
    AI-COMPLETE-CODE.tsx computes it ([colors]) and as QUICK_START_CODE.md
    does ([getColorClass]). *)
Module ScoreCard.

Definition colors (score : JS.number) : string :=
  if JS.ge score 80 then "bg-green-500"
  else if JS.ge score 65 then "bg-blue-500"
  else if JS.ge score 50 then "bg-yellow-500"
  else "bg-red-500".

Definition getColorClass (score : JS.number) : string :=
  if JS.ge score 80 then "bg-green-500"
  else if JS.ge score 65 then "bg-blue-500"
  else if JS.ge score 50 then "bg-yellow-500"
  else "bg-red-500".

End ScoreCard.

(** The five labels, from the lowest to the highest. *)
Definition level_rank (level : string) : nat :=
  if String.eqb level "Very Confident" then 4
  else if String.eqb level "Confident" then 3
  else if String.eqb level "Moderately Confident" then 2
  else if String.eqb level "Less Confident" then 1
  else 0.

(** All seven inputs are finite numbers: neither NaN nor an infinity. *)
Definition finite_inputs (i : ConfidenceInputs) : bool :=
  is_finite (voiceVolume i) && is_finite (voiceStability i) &&
  is_finite (pauseFrequency i) && is_finite (facialConfidence i) &&
  is_finite (emotionPositivity i) &&
  is_finite (answerQuality i) && is_finite (answerCompleteness i).

(** The ranges on which the normalization does reach 0-100:
    [emotionPositivity] between -50 and 50, the other six between 0 and
    100. *)
Definition in_normalizing_ranges (i : ConfidenceInputs) : bool :=
  between 0 100 (voiceVolume i) && between 0 100 (voiceStability i) &&
  between 0 100 (pauseFrequency i) && between 0 100 (facialConfidence i) &&
  between (-50) 50 (emotionPositivity i) &&
  between 0 100 (answerQuality i) && between 0 100 (answerCompleteness i).

(** The lowest and the highest inputs of these ranges. *)
Definition zero_inputs : ConfidenceInputs :=
  {| voiceVolume := 0; voiceStability := 0; pauseFrequency := 100;
     facialConfidence := 0; emotionPositivity := -50;
     answerQuality := 0; answerCompleteness := 0 |}.

Definition hundred_inputs : ConfidenceInputs :=
  {| voiceVolume := 100; voiceStability := 100; pauseFrequency := 0;
     facialConfidence := 100; emotionPositivity := 50;
     answerQuality := 100; answerCompleteness := 100 |}.

(** The level that [f] returns never drops (never rises) when the field
    that [set] writes increases, the other six inputs being held fixed. *)
Definition level_nondecreasing_in
  (set : JS.number -> ConfidenceInputs -> ConfidenceInputs)
  (f : ConfidenceInputs -> ConfidenceResult) : Prop :=
  forall inputs x x', (x <=? x') = true ->
    (level_rank (level (f (set x inputs))) <=
     level_rank (level (f (set x' inputs))))%nat.

Definition level_nonincreasing_in
  (set : JS.number -> ConfidenceInputs -> ConfidenceInputs)
  (f : ConfidenceInputs -> ConfidenceResult) : Prop :=
  forall inputs x x', (x <=? x') = true ->
    (level_rank (level (f (set x' inputs))) <=
     level_rank (level (f (set x inputs))))%nat.

(** ** The exact values of quotients *)

Module Binary64Quotient.

Import Binary64.

#[local] Open Scope Z_scope.

(** The binary64 number nearest to the positive value [(N / D) / 2^K], as
    a scaled value: the quotient is rounded to a multiple of the unit in
    the last place of its binade, and saturates at the overflow
    threshold. *)
Definition round_quotient (K N D : Z) : Z :=
  let E := fexp prec emax (Z.log2 (N / D) + 1 - K) in
  let W := 2 ^ (E + K) in
  Z.min (rne N (D * W) * W) (Omega K).

(** The same for a numerator of either sign. *)
Definition quotient_signed (K S D : Z) : Z :=
  match S with
  | Z0 => 0
  | Zpos _ => round_quotient K S D
  | Zneg _ => - round_quotient K (- S) D
  end.

End Binary64Quotient.

(** ** The facial-analysis hook *)

(** [calculateAverageConfidence] of [useFacialAnalysis]
    (AI_FEATURES_IMPLEMENTATION.md): the mean of the detection scores,
    as a percentage. *)
Module FacialAnalysis.

Record Emotions : Set := mkEmotions {
  happy : JS.number;
  neutral : JS.number;
  sad : JS.number;
  angry : JS.number;
  fearful : JS.number;
  surprised : JS.number
}.

Record FacialMetrics : Set := mkFacialMetrics {
  confidence : JS.number;
  emotions : Emotions;
  eyeContact : JS.number;
  headPosition : string
}.

(** [metrics.length] as a number: the length of an array is an integer
    below [2^32], which [of_integer] converts exactly. *)
Definition length_of {A : Type} (items : list A) : JS.number :=
  JS.of_integer false (Z.of_nat (List.length items)).

Definition calculateAverageConfidence (metrics : list FacialMetrics)
  : JS.number :=
  match metrics with
  | [] => 0
  | _ =>
      let total := fold_left (fun sum m => sum + confidence m) metrics 0 in
      (total / length_of metrics) * 100
  end.

End FacialAnalysis.

(** Every detection score of [metrics] lies between 0 and 1, as the
    scores of a face detector do. *)
Definition scores_in_unit_interval
  (metrics : list FacialAnalysis.FacialMetrics) : bool :=
  forallb (fun m => between 0 1 (FacialAnalysis.confidence m)) metrics.

(** Three frames, of scores 0.9, 0.5 and 1. *)
Definition sample_metrics : list FacialAnalysis.FacialMetrics :=
  let e := FacialAnalysis.mkEmotions 0 1 0 0 0 0 in
  [ FacialAnalysis.mkFacialMetrics 0.9 e 85 "center";
    FacialAnalysis.mkFacialMetrics 0.5 e 85 "center";
    FacialAnalysis.mkFacialMetrics 1 e 85 "center" ].

(** Frame by frame, the scores of [metrics] are at most those of
    [metrics']. *)
Definition scores_at_most
  (metrics metrics' : list FacialAnalysis.FacialMetrics) : Prop :=
  Forall2
    (fun m m' =>
       (FacialAnalysis.confidence m <=? FacialAnalysis.confidence m') = true)
    metrics metrics'.

(** [sample_metrics] with a better second frame. *)
Definition better_metrics : list FacialAnalysis.FacialMetrics :=
  let e := FacialAnalysis.mkEmotions 0 1 0 0 0 0 in
  [ FacialAnalysis.mkFacialMetrics 0.9 e 85 "center";
    FacialAnalysis.mkFacialMetrics 0.75 e 85 "center";
    FacialAnalysis.mkFacialMetrics 1 e 85 "center" ].

(** ** JavaScript values *)

(** The operations of the language on values that come out of
    [JSON.parse], [undefined] being [None]. *)
Module JSValue.
Import Express.

(** [ToBoolean]: [undefined], [null], [false], [0], [-0], [NaN] and the
    empty string are falsy; every array and object is truthy. *)
Definition truthy (v : option json) : bool :=
  match v with
  | None => false
  | Some JNull => false
  | Some (JBool b) => b
  | Some (JNumber n) => negb ((n =? 0) || is_nan n)
  | Some (JString s) => negb (String.eqb s "")
  | Some (JArray _) => true
  | Some (JObject _) => true
  end.

(** [a || b], with a right operand that is not [undefined]. *)
Definition or_else (a : option json) (b : json) : json :=
  match a with
  | Some j => if truthy a then j else b
  | None => b
  end.

(** [ToNumber] of [undefined], [null], a boolean or a number.  A string,
    an array or an object is converted through a string, and makes [+] a
    concatenation: these are not covered, and give [None]. *)
Definition to_number (v : option json) : option JS.number :=
  match v with
  | None => Some nan
  | Some JNull => Some 0
  | Some (JBool true) => Some 1
  | Some (JBool false) => Some 0
  | Some (JNumber n) => Some n
  | Some (JString _) => None
  | Some (JArray _) => None
  | Some (JObject _) => None
  end.

End JSValue.

(** ** The answer evaluator *)

(** [parseEvaluationResponse] of AI_FEATURES_IMPLEMENTATION.md. *)
Module AnswerEvaluator.
Import Express JSValue.

(** [overallScore] is [None] where the sum is not an addition of numbers
    (see [to_number]). *)
Record AnswerEvaluation : Set := mkAnswerEvaluation {
  correctness : json;
  completeness : json;
  clarity : json;
  keyPointsCovered : json;
  missingPoints : json;
  suggestions : json;
  overallScore : option JS.number
}.

(** [Math.round((a + b + c) / 3)]. *)
Definition rounded_mean (a b c : option json) : option JS.number :=
  match to_number a, to_number b, to_number c with
  | Some x, Some y, Some z => Some (JS.Math_round ((x + y + z) / 3))
  | _, _, _ => None
  end.

(** Reading a property of [undefined] or [null] throws a TypeError. *)
Definition parseEvaluationResponse (response : option json)
  : outcome AnswerEvaluation :=
  match response with
  | None => Throws
  | Some JNull => Throws
  | Some r =>
      Returns
        {| correctness := or_else (property r "correctness") (JNumber 0);
           completeness := or_else (property r "completeness") (JNumber 0);
           clarity := or_else (property r "clarity") (JNumber 0);
           keyPointsCovered := or_else (property r "keyPoints") (JArray []);
           missingPoints := or_else (property r "missingPoints") (JArray []);
           suggestions := or_else (property r "suggestions") (JArray []);
           overallScore :=
             rounded_mean (property r "correctness")
               (property r "completeness") (property r "clarity") |}
  end.

End AnswerEvaluator.

(** An evaluation whose three marks are the numbers [a], [b] and [c]. *)
Definition marks (a b c : JS.number) : Express.json :=
  Express.JObject
    [ ("correctness"%string, Express.JNumber a);
      ("completeness"%string, Express.JNumber b);
      ("clarity"%string, Express.JNumber c) ].

(** The [evaluation] property of what a route sends. *)
Definition evaluation_of (response : Express.Response) : option Express.json :=
  Express.property (Express.payload response) "evaluation".

(** A mark that is missing, [null], a boolean or a number: between such
    marks [+] is the addition of numbers (see [JSValue.to_number]). *)
Definition plain_mark (v : option Express.json) : bool :=
  match v with
  | None => true
  | Some Express.JNull => true
  | Some (Express.JBool _) => true
  | Some (Express.JNumber _) => true
  | Some (Express.JString _) => false
  | Some (Express.JArray _) => false
  | Some (Express.JObject _) => false
  end.

(** ** The question bank *)

(** [getQuestions] of SETUP.md.  The function reads the module-level array
    [QUESTIONS] and sorts in place the array it has filtered, which is
    [QUESTIONS] itself when no filter ran: it is modelled as returning
    its result together with the contents of [QUESTIONS] afterwards. *)
Module QuestionBank.
Import Express JSValue.

Record Question : Set := mkQuestion {
  id : string;
  text : string;
  category : string;
  difficulty : JS.number
}.

(** [s === v] for a string [s]. *)
Definition strictly_equals_string (s : string) (v : option json) : bool :=
  match v with
  | Some (JString t) => String.eqb s t
  | _ => false
  end.

Section GetQuestions.

(** [Number(v)], the conversion of the language. *)
Variable Number_ : json -> JS.number.

(** [array.sort(() => Math.random() - 0.5)]: the order the engine leaves
    the array in, under a comparator that answers at random. *)
Variable sort_at_random : list Question -> list Question.

Definition getQuestions (QUESTIONS : list Question)
  (category difficulty : option json) : list Question * list Question :=
  let filtered := QUESTIONS in
  let filtered :=
    if truthy category
    then filter (fun q => strictly_equals_string (QuestionBank.category q)
                            category) filtered
    else filtered in
  let filtered :=
    match difficulty with
    | Some d =>
        if truthy difficulty
        then filter (fun q => QuestionBank.difficulty q =? Number_ d) filtered
        else filtered
    | None => filtered
    end in
  let sorted := sort_at_random filtered in
  (firstn 5 sorted,
   if truthy category || truthy difficulty then QUESTIONS else sorted).

End GetQuestions.

End QuestionBank.

(** A question passes the filters that [category] and [difficulty]
    switch on. *)
Definition passes_filters (Number_ : Express.json -> JS.number)
  (category difficulty : option Express.json)
  (q : QuestionBank.Question) : bool :=
  (negb (JSValue.truthy category) ||
   QuestionBank.strictly_equals_string (QuestionBank.category q) category) &&
  match difficulty with
  | Some d =>
      negb (JSValue.truthy difficulty) ||
      (QuestionBank.difficulty q =? Number_ d)
  | None => true
  end.

(** A bank of seven questions, a conversion that reads "2" as 2, and the
    sort that reverses. *)
Definition sample_bank : list QuestionBank.Question :=
  [ QuestionBank.mkQuestion "q1" "What is a heap?" "DSA" 2;
    QuestionBank.mkQuestion "q2" "What is a trie?" "DSA" 2;
    QuestionBank.mkQuestion "q3" "What is a closure?" "Web" 2;
    QuestionBank.mkQuestion "q4" "What is a stack?" "DSA" 1;
    QuestionBank.mkQuestion "q5" "What is a queue?" "DSA" 2;
    QuestionBank.mkQuestion "q6" "What is a graph?" "DSA" 2;
    QuestionBank.mkQuestion "q7" "What is a tree?" "DSA" 2 ].

Definition number_of_digit (v : Express.json) : JS.number :=
  match v with
  | Express.JNumber n => n
  | Express.JString "2" => 2
  | _ => nan
  end.

(** ** The answer-evaluation route of AI_FEATURES_IMPLEMENTATION.md *)

(** The route destructures [req.body] before its [try], and awaits
    [evaluateWithOpenAI], whose body builds a prompt and ends without a
    [return]. *)
Module FeaturesRoute.
Import Express JSValue.

(** Whether the conversion of [v] to a string, which a template literal
    performs, throws a TypeError: an object converts through its
    [toString] property, which is not callable when it came out of
    [JSON.parse] (without one it inherits [Object.prototype.toString]); an
    array converts each element that is not [null]. *)
Fixpoint to_string_throws (v : json) : bool :=
  match v with
  | JObject props =>
      match lookup props "toString" with
      | Some _ => true
      | None => false
      end
  | JArray items => existsb to_string_throws items
  | _ => false
  end.

Definition interpolation_throws (v : option json) : bool :=
  match v with
  | Some j => to_string_throws j
  | None => false
  end.

(** [evaluateWithOpenAI(data)]: the value the promise resolves to is
    [undefined]. *)
Definition evaluateWithOpenAI (question userAnswer expectedAnswer : option json)
  : outcome (option json) :=
  if interpolation_throws question then Throws
  else if interpolation_throws userAnswer then Throws
  else if truthy expectedAnswer && interpolation_throws expectedAnswer
  then Throws
  else Returns None.

(** [{ k1: v1, ... }] as [res.json] serializes it: a property whose value
    is [undefined] is left out. *)
Fixpoint serialized (props : list (string * option json))
  : list (string * json) :=
  match props with
  | [] => []
  | (k, Some v) :: rest => (k, v) :: serialized rest
  | (_, None) :: rest => serialized rest
  end.

Definition evaluate_answer_handler (req : Request) : outcome Response :=
  match destructure (body req)
          ["question"; "userAnswer"; "expectedAnswer"]%string with
  | Returns [question; userAnswer; expectedAnswer] =>
      match evaluateWithOpenAI question userAnswer expectedAnswer with
      | Returns evaluation =>
          Returns
            (res_json (JObject (serialized [("evaluation"%string, evaluation)])))
      | Throws =>
          Returns
            (res_status_json 500
               (JObject [("error"%string, JString "Evaluation failed")]))
      end
  | _ => Throws
  end.

End FeaturesRoute.

(** * Properties *)

(** ** The order of binary64 values *)

Module FloatOrder.

(** [SFcompare] orders finite values of one sign by exponent, then by
    mantissa: a lexicographic order, transitive on every [spec_float]. *)
Lemma SFleb_trans (x y z : spec_float) :
  SFleb x y = true -> SFleb y z = true -> SFleb x z = true.
Proof.
  unfold SFleb, SFcompare.
  destruct x as [sx|sx| |sx mx ex], y as [sy|sy| |sy my ey],
           z as [sz|sz| |sz mz ez];
    repeat match goal with s : bool |- _ => destruct s end;
    try reflexivity; try discriminate;
    destruct (Z.compare_spec ex ey), (Z.compare_spec ey ez),
             (Z.compare_spec ex ez);
    try reflexivity; try discriminate; try lia; subst;
    rewrite ?Pos.compare_cont_spec; simpl;
    destruct (Pos.compare_spec mx my), (Pos.compare_spec my mz),
             (Pos.compare_spec mx mz);
    simpl; try reflexivity; try discriminate; lia.
Qed.

Lemma leb_trans (x y z : float) :
  (x <=? y) = true -> (y <=? z) = true -> (x <=? z) = true.
Proof. rewrite !leb_spec. apply SFleb_trans. Qed.

(** A number that is not [>= lo] is not [>= hi] for any [hi >= lo]. *)
Lemma not_ge_above (s lo hi : float) :
  (lo <=? hi) = true -> JS.ge s lo = false -> JS.ge s hi = false.
Proof.
  unfold JS.ge. intros Hlh Hlo.
  destruct (hi <=? s) eqn:Hhi; [|reflexivity].
  rewrite (leb_trans lo hi s Hlh Hhi) in Hlo. discriminate.
Qed.

End FloatOrder.

(** ** Facts of binary64 arithmetic *)

Module Binary64Facts.

Import Binary64.

#[local] Open Scope Z_scope.

(** *** Digits and shifts *)

Lemma digits2_pos_bounds (p : positive) :
  2 ^ (Zpos (digits2_pos p) - 1) <= Zpos p < 2 ^ Zpos (digits2_pos p).
Proof.
  induction p as [p IH|p IH|]; cbn [digits2_pos].
  - rewrite Pos2Z.inj_succ.
    replace (Z.succ (Zpos (digits2_pos p)) - 1) with (Z.succ (Zpos (digits2_pos p) - 1)) by lia.
    rewrite !Z.pow_succ_r by lia. lia.
  - rewrite Pos2Z.inj_succ.
    replace (Z.succ (Zpos (digits2_pos p)) - 1) with (Z.succ (Zpos (digits2_pos p) - 1)) by lia.
    rewrite !Z.pow_succ_r by lia. lia.
  - simpl. lia.
Qed.

Lemma digits2_pos_log2 (p : positive) :
  Zpos (digits2_pos p) = Z.log2 (Zpos p) + 1.
Proof.
  pose proof (digits2_pos_bounds p) as H.
  rewrite (Z.log2_unique (Zpos p) (Zpos (digits2_pos p) - 1)); [lia|lia|].
  replace (Z.succ (Zpos (digits2_pos p) - 1)) with (Zpos (digits2_pos p)) by lia.
  exact H.
Qed.

Lemma shr_1_inv (x u : Z) (mrs : shr_record) :
  shr_inv x u mrs -> shr_inv x (2 * u) (shr_1 mrs).
Proof.
  destruct mrs as [m r s]. unfold shr_inv; cbn [shr_m shr_r shr_s].
  intros (Hm & Hu & Hx & Hl).
  destruct m as [|[p|p|]|p]; try lia; cbn [shr_1 shr_m shr_r shr_s];
    destruct r, s; cbn [orb loc_ok] in *; lia.
Qed.

Lemma iter_pos_iter {A} (f : A -> A) (p : positive) (x : A) :
  iter_pos f p x = Pos.iter f x p.
Proof.
  revert x. induction p as [p IH|p IH|]; intro x; cbn [iter_pos Pos.iter].
  - rewrite !IH. rewrite <- !Pos.iter_swap. reflexivity.
  - rewrite !IH. reflexivity.
  - reflexivity.
Qed.

Lemma iter_shr_1_inv (x u : Z) (mrs : shr_record) (p : positive) :
  shr_inv x u mrs -> shr_inv x (u * 2 ^ Zpos p) (iter_pos shr_1 p mrs).
Proof.
  intro H. rewrite iter_pos_iter.
  rewrite Pos2Nat.inj_iter.
  rewrite <- (positive_nat_Z p).
  induction (Pos.to_nat p) as [|n IH].
  - simpl. rewrite Z.mul_1_r. exact H.
  - rewrite Nat2Z.inj_succ, Z.pow_succ_r by lia. cbn [nat_rect].
    replace (u * (2 * 2 ^ Z.of_nat n)) with (2 * (u * 2 ^ Z.of_nat n)) by lia.
    apply shr_1_inv. exact IH.
Qed.

(** *** Rounding to nearest, ties to even *)

Lemma shr_inv_div (x u : Z) (mrs : shr_record) :
  shr_inv x u mrs -> shr_m mrs = x / u /\ x - shr_m mrs * u = x mod u.
Proof.
  intros (Hm & Hu & Hx & _).
  assert (shr_m mrs = x / u).
  { apply Z.div_unique with (r := x - shr_m mrs * u); lia. }
  split; [assumption|].
  pose proof (Z.div_mod x u ltac:(lia)). rewrite <- H in H0. lia.
Qed.

Lemma round_nearest_even_rne (x u : Z) (mrs : shr_record) :
  shr_inv x u mrs ->
  round_nearest_even (shr_m mrs) (loc_of_shr_record mrs) = rne x u.
Proof.
  intro H. destruct (shr_inv_div x u mrs H) as [Hq Hr].
  destruct H as (Hm & Hu & Hx & Hl).
  unfold rne. rewrite <- Hq, <- Hr.
  destruct mrs as [m r s]; cbn [shr_m shr_r shr_s] in *.
  destruct r, s; cbn [loc_ok loc_of_shr_record round_nearest_even] in *.
  - destruct (Z.ltb_spec (2 * (x - m * u)) u); [lia|].
    destruct (Z.ltb_spec u (2 * (x - m * u))); [reflexivity|lia].
  - destruct (Z.ltb_spec (2 * (x - m * u)) u); [lia|].
    destruct (Z.ltb_spec u (2 * (x - m * u))); [lia|reflexivity].
  - destruct (Z.ltb_spec (2 * (x - m * u)) u); [reflexivity|lia].
  - destruct (Z.ltb_spec (2 * (x - m * u)) u); [reflexivity|lia].
Qed.

Lemma ltb_scale (a b c : Z) : 0 < c -> (a * c <? b * c) = (a <? b).
Proof.
  intro Hc. destruct (Z.ltb_spec (a * c) (b * c)), (Z.ltb_spec a b);
    try reflexivity; nia.
Qed.

Lemma rne_scale (x u c : Z) : 0 < u -> 0 < c -> rne (x * c) (u * c) = rne x u.
Proof.
  intros Hu Hc. unfold rne.
  rewrite Z.div_mul_cancel_r by lia.
  rewrite Z.mul_mod_distr_r by lia.
  replace (2 * (x mod u * c)) with (2 * (x mod u) * c) by lia.
  rewrite !ltb_scale by lia. reflexivity.
Qed.

Lemma rne_bounds (v W : Z) : 0 < W -> v / W <= rne v W <= v / W + 1.
Proof.
  intro HW. unfold rne.
  destruct (2 * (v mod W) <? W); [lia|].
  destruct (W <? 2 * (v mod W)); [lia|].
  destruct (Z.even (v / W)); lia.
Qed.

Lemma rne_exact (k W : Z) : 0 < W -> rne (k * W) W = k.
Proof.
  intro HW. unfold rne.
  rewrite Z.div_mul, Z.mod_mul by lia.
  destruct (Z.ltb_spec (2 * 0) W); [reflexivity|lia].
Qed.

Lemma rne_mono (v v' W : Z) : 0 < W -> v <= v' -> rne v W <= rne v' W.
Proof.
  intros HW Hv.
  pose proof (Z.div_le_mono v v' W HW Hv) as Hq.
  destruct (Z.eq_dec (v / W) (v' / W)) as [Heq|Hne].
  - pose proof (Z.div_mod v W ltac:(lia)) as H1.
    pose proof (Z.div_mod v' W ltac:(lia)) as H2.
    assert (Hr : v mod W <= v' mod W) by (rewrite Heq in H1; nia).
    unfold rne. rewrite <- Heq.
    destruct (Z.ltb_spec (2 * (v mod W)) W), (Z.ltb_spec (2 * (v' mod W)) W);
      try lia;
      destruct (Z.ltb_spec W (2 * (v mod W))), (Z.ltb_spec W (2 * (v' mod W)));
      try lia; destruct (Z.even (v / W)); lia.
  - pose proof (rne_bounds v W HW). pose proof (rne_bounds v' W HW). lia.
Qed.

(** *** [binary_round_aux] computes [rne] *)

Lemma fexp64_eq (x : Z) : fexp prec emax x = Z.max (x - 53) (-1074).
Proof. reflexivity. Qed.

Lemma shr_fexp_first (p : positive) (e : Z) :
  let E := fexp prec emax (Zpos (digits2_pos p) + e) in
  e <= E ->
  exists mrs,
    shr_fexp prec emax (Zpos p) e loc_Exact = (mrs, E) /\
    shr_inv (Zpos p) (2 ^ (E - e)) mrs.
Proof.
  intros E HE. unfold shr_fexp. cbn [Zdigits2 shr_record_of_loc].
  fold E. unfold shr.
  destruct (E - e) as [|k|k] eqn:Hn; try lia.
  - eexists; split; [f_equal; lia|].
    unfold shr_inv; cbn [shr_m shr_r shr_s loc_ok].
    rewrite Z.pow_0_r. lia.
  - eexists; split; [f_equal; lia|].
    replace (2 ^ Zpos k) with (1 * 2 ^ Zpos k) by lia.
    apply iter_shr_1_inv.
    unfold shr_inv; cbn [shr_m shr_r shr_s loc_ok]. lia.
Qed.

Lemma digits2_pos_le (p : positive) (d : Z) :
  0 <= d -> Zpos p < 2 ^ d -> Zpos (digits2_pos p) <= d.
Proof.
  intros Hd Hp. pose proof (digits2_pos_bounds p) as [Hlo _].
  destruct (Z.le_gt_cases (Zpos (digits2_pos p)) d) as [|Hgt]; [assumption|].
  assert (2 ^ d <= 2 ^ (Zpos (digits2_pos p) - 1))
    by (apply Z.pow_le_mono_r; lia).
  lia.
Qed.

Lemma shr_fexp_second (m2 E : Z) :
  -1074 <= E -> 0 <= m2 <= 2 ^ 53 ->
  shr_fexp prec emax m2 E loc_Exact =
  if m2 =? 2 ^ 53
  then ({| shr_m := 2 ^ 52; shr_r := false; shr_s := false |}, E + 1)
  else ({| shr_m := m2; shr_r := false; shr_s := false |}, E).
Proof.
  intros HE Hm. unfold shr_fexp. cbn [shr_record_of_loc].
  rewrite fexp64_eq.
  destruct (Z.eqb_spec m2 (2 ^ 53)) as [->|Hne].
  - change (Zdigits2 (2 ^ 53)) with 54.
    replace (Z.max (54 + E - 53) (-1074) - E) with 1 by lia.
    reflexivity.
  - assert (Hd : Zdigits2 m2 <= 53).
    { destruct m2 as [|p|p]; cbn [Zdigits2]; try lia.
      apply digits2_pos_le; lia. }
    unfold shr.
    destruct (Z.max (Zdigits2 m2 + E - 53) (-1074) - E) eqn:Hn;
      try reflexivity; lia.
Qed.

Lemma rne_first_bounds (p : positive) (e : Z) :
  let E := fexp prec emax (Zpos (digits2_pos p) + e) in
  e <= E ->
  let M := rne (Zpos p) (2 ^ (E - e)) in
  0 <= M <= 2 ^ 53 /\ (-1074 < E -> 2 ^ 52 <= M).
Proof.
  intros E HE M.
  pose proof (digits2_pos_bounds p) as [Hlo Hhi].
  set (d := Zpos (digits2_pos p)) in *.
  assert (Hd : 0 < d) by (unfold d; lia).
  assert (HEeq : E = Z.max (d + e - 53) (-1074)) by reflexivity.
  set (n := E - e) in *.
  assert (Hn : 0 <= n) by (unfold n; lia).
  assert (HW : 0 < 2 ^ n) by (apply Z.pow_pos_nonneg; lia).
  pose proof (rne_bounds (Zpos p) (2 ^ n) HW) as HM. fold M in HM.
  assert (Hq0 : 0 <= Zpos p / 2 ^ n) by (apply Z.div_pos; lia).
  assert (Hq1 : Zpos p / 2 ^ n < 2 ^ 53).
  { apply Z.div_lt_upper_bound; [lia|].
    rewrite <- Z.pow_add_r by lia.
    apply Z.lt_le_trans with (2 ^ d); [assumption|].
    apply Z.pow_le_mono_r; unfold n; lia. }
  split; [lia|].
  intro HEgt.
  assert (Hq2 : 2 ^ 52 <= Zpos p / 2 ^ n).
  { apply Z.div_le_lower_bound; [lia|].
    rewrite <- Z.pow_add_r by lia.
    replace (n + 52) with (d - 1) by (unfold n; lia). assumption. }
  lia.
Qed.

Lemma binary_round_aux_unscaled (s : bool) (p : positive) (e : Z) :
  let E := fexp prec emax (Zpos (digits2_pos p) + e) in
  e <= E ->
  let M := rne (Zpos p) (2 ^ (E - e)) in
  binary_round_aux prec emax s (Zpos p) e loc_Exact =
  if M =? 0 then S754_zero s
  else if M =? 2 ^ 53
       then (if E + 1 <=? 971 then S754_finite s (Z.to_pos (2 ^ 52)) (E + 1)
             else S754_infinity s)
       else (if E <=? 971 then S754_finite s (Z.to_pos M) E
             else S754_infinity s).
Proof.
  intros E HE M.
  destruct (rne_first_bounds p e HE) as [HM _]. fold E M in HM.
  destruct (shr_fexp_first p e HE) as (mrs & Hshr & Hinv). fold E in Hshr, Hinv.
  unfold binary_round_aux. rewrite Hshr.
  rewrite (round_nearest_even_rne _ _ _ Hinv). fold M.
  assert (HEmin : -1074 <= E) by (unfold E; rewrite fexp64_eq; lia).
  rewrite (shr_fexp_second M E HEmin HM).
  destruct (Z.eqb_spec M (2 ^ 53)) as [HM53|HM53].
  - rewrite HM53. reflexivity.
  - cbn [shr_m]. destruct M as [|pm|pm]; try lia; reflexivity.
Qed.

(** *** The value of a rounded number *)

Lemma pow2_split (a b : Z) : 0 <= a <= b -> 2 ^ b = 2 ^ (b - a) * 2 ^ a.
Proof. intro H. rewrite <- Z.pow_add_r by lia. f_equal. lia. Qed.

Lemma pow2_pos (a : Z) : 0 <= a -> 0 < 2 ^ a.
Proof. intro H. apply Z.pow_pos_nonneg; lia. Qed.

Lemma binary_round_aux_val (s : bool) (p : positive) (e K : Z) :
  e <= fexp prec emax (Zpos (digits2_pos p) + e) ->
  0 <= K -> 0 <= e + K ->
  let R := binary_round_aux prec emax s (Zpos p) e loc_Exact in
  SFsign s R /\ SFvalue K R = cond_Zopp s (round_nearest K (Zpos p * 2 ^ (e + K))).
Proof.
  intros HE HK0 HK R.
  pose proof (binary_round_aux_unscaled s p e HE) as HR.
  destruct (rne_first_bounds p e HE) as [HM HM52].
  cbv zeta in HR, HM, HM52. fold R in HR.
  set (E := fexp prec emax (Zpos (digits2_pos p) + e)) in *.
  set (M := rne (Zpos p) (2 ^ (E - e))) in *.
  assert (HEmin : -1074 <= E) by (unfold E; rewrite fexp64_eq; lia).
  assert (Hc : 0 < 2 ^ (e + K)) by (apply pow2_pos; lia).
  assert (HFr : round_nearest K (Zpos p * 2 ^ (e + K)) =
                Z.min (M * 2 ^ (E + K)) (Omega K)).
  { unfold round_nearest.
    rewrite Z.log2_mul_pow2 by lia.
    replace (e + K + Z.log2 (Zpos p) + 1 - K)
      with (Zpos (digits2_pos p) + e) by (rewrite digits2_pos_log2; lia).
    fold E.
    rewrite (pow2_split (e + K) (E + K)) by lia.
    replace (E + K - (e + K)) with (E - e) by lia.
    rewrite rne_scale by (try apply pow2_pos; lia).
    reflexivity. }
  rewrite HFr. clear HFr.
  set (W := 2 ^ (E + K)).
  assert (HW : 0 < W) by (apply pow2_pos; lia).
  unfold Omega.
  destruct (Z.eqb_spec M 0) as [HM0|HM0].
  { rewrite HR. split; [reflexivity|].
    cbn [SFvalue]. rewrite HM0.
    assert (0 < 2 ^ (1024 + K)) by (apply pow2_pos; lia).
    rewrite Z.min_l by lia. destruct s; reflexivity. }
  destruct (Z.eqb_spec M (2 ^ 53)) as [HM53|HM53].
  { destruct (Z.leb_spec (E + 1) 971) as [HE1|HE1]; rewrite HR.
    - split; [reflexivity|]. cbn [SFvalue]. f_equal.
      rewrite Z2Pos.id by lia.
      replace (E + 1 + K) with (Z.succ (E + K)) by lia.
      rewrite Z.pow_succ_r by lia. fold W.
      rewrite (pow2_split (E + K) (1024 + K)) by lia. fold W.
      assert (2 ^ 54 <= 2 ^ (1024 + K - (E + K)))
        by (apply Z.pow_le_mono_r; lia).
      rewrite Z.min_l by nia. lia.
    - split; [reflexivity|]. cbn [SFvalue]. f_equal. unfold Omega.
      unfold W. rewrite (pow2_split (971 + K) (E + K)) by lia.
      replace (1024 + K) with (53 + (971 + K)) by lia.
      rewrite Z.pow_add_r by lia.
      assert (1 <= 2 ^ (E + K - (971 + K)))
        by (pose proof (pow2_pos (E + K - (971 + K))); lia).
      assert (0 < 2 ^ (971 + K)) by (apply pow2_pos; lia).
      rewrite Z.min_r by nia. reflexivity. }
  destruct (Z.leb_spec E 971) as [HE1|HE1]; rewrite HR.
  - split; [reflexivity|]. cbn [SFvalue]. f_equal.
    rewrite Z2Pos.id by lia. fold W.
    rewrite (pow2_split (E + K) (1024 + K)) by lia. fold W.
    assert (2 ^ 53 <= 2 ^ (1024 + K - (E + K)))
      by (apply Z.pow_le_mono_r; lia).
    rewrite Z.min_l by nia. reflexivity.
  - split; [reflexivity|]. cbn [SFvalue]. f_equal. unfold Omega.
    specialize (HM52 ltac:(lia)).
    unfold W. rewrite (pow2_split (972 + K) (E + K)) by lia.
    replace (1024 + K) with (52 + (972 + K)) by lia.
    rewrite Z.pow_add_r by lia.
    assert (1 <= 2 ^ (E + K - (972 + K)))
      by (pose proof (pow2_pos (E + K - (972 + K))); lia).
    assert (0 < 2 ^ (972 + K)) by (apply pow2_pos; lia).
    assert (2 ^ 52 <= M * 2 ^ (E + K - (972 + K))) by nia.
    rewrite Z.mul_assoc.
    rewrite Z.min_r by (apply Z.mul_le_mono_nonneg_r; lia). reflexivity.
Qed.

(** *** Rounding is monotone and fixes the representable values *)

Lemma rne_mul_le (V W B k : Z) :
  0 < W -> B = k * W -> V <= B -> rne V W * W <= B.
Proof.
  intros HW -> HV.
  pose proof (rne_mono V (k * W) W HW HV) as H.
  rewrite rne_exact in H by assumption. nia.
Qed.

Lemma rne_mul_ge (V W B k : Z) :
  0 < W -> B = k * W -> B <= V -> B <= rne V W * W.
Proof.
  intros HW -> HV.
  pose proof (rne_mono (k * W) V W HW HV) as H.
  rewrite rne_exact in H by assumption. nia.
Qed.

Lemma round_nearest_mono (K V V' : Z) :
  1074 <= K -> 0 < V -> V <= V' -> round_nearest K V <= round_nearest K V'.
Proof.
  intros HK HV HVV'. unfold round_nearest. rewrite !fexp64_eq.
  pose proof (Z.log2_le_mono V V' HVV') as Hlog.
  pose proof (Z.log2_spec V HV) as [HVlo HVhi].
  pose proof (Z.log2_spec V' ltac:(lia)) as [HV'lo HV'hi].
  pose proof (Z.log2_nonneg V) as Hl0.
  set (l := Z.log2 V) in *. set (l' := Z.log2 V') in *.
  set (E := Z.max (l + 1 - K - 53) (-1074)).
  set (E' := Z.max (l' + 1 - K - 53) (-1074)).
  assert (HW : 0 < 2 ^ (E + K)) by (apply pow2_pos; lia).
  assert (HW' : 0 < 2 ^ (E' + K)) by (apply pow2_pos; lia).
  apply Z.min_le_compat_r.
  destruct (Z.eq_dec E E') as [Heq|Hne].
  - rewrite <- Heq. apply Z.mul_le_mono_nonneg_r; [lia|].
    apply rne_mono; assumption.
  - assert (HEE : E < E') by lia.
    assert (HE' : E' = l' + 1 - K - 53) by lia.
    assert (Hll : l < l') by lia.
    apply Z.le_trans with (2 ^ l').
    + set (a := Z.max (l + 1) (E + K)).
      apply Z.le_trans with (2 ^ a).
      * apply rne_mul_le with (k := 2 ^ (a - (E + K))); [assumption| |].
        -- apply pow2_split; lia.
        -- apply Z.le_trans with (2 ^ (l + 1)).
           ++ rewrite <- Z.add_1_r in HVhi. lia.
           ++ apply Z.pow_le_mono_r; lia.
      * apply Z.pow_le_mono_r; lia.
    + apply rne_mul_ge with (k := 2 ^ (l' - (E' + K))); [assumption| |lia].
      apply pow2_split; lia.
Qed.

Lemma bounded_canonical (m : positive) (e : Z) :
  bounded prec emax m e = true ->
  fexp prec emax (Zpos (digits2_pos m) + e) = e /\ e <= 971.
Proof.
  unfold bounded, canonical_mantissa. intro H.
  apply andb_prop in H as [H1 H2].
  apply Z.eqb_eq in H1. apply Z.leb_le in H2.
  split; [assumption|]. exact H2.
Qed.

Lemma bounded_mantissa (m : positive) (e : Z) :
  bounded prec emax m e = true ->
  Zpos m < 2 ^ 53 /\ -1074 <= e <= 971 /\ (-1074 < e -> 2 ^ 52 <= Zpos m).
Proof.
  intro H. apply bounded_canonical in H as [Hc He].
  rewrite fexp64_eq in Hc.
  pose proof (digits2_pos_bounds m) as [Hlo Hhi].
  set (d := Zpos (digits2_pos m)) in *.
  split; [|split; [lia|]].
  - apply Z.lt_le_trans with (2 ^ d); [assumption|].
    apply Z.pow_le_mono_r; lia.
  - intro Hgt. apply Z.le_trans with (2 ^ (d - 1)); [|assumption].
    apply Z.pow_le_mono_r; lia.
Qed.

Lemma round_nearest_exact (K : Z) (m : positive) (e : Z) :
  1074 <= K -> bounded prec emax m e = true ->
  round_nearest K (Zpos m * 2 ^ (e + K)) = Zpos m * 2 ^ (e + K).
Proof.
  intros HK Hb.
  pose proof (bounded_canonical m e Hb) as [Hc _].
  pose proof (bounded_mantissa m e Hb) as (Hm & He & _).
  assert (HW : 0 < 2 ^ (e + K)) by (apply pow2_pos; lia).
  unfold round_nearest.
  rewrite Z.log2_mul_pow2 by lia.
  replace (e + K + Z.log2 (Zpos m) + 1 - K)
    with (Zpos (digits2_pos m) + e) by (rewrite digits2_pos_log2; lia).
  rewrite Hc. rewrite rne_exact by assumption.
  unfold Omega. rewrite (pow2_split (e + K) (1024 + K)) by lia.
  assert (2 ^ 53 <= 2 ^ (1024 + K - (e + K)))
    by (apply Z.pow_le_mono_r; lia).
  rewrite Z.min_l by nia. reflexivity.
Qed.

(** *** On valid numbers [SFleb] is the order of the values *)

Lemma Omega_pos (K : Z) : 0 <= K -> 0 < Omega K.
Proof. intro H. apply pow2_pos. lia. Qed.

Lemma finite_val_bounds (K : Z) (m : positive) (e : Z) :
  1074 <= K -> bounded prec emax m e = true ->
  0 < Zpos m * 2 ^ (e + K) < Omega K.
Proof.
  intros HK Hb. pose proof (bounded_mantissa m e Hb) as (Hm & He & _).
  assert (HW : 0 < 2 ^ (e + K)) by (apply pow2_pos; lia).
  split; [lia|].
  unfold Omega. rewrite (pow2_split (e + K) (1024 + K)) by lia.
  assert (2 ^ 53 <= 2 ^ (1024 + K - (e + K)))
    by (apply Z.pow_le_mono_r; lia).
  nia.
Qed.

Lemma canonical_lt (K : Z) (m m' : positive) (e e' : Z) :
  1074 <= K ->
  bounded prec emax m e = true -> bounded prec emax m' e' = true ->
  e < e' -> Zpos m * 2 ^ (e + K) < Zpos m' * 2 ^ (e' + K).
Proof.
  intros HK Hb Hb' Hee.
  pose proof (bounded_mantissa m e Hb) as (Hm & He & _).
  pose proof (bounded_mantissa m' e' Hb') as (_ & He' & Hm').
  specialize (Hm' ltac:(lia)).
  assert (HW : 0 < 2 ^ (e + K)) by (apply pow2_pos; lia).
  rewrite (pow2_split (e + K) (e' + K)) by lia.
  assert (2 ^ 1 <= 2 ^ (e' + K - (e + K))) by (apply Z.pow_le_mono_r; lia).
  change (2 ^ 1) with 2 in *.
  assert (2 ^ 53 <= Zpos m' * 2 ^ (e' + K - (e + K))) by nia.
  rewrite Z.mul_assoc. nia.
Qed.

Lemma finite_compare_val (K : Z) (m m' : positive) (e e' : Z) :
  1074 <= K ->
  bounded prec emax m e = true -> bounded prec emax m' e' = true ->
  match Z.compare e e' with
  | Lt => Lt
  | Gt => Gt
  | Eq => Pos.compare_cont Eq m m'
  end = Z.compare (Zpos m * 2 ^ (e + K)) (Zpos m' * 2 ^ (e' + K)).
Proof.
  intros HK Hb Hb'. symmetry.
  destruct (Z.compare_spec e e') as [Heq|Hlt|Hgt].
  - subst e'. rewrite Pos.compare_cont_spec. cbn [Pos.switch_Eq].
    pose proof (bounded_mantissa m e Hb) as (_ & He & _).
    assert (HW : 0 < 2 ^ (e + K)) by (apply pow2_pos; lia).
    change (Pos.compare m m') with (Z.compare (Zpos m) (Zpos m')).
    destruct (Z.compare_spec (Zpos m) (Zpos m')) as [H|H|H].
    + rewrite H. apply Z.compare_refl.
    + apply Z.compare_lt_iff. nia.
    + apply Z.compare_gt_iff. nia.
  - apply Z.compare_lt_iff. apply canonical_lt; assumption.
  - apply Z.compare_gt_iff. apply canonical_lt; assumption.
Qed.

Lemma finite_compare_val_opp (K : Z) (m m' : positive) (e e' : Z) :
  1074 <= K ->
  bounded prec emax m e = true -> bounded prec emax m' e' = true ->
  match Z.compare e e' with
  | Lt => Gt
  | Gt => Lt
  | Eq => CompOpp (Pos.compare_cont Eq m m')
  end = CompOpp (Z.compare (Zpos m * 2 ^ (e + K)) (Zpos m' * 2 ^ (e' + K))).
Proof.
  intros HK Hb Hb'. rewrite <- (finite_compare_val K m m' e e' HK Hb Hb').
  destruct (Z.compare e e'); reflexivity.
Qed.

Lemma SFleb_val (K : Z) (x y : spec_float) :
  1074 <= K ->
  valid_binary x = true -> valid_binary y = true ->
  x <> S754_nan -> y <> S754_nan ->
  (SFleb x y = true <-> SFvalue K x <= SFvalue K y).
Proof.
  intros HK Hx Hy Hnx Hny.
  pose proof (Omega_pos K ltac:(lia)) as HO.
  unfold SFleb, SFcompare.
  destruct x as [sx|sx| |sx mx ex], y as [sy|sy| |sy my ey];
    try contradiction; cbn [SFvalue valid_binary] in *;
    try (pose proof (finite_val_bounds K mx ex HK Hx));
    try (pose proof (finite_val_bounds K my ey HK Hy));
    try (rewrite (finite_compare_val K mx my ex ey HK Hx Hy));
    try (rewrite (finite_compare_val_opp K mx my ex ey HK Hx Hy));
    repeat match goal with s : bool |- _ => destruct s end;
    cbn [cond_Zopp];
    try (split; intro; [lia | reflexivity]);
    try (split; intro; [discriminate | lia]);
    destruct (Z.compare_spec (Zpos mx * 2 ^ (ex + K))
                (Zpos my * 2 ^ (ey + K)));
    cbn [CompOpp]; split; intro; try discriminate; try reflexivity; lia.
Qed.

(** *** Addition, subtraction and multiplication by a constant *)

Lemma iter_xO (m d : positive) :
  Zpos (Pos.iter xO m d) = Zpos m * 2 ^ Zpos d.
Proof.
  induction d as [|d IH] using Pos.peano_ind.
  - simpl. lia.
  - rewrite Pos.iter_succ, Pos2Z.inj_succ, Z.pow_succ_r by lia.
    rewrite Pos2Z.inj_xO, IH. lia.
Qed.

Lemma shl_align_spec (mx : positive) (ex ex' : Z) :
  snd (shl_align mx ex ex') = Z.min ex ex' /\
  Zpos (fst (shl_align mx ex ex')) = Zpos mx * 2 ^ (ex - Z.min ex ex').
Proof.
  unfold shl_align.
  destruct (ex' - ex) as [|d|d] eqn:Hd; cbn [fst snd].
  - rewrite Z.min_l by lia. rewrite Z.sub_diag. simpl. lia.
  - rewrite Z.min_l by lia. rewrite Z.sub_diag. simpl. lia.
  - rewrite Z.min_r by lia. rewrite iter_xO.
    replace (ex - ex') with (Zpos d) by lia. split; reflexivity.
Qed.

Lemma binary_round_val (s : bool) (mx : positive) (ex K : Z) :
  1074 <= K -> 0 <= ex + K ->
  let R := binary_round prec emax s mx ex in
  SFsign s R /\ SFvalue K R = cond_Zopp s (round_nearest K (Zpos mx * 2 ^ (ex + K))).
Proof.
  intros HK Hex R. subst R. unfold binary_round.
  set (E0 := fexp prec emax (Zpos (digits2_pos mx) + ex)).
  pose proof (shl_align_spec mx ex E0) as [Hez Hmz].
  destruct (shl_align mx ex E0) as [mz ez]. cbn [fst snd] in *.
  assert (HE0 : -1074 <= E0) by (unfold E0; rewrite fexp64_eq; lia).
  assert (Hdig : Zpos (digits2_pos mz) + ez = Zpos (digits2_pos mx) + ex).
  { rewrite !digits2_pos_log2, Hmz.
    rewrite Z.log2_mul_pow2 by lia. lia. }
  assert (HV : Zpos mz * 2 ^ (ez + K) = Zpos mx * 2 ^ (ex + K)).
  { rewrite Hmz, <- Z.mul_assoc, <- Z.pow_add_r by lia. f_equal. f_equal. lia. }
  rewrite <- HV.
  apply binary_round_aux_val; try lia.
  rewrite Hdig. fold E0. lia.
Qed.

Lemma round_nearest_bounds (K V : Z) : 1074 <= K -> 0 <= V -> 0 <= round_nearest K V <= Omega K.
Proof.
  intros HK HV. unfold round_nearest. rewrite fexp64_eq.
  set (E := Z.max _ _).
  assert (HW : 0 < 2 ^ (E + K)) by (apply pow2_pos; lia).
  pose proof (rne_bounds V (2 ^ (E + K)) HW) as [Hlo _].
  pose proof (Z.div_pos V (2 ^ (E + K)) HV HW).
  pose proof (Omega_pos K ltac:(lia)).
  split; [apply Z.min_glb; nia | apply Z.le_min_r].
Qed.

Lemma round_signed_mono (K S S' : Z) : 1074 <= K -> S <= S' -> round_signed K S <= round_signed K S'.
Proof.
  intros HK HS.
  destruct S as [|p|p], S' as [|p'|p']; cbn [round_signed]; try lia;
    try (pose proof (round_nearest_bounds K (Zpos p) HK ltac:(lia)));
    try (pose proof (round_nearest_bounds K (Zpos p') HK ltac:(lia)));
    try (pose proof (round_nearest_bounds K (- Zneg p) HK ltac:(lia)));
    try (pose proof (round_nearest_bounds K (- Zneg p') HK ltac:(lia)));
    try lia.
  - apply round_nearest_mono; lia.
  - pose proof (round_nearest_mono K (- Zneg p') (- Zneg p) HK ltac:(lia) ltac:(lia)).
    lia.
Qed.

Lemma round_signed_opp (K S : Z) : round_signed K (- S) = - round_signed K S.
Proof. destruct S; cbn [round_signed Z.opp]; lia. Qed.

Lemma round_signed_cond_Zopp (K : Z) (s : bool) (V : Z) :
  0 < V -> round_signed K (cond_Zopp s V) = cond_Zopp s (round_nearest K V).
Proof.
  intro HV. destruct s; cbn [cond_Zopp].
  - rewrite round_signed_opp. destruct V; try lia. reflexivity.
  - destruct V; try lia. reflexivity.
Qed.

Lemma round_signed_exact (K : Z) (x : spec_float) :
  1074 <= K -> valid_binary x = true -> SFfin x ->
  round_signed K (SFvalue K x) = SFvalue K x.
Proof.
  intros HK Hv Hf. destruct x as [s|s| |s m e]; try contradiction.
  - reflexivity.
  - cbn [SFvalue valid_binary] in *.
    pose proof (finite_val_bounds K m e HK Hv).
    rewrite round_signed_cond_Zopp by lia. rewrite round_nearest_exact by assumption. reflexivity.
Qed.

Lemma binary_normalize_val (D e K : Z) (sz : bool) :
  1074 <= K -> 0 <= e + K ->
  let R := binary_normalize prec emax D e sz in
  R <> S754_nan /\ SFvalue K R = round_signed K (D * 2 ^ (e + K)).
Proof.
  intros HK He R. subst R.
  assert (HW : 0 < 2 ^ (e + K)) by (apply pow2_pos; lia).
  destruct D as [|p|p]; cbn [binary_normalize].
  - split; [discriminate|reflexivity].
  - destruct (binary_round_val false p e K HK He) as [Hs Hv].
    split; [intro Hn; rewrite Hn in Hs; exact Hs|].
    rewrite Hv. cbn [cond_Zopp].
    destruct (Zpos p * 2 ^ (e + K)) eqn:HV; try lia. reflexivity.
  - destruct (binary_round_val true p e K HK He) as [Hs Hv].
    split; [intro Hn; rewrite Hn in Hs; exact Hs|].
    rewrite Hv. cbn [cond_Zopp].
    replace (Zneg p * 2 ^ (e + K)) with (- (Zpos p * 2 ^ (e + K))) by lia.
    rewrite round_signed_opp.
    destruct (Zpos p * 2 ^ (e + K)) eqn:HV; try lia. reflexivity.
Qed.

Lemma shl_align_val (m : positive) (e ez K : Z) :
  ez <= e -> 0 <= ez + K ->
  Zpos (fst (shl_align m e ez)) * 2 ^ (ez + K) = Zpos m * 2 ^ (e + K).
Proof.
  intros Hez HK. pose proof (shl_align_spec m e ez) as [_ H].
  rewrite H. rewrite Z.min_r by lia.
  rewrite <- Z.mul_assoc, <- Z.pow_add_r by lia. f_equal. f_equal. lia.
Qed.

Lemma SFadd_val (K : Z) (a x : spec_float) :
  1074 <= K -> valid_binary a = true -> valid_binary x = true ->
  SFfin a -> SFfin x ->
  SF64add a x <> S754_nan /\
  SFvalue K (SF64add a x) = round_signed K (SFvalue K a + SFvalue K x).
Proof.
  intros HK Ha Hx Hfa Hfx.
  destruct a as [sa|sa| |sa ma ea], x as [sx|sx| |sx mx ex];
    try contradiction; unfold SF64add; cbn [SFadd].
  - split; [destruct sa, sx; discriminate|].
    destruct sa, sx; reflexivity.
  - split; [discriminate|]. rewrite Z.add_0_l.
    symmetry. apply round_signed_exact; [assumption|assumption|exact I].
  - split; [discriminate|]. cbn [SFvalue]. rewrite Z.add_0_r.
    symmetry. apply (round_signed_exact K (S754_finite sa ma ea)); [assumption|assumption|exact I].
  - cbn [valid_binary] in *.
    pose proof (bounded_mantissa ma ea Ha) as (_ & Hea & _).
    pose proof (bounded_mantissa mx ex Hx) as (_ & Hex & _).
    set (ez := Z.min ea ex).
    destruct (binary_normalize_val
                (cond_Zopp sa (Zpos (fst (shl_align ma ea ez))) +
                 cond_Zopp sx (Zpos (fst (shl_align mx ex ez))))
                ez K false HK ltac:(lia)) as [Hn Hv].
    split; [exact Hn|]. rewrite Hv. f_equal. cbn [SFvalue].
    rewrite Z.mul_add_distr_r.
    pose proof (shl_align_val ma ea ez K ltac:(lia) ltac:(lia)) as H1.
    pose proof (shl_align_val mx ex ez K ltac:(lia) ltac:(lia)) as H2.
    destruct sa, sx; cbn [cond_Zopp]; lia.
Qed.

Lemma SFleb_neg_infinity (x : spec_float) :
  x <> S754_nan -> SFleb (S754_infinity true) x = true.
Proof. destruct x as [s|[|]| |s m e]; try reflexivity. contradiction. Qed.

Lemma SFleb_pos_infinity (x : spec_float) :
  x <> S754_nan -> SFleb x (S754_infinity false) = true.
Proof.
  destruct x as [s|[|]| |[|] m e]; try reflexivity. contradiction.
Qed.

Lemma SFadd_mono_fin2 (a a' x x' : spec_float) :
  valid_binary a = true -> valid_binary a' = true ->
  valid_binary x = true -> valid_binary x' = true ->
  SFfin a -> SFfin a' -> SFfin x -> SFfin x' ->
  valid_binary (SF64add a x) = true -> valid_binary (SF64add a' x') = true ->
  SFleb a a' = true -> SFleb x x' = true ->
  SFleb (SF64add a x) (SF64add a' x') = true.
Proof.
  intros Ha Ha' Hx Hx' Hfa Hfa' Hfx Hfx' HR HR' Hlea Hlex.
  assert (HK : 1074 <= 1074) by lia.
  destruct (SFadd_val 1074 a x HK Ha Hx Hfa Hfx) as [Hn Hv].
  destruct (SFadd_val 1074 a' x' HK Ha' Hx' Hfa' Hfx') as [Hn' Hv'].
  apply (SFleb_val 1074); try assumption.
  rewrite Hv, Hv'. apply round_signed_mono; [lia|].
  apply (SFleb_val 1074) in Hlea; try assumption; try lia;
    try (destruct a; try contradiction; discriminate);
    try (destruct a'; try contradiction; discriminate).
  apply (SFleb_val 1074) in Hlex; try assumption; try lia;
    try (destruct x; try contradiction; discriminate);
    try (destruct x'; try contradiction; discriminate).
Qed.

Lemma SFadd_mono (a a' x x' : spec_float) :
  valid_binary a = true -> valid_binary a' = true ->
  valid_binary x = true -> valid_binary x' = true ->
  valid_binary (SF64add a x) = true -> valid_binary (SF64add a' x') = true ->
  SF64add a x <> S754_nan -> SF64add a' x' <> S754_nan ->
  SFleb a a' = true -> SFleb x x' = true ->
  SFleb (SF64add a x) (SF64add a' x') = true.
Proof.
  intros Ha Ha' Hx Hx' HR HR' Hn Hn' Hlea Hlex.
  destruct a as [sa|sa| |sa ma ea], a' as [sa'|sa'| |sa' ma' ea'];
    try discriminate Hlea;
    destruct x as [sx|sx| |sx mx ex], x' as [sx'|sx'| |sx' mx' ex'];
    try discriminate Hlex;
    try (apply SFadd_mono_fin2; solve [assumption | exact I]);
    repeat match goal with s : bool |- _ => destruct s end;
    try discriminate Hlea; try discriminate Hlex;
    try (exfalso; apply Hn; reflexivity);
    try (exfalso; apply Hn'; reflexivity);
    try reflexivity;
    unfold SF64add in *; cbn [SFadd] in *;
    try reflexivity;
    try (apply SFleb_neg_infinity; assumption);
    try (apply SFleb_pos_infinity; assumption).
Qed.

Lemma SFsub_add_opp (x y : spec_float) :
  SF64sub x y = SF64add x (SFopp y).
Proof.
  unfold SF64sub, SF64add.
  destruct x as [sx|sx| |sx mx ex], y as [sy|sy| |sy my ey];
    cbn [SFsub SFadd SFopp]; try reflexivity;
    try (destruct sx, sy; reflexivity).
Qed.

Lemma SFopp_valid (x : spec_float) :
  valid_binary (SFopp x) = valid_binary x.
Proof. destruct x; reflexivity. Qed.

Lemma SFopp_val (K : Z) (x : spec_float) : SFvalue K (SFopp x) = - SFvalue K x.
Proof.
  destruct x as [s|s| |s m e]; cbn [SFopp SFvalue]; try reflexivity;
    destruct s; cbn [negb cond_Zopp]; lia.
Qed.

Lemma SFopp_anti (x x' : spec_float) :
  valid_binary x = true -> valid_binary x' = true ->
  SFleb x x' = true -> SFleb (SFopp x') (SFopp x) = true.
Proof.
  intros Hx Hx' Hle.
  assert (Hn : x <> S754_nan) by (intros ->; discriminate Hle).
  assert (Hn' : x' <> S754_nan)
    by (intros ->; destruct x as [?|?| |? ? ?]; discriminate Hle).
  apply (SFleb_val 1074); rewrite ?SFopp_valid; try assumption; try lia.
  - destruct x'; try contradiction; discriminate.
  - destruct x; try contradiction; discriminate.
  - rewrite !SFopp_val. apply (SFleb_val 1074) in Hle; try assumption; lia.
Qed.

Lemma SFcompare_refl (x : spec_float) :
  x <> S754_nan -> SFcompare x x = Some Eq.
Proof.
  destruct x as [s|s| |s m e]; cbn [SFcompare]; try contradiction;
    intros _; try (destruct s; reflexivity).
  rewrite Z.compare_refl, Pos.compare_cont_refl. destruct s; reflexivity.
Qed.

Lemma SFsub_anti (a x x' : spec_float) :
  valid_binary a = true -> valid_binary x = true -> valid_binary x' = true ->
  valid_binary (SF64sub a x) = true -> valid_binary (SF64sub a x') = true ->
  SF64sub a x <> S754_nan -> SF64sub a x' <> S754_nan ->
  SFleb x x' = true -> SFleb (SF64sub a x') (SF64sub a x) = true.
Proof.
  rewrite !SFsub_add_opp. intros Ha Hx Hx' HR HR' Hn Hn' Hle.
  apply SFadd_mono; rewrite ?SFopp_valid; try assumption.
  - unfold SFleb. rewrite SFcompare_refl; [reflexivity|].
    intros ->. apply Hn. reflexivity.
  - apply SFopp_anti; assumption.
Qed.

Lemma digits_mul_normal (mx mc : positive) :
  2 ^ 52 <= Zpos mc ->
  Zpos (digits2_pos mx) + 52 <= Zpos (digits2_pos (mx * mc)).
Proof.
  intro Hc. rewrite !digits2_pos_log2, Pos2Z.inj_mul.
  assert (Z.log2 (Zpos mx * 2 ^ 52) <= Z.log2 (Zpos mx * Zpos mc))
    by (apply Z.log2_le_mono; nia).
  rewrite Z.log2_mul_pow2 in H by lia. lia.
Qed.

Lemma SFmul_const_val (K : Z) (x : spec_float) (mc : positive) (ec : Z) :
  1074 <= K -> 1074 <= K + ec -> 2 ^ 52 <= Zpos mc ->
  valid_binary x = true -> SFfin x ->
  let R := SF64mul x (S754_finite false mc ec) in
  R <> S754_nan /\ SFvalue K R = round_signed K (Zpos mc * SFvalue (K + ec) x).
Proof.
  intros HK HKc Hmc Hx Hfx R. subst R. unfold SF64mul.
  destruct x as [sx|sx| |sx mx ex]; try contradiction; cbn [SFmul].
  - split; [discriminate|]. cbn [SFvalue]. rewrite Z.mul_0_r. reflexivity.
  - cbn [valid_binary] in Hx.
    pose proof (bounded_mantissa mx ex Hx) as (_ & Hex & _).
    rewrite xorb_false_r.
    pose proof (digits_mul_normal mx mc Hmc) as Hd.
    destruct (binary_round_aux_val sx (mx * mc) (ex + ec) K) as [Hs Hv];
      try lia.
    { rewrite fexp64_eq.
      pose proof (Pos2Z.is_pos (digits2_pos mx)). lia. }
    split; [intro Hn; rewrite Hn in Hs; exact Hs|].
    rewrite Hv. cbn [SFvalue].
    assert (HW : 0 < 2 ^ (ex + ec + K)) by (apply pow2_pos; lia).
    rewrite <- round_signed_cond_Zopp by (rewrite Pos2Z.inj_mul; nia).
    f_equal. replace (ex + (K + ec)) with (ex + ec + K) by lia.
    rewrite Pos2Z.inj_mul. destruct sx; cbn [cond_Zopp]; lia.
Qed.

Lemma binary_round_aux_mul_not_nan (s : bool) (m mc : positive) (e ec : Z) :
  bounded prec emax m e = true -> 2 ^ 52 <= Zpos mc -> -1074 <= ec ->
  binary_round_aux prec emax s (Zpos (m * mc)) (e + ec) loc_Exact <> S754_nan.
Proof.
  intros Hb Hmc Hec Hn.
  pose proof (bounded_mantissa m e Hb) as (_ & He & _).
  pose proof (digits_mul_normal m mc Hmc) as Hd.
  destruct (binary_round_aux_val s (m * mc) (e + ec) 2148) as [Hs _];
    try lia.
  { rewrite fexp64_eq.
    pose proof (Pos2Z.is_pos (digits2_pos m)). lia. }
  rewrite Hn in Hs. exact Hs.
Qed.

Lemma SFmul_const_mono (x x' : spec_float) (mc : positive) (ec : Z) :
  bounded prec emax mc ec = true -> 2 ^ 52 <= Zpos mc ->
  valid_binary x = true -> valid_binary x' = true ->
  let c := S754_finite false mc ec in
  valid_binary (SF64mul x c) = true -> valid_binary (SF64mul x' c) = true ->
  SFleb x x' = true -> SFleb (SF64mul x c) (SF64mul x' c) = true.
Proof.
  intros Hc Hmc Hx Hx' c HR HR' Hle. subst c.
  pose proof (bounded_mantissa mc ec Hc) as (_ & Hec & _).
  assert (HK : 1074 <= 2148) by lia.
  assert (HKc : 1074 <= 2148 + ec) by lia.
  assert (Hfin : forall y y', valid_binary y = true -> valid_binary y' = true ->
            SFfin y -> SFfin y' ->
            valid_binary (SF64mul y (S754_finite false mc ec)) = true ->
            valid_binary (SF64mul y' (S754_finite false mc ec)) = true ->
            SFleb y y' = true ->
            SFleb (SF64mul y (S754_finite false mc ec))
                  (SF64mul y' (S754_finite false mc ec)) = true).
  { intros y y' Hy Hy' Hfy Hfy' HRy HRy' Hyy.
    destruct (SFmul_const_val 2148 y mc ec HK HKc Hmc Hy Hfy) as [Hn Hv].
    destruct (SFmul_const_val 2148 y' mc ec HK HKc Hmc Hy' Hfy') as [Hn' Hv'].
    apply (SFleb_val 2148); try assumption.
    cbv zeta in Hv, Hv'. rewrite Hv, Hv'. apply round_signed_mono; [lia|].
    apply Z.mul_le_mono_nonneg_l; [lia|].
    apply (SFleb_val (2148 + ec)); try assumption.
    - destruct y; try contradiction; discriminate.
    - destruct y'; try contradiction; discriminate. }
  destruct x as [sx|sx| |sx mx ex], x' as [sx'|sx'| |sx' mx' ex'];
    try discriminate Hle;
    try (apply Hfin; solve [assumption | exact I]);
    repeat match goal with s : bool |- _ => destruct s end;
    try discriminate Hle; try reflexivity;
    unfold SF64mul in *; cbn [SFmul xorb] in *;
    try reflexivity;
    try (apply SFleb_neg_infinity);
    try (apply SFleb_pos_infinity);
    try discriminate.
  all: apply binary_round_aux_mul_not_nan;
    first [exact Hx | exact Hx' | assumption | lia].
Qed.

(** *** Finite results *)

Lemma max_value_lt_Omega (K : Z) : 1074 <= K -> 0 < max_value K < Omega K.
Proof.
  intro HK. unfold max_value, Omega.
  assert (0 < 2 ^ (971 + K)) by (apply pow2_pos; lia).
  replace (1024 + K) with (53 + (971 + K)) by lia.
  rewrite (Z.pow_add_r 2 53 (971 + K)) by lia.
  set (W := 2 ^ (971 + K)) in *.
  change (2 ^ 53) with 9007199254740992. lia.
Qed.

Lemma SFvalue_le_max (K : Z) (x : spec_float) :
  1074 <= K -> valid_binary x = true -> SFfin x ->
  - max_value K <= SFvalue K x <= max_value K.
Proof.
  intros HK Hv Hf. pose proof (max_value_lt_Omega K HK).
  destruct x as [s|s| |s m e]; try contradiction; cbn [SFvalue]; [lia|].
  cbn [valid_binary] in Hv.
  pose proof (bounded_mantissa m e Hv) as (Hm & He & _).
  assert (0 < 2 ^ (e + K)) by (apply pow2_pos; lia).
  assert (Zpos m * 2 ^ (e + K) <= max_value K).
  { unfold max_value. rewrite (pow2_split (e + K) (971 + K)) by lia.
    assert (1 <= 2 ^ (971 + K - (e + K)))
      by (pose proof (pow2_pos (971 + K - (e + K))); lia).
    nia. }
  destruct s; cbn [cond_Zopp]; lia.
Qed.

Lemma SFfin_of_value (K : Z) (x : spec_float) :
  1074 <= K -> x <> S754_nan -> - Omega K < SFvalue K x < Omega K -> SFfin x.
Proof.
  intros HK Hn Hv. destruct x as [s|s| |s m e]; try exact I; try contradiction.
  destruct s; cbn [SFvalue cond_Zopp] in Hv; lia.
Qed.

Lemma round_signed_within (K S B : Z) :
  1074 <= K -> - B <= S <= B ->
  - round_signed K B <= round_signed K S <= round_signed K B.
Proof.
  intros HK HS.
  pose proof (round_signed_mono K S B HK ltac:(lia)).
  pose proof (round_signed_mono K (- B) S HK ltac:(lia)) as H2.
  rewrite round_signed_opp in H2. lia.
Qed.

(** A finite number times a constant below 1 is finite. *)
Lemma SFmul_const_fin (x : spec_float) (mc : positive) (ec : Z) :
  bounded prec emax mc ec = true -> 2 ^ 52 <= Zpos mc -> ec <= -53 ->
  valid_binary x = true -> SFfin x ->
  SFfin (SF64mul x (S754_finite false mc ec)).
Proof.
  intros Hc Hmc Hec Hv Hf.
  pose proof (bounded_mantissa mc ec Hc) as (Hmc53 & Hecb & _).
  assert (HK : 1074 <= 2148) by lia.
  destruct (SFmul_const_val 2148 x mc ec HK ltac:(lia) Hmc Hv Hf) as [Hn Hval].
  cbv zeta in Hval.
  apply (SFfin_of_value 2148); [lia | exact Hn |].
  rewrite Hval.
  pose proof (max_value_lt_Omega 2148 HK) as HO.
  pose proof (SFvalue_le_max 2148 x HK Hv Hf) as Hmax.
  pose proof (round_signed_exact 2148 x HK Hv Hf) as Hex.
  assert (Habs : - Z.abs (SFvalue 2148 x) <= Zpos mc * SFvalue (2148 + ec) x
                 <= Z.abs (SFvalue 2148 x)).
  { destruct x as [s|s| |s m e]; try contradiction; cbn [SFvalue]; [lia|].
    cbn [valid_binary] in Hv.
    pose proof (bounded_mantissa m e Hv) as (_ & He & _).
    assert (HW : 0 < 2 ^ (e + (2148 + ec))) by (apply pow2_pos; lia).
    assert (Hsplit : 2 ^ (e + 2148) = 2 ^ (- ec) * 2 ^ (e + (2148 + ec))).
    { rewrite <- Z.pow_add_r by lia. f_equal. lia. }
    assert (2 ^ 53 <= 2 ^ (- ec)) by (apply Z.pow_le_mono_r; lia).
    rewrite Hsplit.
    set (W := 2 ^ (e + (2148 + ec))) in *.
    set (c := 2 ^ (- ec)) in *.
    destruct s; cbn [cond_Zopp]; nia. }
  pose proof (round_signed_within 2148 _ _ HK Habs) as Hw.
  assert (Hrabs : round_signed 2148 (Z.abs (SFvalue 2148 x)) =
                  Z.abs (SFvalue 2148 x)).
  { destruct (Z.abs_spec (SFvalue 2148 x)) as [[_ ->]|[_ ->]];
      [exact Hex|].
    rewrite round_signed_opp, Hex. reflexivity. }
  rewrite Hrabs in Hw. lia.
Qed.

(** A finite number plus a finite number of magnitude at most [2^10] is
    finite: [max_value + 2^10] still rounds to [max_value]. *)
Lemma SFadd_small_fin (a x : spec_float) :
  valid_binary a = true -> valid_binary x = true -> SFfin a -> SFfin x ->
  - 2 ^ (10 + 1074) <= SFvalue 1074 a <= 2 ^ (10 + 1074) \/
  - 2 ^ (10 + 1074) <= SFvalue 1074 x <= 2 ^ (10 + 1074) ->
  SFfin (SF64add a x).
Proof.
  intros Ha Hx Hfa Hfx Hsmall.
  assert (HK : 1074 <= 1074) by lia.
  destruct (SFadd_val 1074 a x HK Ha Hx Hfa Hfx) as [Hn Hval].
  apply (SFfin_of_value 1074); [lia | exact Hn |].
  rewrite Hval.
  pose proof (max_value_lt_Omega 1074 HK) as HO.
  pose proof (SFvalue_le_max 1074 x HK Hx Hfx) as Hmax.
  pose proof (SFvalue_le_max 1074 a HK Ha Hfa) as Hmax'.
  set (B := max_value 1074 + 2 ^ (10 + 1074)).
  assert (HB : round_signed 1074 B = max_value 1074)
    by (vm_compute; reflexivity).
  pose proof (round_signed_within 1074 (SFvalue 1074 a + SFvalue 1074 x) B HK
                ltac:(unfold B; lia)) as Hw.
  rewrite HB in Hw. lia.
Qed.

Lemma SFadd_fin_not_nan (a t : spec_float) :
  valid_binary a = true -> valid_binary t = true ->
  a <> S754_nan -> SFfin t -> SF64add a t <> S754_nan.
Proof.
  intros Ha Ht Hn Hf.
  destruct a as [sa|sa| |sa ma ea]; try contradiction.
  - apply (SFadd_val 1074); try assumption; try lia. exact I.
  - destruct t as [st|st| |st mt et]; try contradiction; discriminate.
  - apply (SFadd_val 1074); try assumption; try lia. exact I.
Qed.

(** *** The sign of a zero *)

Lemma round_nearest_exact_int (K r : Z) :
  1074 <= K -> 0 < r < 2 ^ 53 -> round_nearest K (r * 2 ^ K) = r * 2 ^ K.
Proof.
  intros HK Hr. unfold round_nearest.
  assert (H2K : 0 < 2 ^ K) by (apply pow2_pos; lia).
  rewrite Z.log2_mul_pow2 by lia. rewrite fexp64_eq.
  assert (Hl : Z.log2 r < 53) by (apply Z.log2_lt_pow2; lia).
  pose proof (Z.log2_nonneg r) as Hl0.
  set (E := Z.max (K + Z.log2 r + 1 - K - 53) (-1074)).
  assert (HE : -1074 <= E <= 0) by lia.
  assert (HW : 0 < 2 ^ (E + K)) by (apply pow2_pos; lia).
  rewrite (pow2_split (E + K) K) by lia.
  rewrite Z.mul_assoc. rewrite rne_exact by assumption.
  unfold Omega. rewrite (pow2_split (E + K) (1024 + K)) by lia.
  assert (0 < 2 ^ (K - (E + K))) by (apply pow2_pos; lia).
  assert (2 ^ (K - (E + K)) * 2 ^ 53 <= 2 ^ (1024 + K - (E + K))).
  { rewrite <- Z.pow_add_r by lia. apply Z.pow_le_mono_r; lia. }
  rewrite Z.min_l; [reflexivity|].
  apply Z.mul_le_mono_nonneg_r; [lia|]. nia.
Qed.

Lemma round_nearest_pos (K V : Z) : 1074 <= K -> 2 ^ (K - 1074) <= V -> 0 < round_nearest K V.
Proof.
  intros HK HV.
  assert (H0 : 0 < 2 ^ (K - 1074)) by (apply pow2_pos; lia).
  pose proof (round_nearest_mono K (2 ^ (K - 1074)) V HK H0 HV) as Hm.
  pose proof (round_nearest_exact K 1 (-1074) HK eq_refl) as He.
  replace (-1074 + K) with (K - 1074) in He by lia.
  rewrite Z.mul_1_l in He. lia.
Qed.

Lemma round_signed_neg (K S : Z) : 1074 <= K -> round_signed K S < 0 -> S < 0.
Proof.
  intros HK HG. destruct (Z.lt_ge_cases S 0) as [|Hge]; [assumption|].
  pose proof (round_signed_mono K 0 S HK Hge) as H. cbn [round_signed] in H. lia.
Qed.

Lemma SFadd_finite_not_neg_zero (s : bool) (m : positive) (e : Z)
  (y : spec_float) :
  bounded prec emax m e = true -> valid_binary y = true ->
  SF64add (S754_finite s m e) y <> S754_zero true.
Proof.
  intros Hb Hy. unfold SF64add.
  destruct y as [sy|sy| |sy my ey]; cbn [SFadd]; try discriminate.
  cbn [valid_binary] in Hy.
  pose proof (bounded_mantissa m e Hb) as (_ & He & _).
  pose proof (bounded_mantissa my ey Hy) as (_ & Hey & _).
  set (ez := Z.min e ey).
  destruct (cond_Zopp s (Zpos (fst (shl_align m e ez))) +
            cond_Zopp sy (Zpos (fst (shl_align my ey ez)))) as [|p|p];
    cbn [binary_normalize]; try discriminate.
  - destruct (binary_round_val false p ez 1074) as [Hs _]; try lia.
    intro H. rewrite H in Hs. discriminate Hs.
  - destruct (binary_round_val true p ez 1074) as [_ Hv]; try lia.
    intro H. rewrite H in Hv. cbn [SFvalue cond_Zopp] in Hv.
    assert (0 < 2 ^ (ez + 1074)) by (apply pow2_pos; lia).
    assert (2 ^ (1074 - 1074) <= Zpos p * 2 ^ (ez + 1074)).
    { change (2 ^ (1074 - 1074)) with 1. nia. }
    pose proof (round_nearest_pos 1074 _ ltac:(lia) H1). lia.
Qed.

Lemma hundred_minus_magnitude (y : spec_float) (m : positive) (e : Z) :
  valid_binary y = true -> bounded prec emax m e = true ->
  SF64add SF100 y = S754_finite true m e ->
  2 ^ (1200 - 46) <= Zpos m * 2 ^ (e + 1200).
Proof.
  intros Hy Hb HR.
  assert (HK : 1074 <= 1200) by lia.
  destruct y as [sy|sy| |sy my ey]; try discriminate HR.
  cbn [valid_binary] in Hy.
  destruct (SFadd_val 1200 SF100 (S754_finite sy my ey) HK eq_refl Hy I I)
    as [_ Hv].
  rewrite HR in Hv. unfold SF100 in Hv. cbn [SFvalue cond_Zopp] in Hv.
  pose proof (bounded_mantissa my ey Hy) as (Hmy & Hey & _).
  pose proof (finite_val_bounds 1200 m e HK Hb) as [Hpos _].
  set (A := 7036874417766400 * 2 ^ (-46 + 1200)) in *.
  set (S := A + cond_Zopp sy (Zpos my * 2 ^ (ey + 1200))) in *.
  assert (HS : S < 0) by (apply (round_signed_neg 1200); lia).
  assert (HA : A = 7036874417766400 * 2 ^ 1154) by reflexivity.
  destruct sy; cbn [cond_Zopp] in S; [|subst S; nia].
  assert (Hey46 : -46 <= ey).
  { destruct (Z.le_gt_cases (-46) ey) as [|Hlt]; [assumption|exfalso].
    assert (2 ^ (ey + 1200) <= 2 ^ 1153) by (apply Z.pow_le_mono_r; lia).
    assert (0 < 2 ^ (ey + 1200)) by (apply pow2_pos; lia).
    assert (Zpos my * 2 ^ (ey + 1200) < 2 ^ 53 * 2 ^ 1153) by nia.
    assert (2 ^ 53 * 2 ^ 1153 <= A) by (rewrite HA; vm_compute; discriminate).
    subst S. lia. }
  assert (HSmul : - S = (Zpos my * 2 ^ (ey + 46) - 7036874417766400)
                        * 2 ^ 1154).
  { subst S. rewrite HA.
    replace (ey + 1200) with (ey + 46 + 1154) by lia.
    rewrite Z.pow_add_r by lia. lia. }
  assert (H1154 : 0 < 2 ^ 1154) by (apply pow2_pos; lia).
  assert (HSge : 2 ^ 1154 <= - S) by nia.
  assert (HG : round_signed 1200 S = - round_nearest 1200 (- S)).
  { destruct S; try lia. reflexivity. }
  rewrite HG in Hv.
  pose proof (round_nearest_mono 1200 (2 ^ 1154) (- S) HK H1154 HSge) as Hmono.
  pose proof (round_nearest_exact 1200 (Z.to_pos (2 ^ 52)) (-98) HK eq_refl) as Hex.
  change (Zpos (Z.to_pos (2 ^ 52)) * 2 ^ (-98 + 1200)) with (2 ^ 1154) in Hex.
  change (2 ^ (1200 - 46)) with (2 ^ 1154). lia.
Qed.

Lemma hundred_minus_times_tenth (P : spec_float) :
  valid_binary P = true -> valid_binary (SF64sub SF100 P) = true ->
  SF64mul (SF64sub SF100 P) SF01 <> S754_zero true.
Proof.
  rewrite SFsub_add_opp. intros HP HR.
  assert (HY : valid_binary (SFopp P) = true) by (rewrite SFopp_valid; exact HP).
  pose proof (SFadd_finite_not_neg_zero false 7036874417766400 (-46)
                (SFopp P) eq_refl HY) as Hnz.
  fold SF100 in Hnz.
  destruct (SF64add SF100 (SFopp P)) as [s|s| |s m e] eqn:HR1.
  - destruct s; [contradiction|]. discriminate.
  - discriminate.
  - discriminate.
  - cbn [valid_binary] in HR.
    assert (HK : 1074 <= 1200) by lia.
    destruct (SFmul_const_val 1200 (S754_finite s m e) 7205759403792794 (-56)
                HK ltac:(lia) ltac:(vm_compute; discriminate) HR I)
      as [_ Hv].
    fold SF01 in Hv. cbv zeta in Hv.
    intro Hz. rewrite Hz in Hv. cbn [SFvalue] in Hv.
    destruct s.
    + pose proof (hundred_minus_magnitude (SFopp P) m e HY HR HR1) as Hmag.
      pose proof (bounded_mantissa m e HR) as (_ & He & _).
      replace (e + (1200 + -56)) with (e + 1144) in Hv by lia.
      cbn [cond_Zopp] in Hv.
      assert (H56 : 2 ^ (e + 1200) = 2 ^ (e + 1144) * 2 ^ 56).
      { rewrite <- Z.pow_add_r by lia. f_equal. lia. }
      assert (HX : 2 ^ (1200 - 46 - 56) <= Zpos m * 2 ^ (e + 1144)).
      { rewrite H56 in Hmag.
        replace (2 ^ (1200 - 46)) with (2 ^ (1200 - 46 - 56) * 2 ^ 56) in Hmag
          by (rewrite <- Z.pow_add_r by lia; reflexivity).
        assert (0 < 2 ^ 56) by (apply pow2_pos; lia). nia. }
      assert (0 < 2 ^ (1200 - 46 - 56)) by (apply pow2_pos; lia).
      assert (2 ^ (1200 - 1074) <= 2 ^ (1200 - 46 - 56))
        by (apply Z.pow_le_mono_r; lia).
      set (V := Zpos m * 2 ^ (e + 1144)) in *.
      assert (HV : 2 ^ (1200 - 1074) <= 7205759403792794 * V) by nia.
      pose proof (round_nearest_pos 1200 _ HK HV) as Hpos.
      replace (7205759403792794 * - V) with (- (7205759403792794 * V)) in Hv
        by lia.
      rewrite round_signed_opp in Hv.
      destruct (7205759403792794 * V) eqn:HVV; try lia.
      cbn [round_signed] in Hv. lia.
    + pose proof (binary_round_aux_mul_not_nan false m 7205759403792794 e (-56)
                    HR ltac:(vm_compute; discriminate) ltac:(lia)) as Hnn.
      unfold SF64mul, SF01 in Hz. cbn [SFmul xorb] in Hz.
      pose proof (bounded_mantissa m e HR) as (_ & He & _).
      pose proof (digits_mul_normal m 7205759403792794
                    ltac:(vm_compute; discriminate)) as Hd.
      destruct (binary_round_aux_val false (m * 7205759403792794) (e + -56)
                  1200) as [Hs _]; try lia.
      { rewrite fexp64_eq.
        pose proof (Pos2Z.is_pos (digits2_pos m)). lia. }
      rewrite Hz in Hs. discriminate Hs.
Qed.

Lemma SFadd_zero_prefix (A B C : spec_float) :
  C <> S754_zero true ->
  SF64add (SF64add (SF64add (S754_zero false) A) B) C =
  SF64add (SF64add A B) C.
Proof.
  intro HC. unfold SF64add.
  destruct A as [sa|sa| |sa ma ea]; cbn [SFadd]; try reflexivity.
  destruct sa; cbn [SFadd]; try reflexivity.
  destruct B as [sb|sb| |sb mb eb]; cbn [SFadd]; try reflexivity.
  destruct sb; cbn [SFadd]; try reflexivity.
  destruct C as [sc|sc| |sc mc ec]; cbn [SFadd]; try reflexivity.
  destruct sc; [contradiction|reflexivity].
Qed.

(** *** [Math.round] on values *)

Lemma nearest_tie_up_scaled (K : Z) (s : bool) (m : positive) (e : Z) :
  e < 0 -> 0 <= e + K ->
  JS.nearest_tie_up s m e =
  (cond_Zopp s (Zpos m) * 2 ^ (e + K) + 2 ^ (K - 1)) / 2 ^ K.
Proof.
  intros He HK. unfold JS.nearest_tie_up.
  rewrite Z.shiftr_div_pow2 by lia.
  assert (Hc : 0 < 2 ^ (e + K)) by (apply pow2_pos; lia).
  rewrite <- (Z.div_mul_cancel_r _ (2 ^ (- e)) (2 ^ (e + K)))
    by (try apply Z.pow_nonzero; lia).
  rewrite <- Z.pow_add_r by lia.
  replace (- e + (e + K)) with K by lia.
  rewrite Z.mul_add_distr_r, <- Z.pow_add_r by lia.
  replace (- e - 1 + (e + K)) with (K - 1) by lia.
  reflexivity.
Qed.

Lemma nearest_tie_up_small (s : bool) (m : positive) (e : Z) :
  e < 0 -> Zpos m < 2 ^ 53 ->
  - 2 ^ 53 < JS.nearest_tie_up s m e < 2 ^ 53.
Proof.
  intros He Hm. unfold JS.nearest_tie_up.
  rewrite Z.shiftr_div_pow2 by lia.
  assert (Hp : 2 ^ (- e) = 2 * 2 ^ (- e - 1)).
  { rewrite <- Z.pow_succ_r by lia. f_equal. lia. }
  rewrite Hp.
  assert (Hh : 0 < 2 ^ (- e - 1)) by (apply pow2_pos; lia).
  set (h := 2 ^ (- e - 1)) in *.
  assert (HM : - 2 ^ 53 < cond_Zopp s (Zpos m) < 2 ^ 53)
    by (destruct s; cbn [cond_Zopp]; lia).
  set (M := cond_Zopp s (Zpos m)) in *.
  split.
  - apply Z.lt_le_trans with (- 2 ^ 53 + 1); [lia|].
    apply Z.div_le_lower_bound; [lia|]. nia.
  - apply Z.div_lt_upper_bound; [lia|]. nia.
Qed.

Lemma round_half_up_mono (K V V' : Z) :
  1 <= K -> V <= V' -> round_half_up K V <= round_half_up K V'.
Proof.
  intros HK HV. unfold round_half_up.
  assert (H2K : 0 < 2 ^ K) by (apply pow2_pos; lia).
  apply Z.mul_le_mono_nonneg_r; [lia|].
  apply Z.div_le_mono; lia.
Qed.

Lemma round_half_up_multiple (K k : Z) :
  1 <= K -> round_half_up K (k * 2 ^ K) = k * 2 ^ K.
Proof.
  intro HK. unfold round_half_up.
  assert (H2K : 0 < 2 ^ K) by (apply pow2_pos; lia).
  assert (Hh : 0 < 2 ^ (K - 1)) by (apply pow2_pos; lia).
  assert (H2 : 2 ^ K = 2 * 2 ^ (K - 1)).
  { rewrite <- Z.pow_succ_r by lia. f_equal. lia. }
  rewrite Z.add_comm, Z.div_add by lia.
  rewrite Z.div_small by lia. lia.
Qed.

#[local] Open Scope float_scope.

(** *** The primitive operations *)

Lemma is_nan_spec (x : float) :
  is_nan x = false <-> Prim2SF x <> S754_nan.
Proof.
  unfold is_nan. rewrite eqb_spec. unfold SFeqb.
  destruct (Prim2SF x) as [s|s| |s m e] eqn:E.
  - split; [discriminate|]. intros _. rewrite SFcompare_refl by discriminate. reflexivity.
  - split; [discriminate|]. intros _. rewrite SFcompare_refl by discriminate. reflexivity.
  - split; [discriminate|]. intro H. contradiction.
  - split; [discriminate|]. intros _. rewrite SFcompare_refl by discriminate. reflexivity.
Qed.

Lemma leb_not_nan (x y : float) :
  (x <=? y) = true -> Prim2SF x <> S754_nan /\ Prim2SF y <> S754_nan.
Proof.
  rewrite leb_spec. unfold SFleb.
  destruct (Prim2SF x) as [?|?| |? ? ?], (Prim2SF y) as [?|?| |? ? ?];
    cbn [SFcompare]; intro H; try discriminate H; split; discriminate.
Qed.

Lemma leb_refl (x : float) : is_nan x = false -> (x <=? x) = true.
Proof.
  intro H. apply is_nan_spec in H. rewrite leb_spec. unfold SFleb.
  rewrite SFcompare_refl by assumption. reflexivity.
Qed.

Lemma add_not_nan (a b : float) :
  is_nan (a + b) = false -> is_nan a = false /\ is_nan b = false.
Proof.
  rewrite !is_nan_spec, add_spec. unfold SF64add.
  destruct (Prim2SF a) as [?|?| |? ? ?], (Prim2SF b) as [?|?| |? ? ?];
    cbn [SFadd]; intro H; split; try discriminate; try exact H;
    exfalso; apply H; reflexivity.
Qed.

Lemma sub_not_nan (a b : float) :
  is_nan (a - b) = false -> is_nan a = false /\ is_nan b = false.
Proof.
  rewrite !is_nan_spec, sub_spec. unfold SF64sub.
  destruct (Prim2SF a) as [?|?| |? ? ?], (Prim2SF b) as [?|?| |? ? ?];
    cbn [SFsub]; intro H; split; try discriminate; try exact H;
    exfalso; apply H; reflexivity.
Qed.

Lemma mul_not_nan (a b : float) :
  is_nan (a * b) = false -> is_nan a = false /\ is_nan b = false.
Proof.
  rewrite !is_nan_spec, mul_spec. unfold SF64mul.
  destruct (Prim2SF a) as [?|?| |? ? ?], (Prim2SF b) as [?|?| |? ? ?];
    cbn [SFmul]; intro H; split; try discriminate; try exact H;
    exfalso; apply H; reflexivity.
Qed.

Lemma add_le_mono (a a' x x' : float) :
  (a <=? a') = true -> (x <=? x') = true ->
  is_nan (a + x) = false -> is_nan (a' + x') = false ->
  (a + x <=? a' + x') = true.
Proof.
  rewrite !is_nan_spec, !leb_spec. intros Hlea Hlex Hn Hn'.
  pose proof (Prim2SF_valid (a + x)) as HR.
  pose proof (Prim2SF_valid (a' + x')) as HR'.
  repeat rewrite add_spec in *.
  apply SFadd_mono; try assumption; apply Prim2SF_valid.
Qed.

Lemma sub_le_anti (a x x' : float) :
  (x <=? x') = true ->
  is_nan (a - x) = false -> is_nan (a - x') = false ->
  (a - x' <=? a - x) = true.
Proof.
  rewrite !is_nan_spec, !leb_spec. intros Hle Hn Hn'.
  pose proof (Prim2SF_valid (a - x)) as HR.
  pose proof (Prim2SF_valid (a - x')) as HR'.
  repeat rewrite sub_spec in *.
  apply SFsub_anti; try assumption; apply Prim2SF_valid.
Qed.

Lemma mul_le_mono_const (x x' c : float) (mc : positive) (ec : Z) :
  Prim2SF c = S754_finite false mc ec -> (2 ^ 52 <= Zpos mc)%Z ->
  (x <=? x') = true -> (x * c <=? x' * c) = true.
Proof.
  intros Hc Hmc. rewrite !leb_spec. intro Hle.
  pose proof (Prim2SF_valid (x * c)) as HR.
  pose proof (Prim2SF_valid (x' * c)) as HR'.
  pose proof (Prim2SF_valid c) as Hvc.
  repeat rewrite mul_spec in *. rewrite Hc in *.
  apply SFmul_const_mono; try assumption; apply Prim2SF_valid.
Qed.

#[local] Open Scope Z_scope.

Lemma of_uint63_val (K r : Z) :
  1074 <= K -> 0 < r < 2 ^ 53 ->
  Prim2SF (of_uint63 (Uint63.of_Z r)) <> S754_nan /\
  SFvalue K (Prim2SF (of_uint63 (Uint63.of_Z r))) = r * 2 ^ K.
Proof.
  intros HK Hr. rewrite of_uint63_spec.
  assert (Hto : Uint63.to_Z (Uint63.of_Z r) = r).
  { rewrite Uint63.of_Z_spec. apply Z.mod_small.
    split; [lia|]. apply Z.lt_trans with (2 ^ 53); [lia | reflexivity]. }
  change (Uint63Axioms.to_Z (of_Z r)) with (Uint63.to_Z (Uint63.of_Z r)).
  rewrite Hto.
  destruct (binary_normalize_val r 0 K false HK ltac:(lia)) as [Hn Hv].
  split; [exact Hn|]. rewrite Hv. rewrite Z.add_0_l.
  assert (H2K : 0 < 2 ^ K) by (apply pow2_pos; lia).
  destruct (r * 2 ^ K) eqn:HV; try nia. cbn [round_signed]. rewrite <- HV.
  apply round_nearest_exact_int; assumption.
Qed.

Lemma of_integer_val (K : Z) (s : bool) (r : Z) :
  1074 <= K -> - 2 ^ 53 < r < 2 ^ 53 ->
  Prim2SF (JS.of_integer s r) <> S754_nan /\
  SFvalue K (Prim2SF (JS.of_integer s r)) = r * 2 ^ K.
Proof.
  intros HK Hr. destruct r as [|p|p]; cbn [JS.of_integer].
  - destruct s; split; try discriminate; reflexivity.
  - apply of_uint63_val; [assumption|lia].
  - rewrite opp_spec.
    destruct (of_uint63_val K (Zpos p) HK ltac:(lia)) as [Hn Hv].
    split.
    + destruct (Prim2SF _); try discriminate. contradiction.
    + rewrite SFopp_val, Hv. lia.
Qed.

Lemma Math_round_val (K : Z) (x : float) :
  1074 <= K -> Prim2SF x <> S754_nan ->
  Prim2SF (JS.Math_round x) <> S754_nan /\
  SFvalue K (Prim2SF (JS.Math_round x)) = round_half_up K (SFvalue K (Prim2SF x)).
Proof.
  intros HK Hn. unfold JS.Math_round.
  pose proof (Prim2SF_valid x) as Hv.
  destruct (Prim2SF x) as [s|s| |s m e] eqn:Hx; try contradiction.
  - rewrite Hx. split; [discriminate|]. cbn [SFvalue].
    pose proof (round_half_up_multiple K 0 ltac:(lia)) as H0.
    rewrite Z.mul_0_l in H0. rewrite H0. reflexivity.
  - rewrite Hx. split; [discriminate|]. cbn [SFvalue]. unfold Omega.
    replace (cond_Zopp s (2 ^ (1024 + K)))
      with (cond_Zopp s (2 ^ 1024) * 2 ^ K)
      by (rewrite Z.pow_add_r by lia; destruct s; cbn [cond_Zopp]; lia).
    rewrite round_half_up_multiple by lia. reflexivity.
  - cbn [valid_binary] in Hv.
    pose proof (bounded_mantissa m e Hv) as (Hm & He & _).
    destruct (Z.leb_spec 0 e) as [He0|He0].
    + rewrite Hx. split; [discriminate|]. cbn [SFvalue].
      replace (cond_Zopp s (Zpos m * 2 ^ (e + K)))
        with (cond_Zopp s (Zpos m * 2 ^ e) * 2 ^ K)
        by (rewrite Z.pow_add_r by lia; destruct s; cbn [cond_Zopp]; lia).
      rewrite round_half_up_multiple by lia. reflexivity.
    + pose proof (nearest_tie_up_small s m e He0 Hm) as Hr.
      destruct (of_integer_val K s (JS.nearest_tie_up s m e) HK Hr)
        as [Hn' Hv'].
      split; [exact Hn'|]. rewrite Hv'. cbn [SFvalue]. unfold round_half_up.
      rewrite (nearest_tie_up_scaled K) by lia.
      do 2 f_equal. destruct s; cbn [cond_Zopp]; lia.
Qed.

Lemma Math_round_mono (x x' : float) :
  (x <=? x')%float = true ->
  (JS.Math_round x <=? JS.Math_round x')%float = true.
Proof.
  intro Hle. destruct (leb_not_nan x x' Hle) as [Hn Hn'].
  rewrite leb_spec in *.
  destruct (Math_round_val 1074 x ltac:(lia) Hn) as [Hrn Hrv].
  destruct (Math_round_val 1074 x' ltac:(lia) Hn') as [Hrn' Hrv'].
  apply (SFleb_val 1074); try assumption; try apply Prim2SF_valid; try lia.
  rewrite Hrv, Hrv'. apply round_half_up_mono; [lia|].
  apply (SFleb_val 1074); try assumption; try apply Prim2SF_valid; lia.
Qed.

#[local] Open Scope float_scope.

Lemma normalized_pause_term_not_neg_zero (pf : float) :
  Prim2SF ((100 - pf) * 0.1) <> S754_zero true.
Proof.
  rewrite mul_spec, sub_spec.
  change (Prim2SF 100) with SF100. change (Prim2SF 0.1) with SF01.
  apply hundred_minus_times_tenth.
  - apply Prim2SF_valid.
  - change SF100 with (Prim2SF 100). rewrite <- sub_spec. apply Prim2SF_valid.
Qed.

Lemma add_zero_prefix (a b c : float) :
  Prim2SF c <> S754_zero true -> 0 + a + b + c = a + b + c.
Proof.
  intro Hc. apply Prim2SF_inj. rewrite !add_spec.
  apply SFadd_zero_prefix. exact Hc.
Qed.

End Binary64Facts.

(** ** Rounding *)

(** [nearest_tie_up s m e] is the integer [r] with
    [r - 1/2 <= v < r + 1/2] for [v = (-1)^s * m * 2^e]: no integer is
    nearer to [v], and [r] is the upper one when two are as near. *)
Lemma nearest_tie_up_spec (s : bool) (m : positive) (e : Z) :
  (e < 0)%Z ->
  let r := JS.nearest_tie_up s m e in
  ((2 * r - 1) * 2 ^ (- e) <= 2 * cond_Zopp s (Zpos m)
   < (2 * r + 1) * 2 ^ (- e))%Z.
Proof.
  intros He r. subst r. unfold JS.nearest_tie_up.
  rewrite Z.shiftr_div_pow2 by lia.
  assert (Hp : (2 ^ (- e) = 2 * 2 ^ (- e - 1))%Z).
  { rewrite <- Z.pow_succ_r by lia. f_equal. lia. }
  rewrite Hp.
  generalize (cond_Zopp s (Zpos m)) as M.
  assert (Hh : (0 < 2 ^ (- e - 1))%Z) by (apply Z.pow_pos_nonneg; lia).
  generalize dependent (2 ^ (- e - 1))%Z. intros h _ Hh M.
  pose proof (Z.div_mod (M + h) (2 * h) ltac:(lia)) as Hdm.
  pose proof (Z.mod_pos_bound (M + h) (2 * h) ltac:(lia)) as Hb.
  generalize dependent ((M + h) / (2 * h))%Z. intros q Hdm.
  generalize dependent ((M + h) mod (2 * h))%Z. intros r Hdm Hb.
  nia.
Qed.

(** [reduce] visits the seven entries in insertion order and finds a
    weight under each key: the fold is the sum written out. *)
Lemma weighted_sum_unfolded (inputs : ConfidenceInputs) :
  CompleteCode.weighted_sum inputs =
  weighted_sum_of (CompleteCode.normalized inputs).
Proof. reflexivity. Qed.

(** ** C1: the level *)

(** C1, as stated, fails: on [boundary_inputs] the unrounded sum is 79.7,
    the returned score is 80 and both implementations return "Confident",
    not the "Very Confident" that the thresholds give the rounded score. *)
Lemma level_is_not_label_of_rounded_score :
  let r := CompleteCode.calculateConfidenceScore boundary_inputs in
  let r' := FeaturesImpl.calculateConfidenceScore boundary_inputs in
  score r = 80 /\ level r = "Confident"%string /\
  label_of_thresholds (score r) = "Very Confident"%string /\
  level r <> label_of_thresholds (score r) /\
  score r' = 80 /\ level r' = "Confident"%string /\
  level r' <> label_of_thresholds (score r').
Proof. vm_compute. repeat split; discriminate. Qed.

(** On an unrounded sum of exactly 49 the conditional chain of
    AI-COMPLETE-CODE.tsx, which has no "Less Confident" arm, answers
    "Needs Improvement"; [getConfidenceLevel] answers "Less Confident". *)
Lemma complete_code_has_no_less_confident :
  CompleteCode.weighted_sum forty_nine_inputs = 49 /\
  level (CompleteCode.calculateConfidenceScore forty_nine_inputs)
  = "Needs Improvement"%string /\
  level (FeaturesImpl.calculateConfidenceScore forty_nine_inputs)
  = "Less Confident"%string.
Proof. vm_compute. repeat split. Qed.

(** C1, amended: the level is the label of the unrounded weighted sum.
    In both implementations a sum that is [>= 80] gives "Very Confident",
    one that is [>= 65] but not [>= 80] gives "Confident", one that is
    [>= 50] but not [>= 65] gives "Moderately Confident", and one that is
    not [>= 35] (below 35, or NaN) gives "Needs Improvement";
    [getConfidenceLevel] gives "Less Confident" to a sum that is [>= 35]
    but not [>= 50]. *)
Theorem level_is_label_of_unrounded_sum (inputs : ConfidenceInputs) :
  let s := CompleteCode.weighted_sum inputs in
  let l := level (CompleteCode.calculateConfidenceScore inputs) in
  let s' := FeaturesImpl.weighted_sum inputs in
  let l' := level (FeaturesImpl.calculateConfidenceScore inputs) in
  (JS.ge s 80 = true -> l = "Very Confident"%string) /\
  (JS.ge s 80 = false -> JS.ge s 65 = true -> l = "Confident"%string) /\
  (JS.ge s 65 = false -> JS.ge s 50 = true ->
   l = "Moderately Confident"%string) /\
  (JS.ge s 35 = false -> l = "Needs Improvement"%string) /\
  (JS.ge s' 80 = true -> l' = "Very Confident"%string) /\
  (JS.ge s' 80 = false -> JS.ge s' 65 = true -> l' = "Confident"%string) /\
  (JS.ge s' 65 = false -> JS.ge s' 50 = true ->
   l' = "Moderately Confident"%string) /\
  (JS.ge s' 50 = false -> JS.ge s' 35 = true ->
   l' = "Less Confident"%string) /\
  (JS.ge s' 35 = false -> l' = "Needs Improvement"%string).
Proof.
  cbv zeta.
  unfold CompleteCode.calculateConfidenceScore,
         FeaturesImpl.calculateConfidenceScore; cbn [level].
  unfold CompleteCode.level_of, FeaturesImpl.getConfidenceLevel.
  generalize (CompleteCode.weighted_sum inputs) as s.
  generalize (FeaturesImpl.weighted_sum inputs) as s'.
  intros s' s.
  repeat split; intros;
    repeat match goal with
           | H : JS.ge ?x ?lo = false |- _ =>
               try rewrite (FloatOrder.not_ge_above x lo 80 eq_refl H);
               try rewrite (FloatOrder.not_ge_above x lo 65 eq_refl H);
               try rewrite (FloatOrder.not_ge_above x lo 50 eq_refl H);
               try rewrite H; clear H
           | H : JS.ge _ _ = true |- _ => rewrite H; clear H
           end; reflexivity.
Qed.

(** ** C2: the range of the score *)

(** C2 at its failing inputs: both ends of the documented ranges are
    valid inputs, and the scores there are -5 and 105, outside 0-100, in
    both implementations. *)
Theorem score_leaves_0_100 :
  in_documented_ranges lowest_inputs = true /\
  score (CompleteCode.calculateConfidenceScore lowest_inputs) = -5 /\
  score (FeaturesImpl.calculateConfidenceScore lowest_inputs) = -5 /\
  integer_in_0_100 (-5) = false /\
  in_documented_ranges highest_inputs = true /\
  score (CompleteCode.calculateConfidenceScore highest_inputs) = 105 /\
  score (FeaturesImpl.calculateConfidenceScore highest_inputs) = 105 /\
  integer_in_0_100 105 = false.
Proof. vm_compute. repeat split. Qed.

(** ** C3: the worked example *)

(** C3: on the example inputs the unrounded sum is exactly 81.25, the
    score is 81, the level is "Very Confident" and the breakdown holds 80
    for pauseFrequency and 90 for emotionPositivity, the other fields
    unchanged; in both implementations. *)
Theorem example_score_is_81 :
  let expected :=
    {| score := 81;
       level := "Very Confident";
       breakdown :=
         {| voiceVolume := 75; voiceStability := 80; pauseFrequency := 80;
            facialConfidence := 85; emotionPositivity := 90;
            answerQuality := 78; answerCompleteness := 82 |} |} in
  CompleteCode.weighted_sum example_inputs = 81.25 /\
  CompleteCode.calculateConfidenceScore example_inputs = expected /\
  FeaturesImpl.weighted_sum example_inputs = 81.25 /\
  FeaturesImpl.calculateConfidenceScore example_inputs = expected.
Proof. vm_compute. repeat split. Qed.

(** ** C4: the normalization *)

(** C4: the breakdown is the input record with pauseFrequency replaced by
    [100 - pauseFrequency] and emotionPositivity by
    [emotionPositivity + 50], the five other fields unchanged; in both
    implementations ([100 / 2] is 50). *)
Theorem breakdown_is_normalized_inputs (inputs : ConfidenceInputs) :
  let normalized :=
    {| voiceVolume := voiceVolume inputs;
       voiceStability := voiceStability inputs;
       pauseFrequency := 100 - pauseFrequency inputs;
       facialConfidence := facialConfidence inputs;
       emotionPositivity := emotionPositivity inputs + 50;
       answerQuality := answerQuality inputs;
       answerCompleteness := answerCompleteness inputs |} in
  breakdown (CompleteCode.calculateConfidenceScore inputs) = normalized /\
  breakdown (FeaturesImpl.calculateConfidenceScore inputs) = normalized.
Proof. split; reflexivity. Qed.

(** ** C5: the weighted sum and its rounding *)

Section ExactSum.
Import QArith.

(** C5, as stated, fails: on [above_half_inputs], which lie in the
    documented ranges, the weighted sum of the normalized values is above
    45.5, so that the integer nearest to it is 46, and the returned score
    is 45.  On [half_inputs] the weighted sum is exactly 45.5, which
    [Math.round] takes to 46, and the code, whose sum is
    45.499999999999993, returns 45 again.  Reading the weights as the
    binary64 numbers the literals denote changes nothing: with them the
    exact sum on [half_inputs] is above 45.5 too. *)
Lemma score_is_not_nearest_integer_to_weighted_sum :
  let r := CompleteCode.calculateConfidenceScore above_half_inputs in
  let r' := CompleteCode.calculateConfidenceScore half_inputs in
  let binary64_weights :=
    map Exact.value (map snd (Object_entries CompleteCode.weights)) in
  in_documented_ranges above_half_inputs = true /\
  45.5 < Exact.weighted_sum above_half_inputs /\
  Exact.nearest (Exact.weighted_sum above_half_inputs) 46 /\
  ~ Exact.nearest (Exact.weighted_sum above_half_inputs) 45 /\
  score r = 45%float /\
  ~ Exact.rounds_to (Exact.weighted_sum above_half_inputs) (score r) /\
  in_documented_ranges half_inputs = true /\
  Exact.weighted_sum half_inputs == 45.5 /\
  JS.Math_round 45.5%float = 46%float /\
  CompleteCode.weighted_sum half_inputs = 45.499999999999993%float /\
  score r' = 45%float /\
  45.5 < Exact.weighted_sum_with binary64_weights half_inputs /\
  ~ Exact.rounds_to (Exact.weighted_sum_with binary64_weights half_inputs)
      (score r').
Proof.
  assert (E45 : forall r : Z, Exact.value 45%float == inject_Z r -> r = 45%Z).
  { intros r Hr. unfold Qeq in Hr.
    change (Qnum (Exact.value 45%float)) with 6333186975989760%Z in Hr.
    change (Qden (Exact.value 45%float)) with 140737488355328%positive in Hr.
    cbn in Hr. lia. }
  assert (Ea : score (CompleteCode.calculateConfidenceScore above_half_inputs)
               = 45%float) by (vm_compute; reflexivity).
  assert (Eh : score (CompleteCode.calculateConfidenceScore half_inputs)
               = 45%float) by (vm_compute; reflexivity).
  cbv zeta. rewrite Ea, Eh.
  split; [vm_compute; reflexivity|].
  split; [vm_compute; reflexivity|].
  split; [split; vm_compute; discriminate|].
  split.
  { intros [_ H]. revert H. vm_compute. intro H. apply H. reflexivity. }
  split; [reflexivity|].
  split.
  { intros (r & Hr & _ & H). apply E45 in Hr. subst r.
    revert H. vm_compute. intro H. apply H. reflexivity. }
  do 6 (split; [vm_compute; reflexivity|]).
  intros (r & Hr & _ & H). apply E45 in Hr. subst r.
  revert H. vm_compute. intro H. apply H. reflexivity.
Qed.

End ExactSum.

(** C5, amended: the score is [Math.round] of the sum as the code
    accumulates it in binary64.  The unrounded score is the sum,
    accumulated from 0 in the order of the fields, each product and each
    partial sum being rounded to a binary64 number, of the normalized
    values times 0.15, 0.15, 0.1, 0.2, 0.1, 0.15 and 0.15, and the
    returned score is [Math.round] of it: a sum that is not a finite
    number, or is finite with a non-negative exponent (hence integral), is
    returned as it is, and any other sum [v] becomes the number whose
    value is the integer [r] with [r - 1/2 <= v < r + 1/2].  The seven
    weights add up to exactly 1: the binary64 sum is 1, and so is the sum
    of their exact values (scaled by [2^56] below). *)
Theorem score_is_rounded_weighted_sum (inputs : ConfidenceInputs) :
  let n := CompleteCode.normalized inputs in
  let sum :=
    0 + voiceVolume n * 0.15 + voiceStability n * 0.15 +
    pauseFrequency n * 0.1 + facialConfidence n * 0.2 +
    emotionPositivity n * 0.1 + answerQuality n * 0.15 +
    answerCompleteness n * 0.15 in
  let result := CompleteCode.calculateConfidenceScore inputs in
  let weights := map snd (Object_entries CompleteCode.weights) in
  CompleteCode.weighted_sum inputs = sum /\
  score result = JS.Math_round sum /\
  (forall s m e, Prim2SF sum = S754_finite s m e -> (e < 0)%Z ->
     exists r : Z,
       score result = JS.of_integer s r /\
       Binary64.SFvalue 1074 (Prim2SF (score result)) = (r * 2 ^ 1074)%Z /\
       ((2 * r - 1) * 2 ^ (- e) <= 2 * cond_Zopp s (Zpos m)
        < (2 * r + 1) * 2 ^ (- e))%Z) /\
  (forall s m e, Prim2SF sum = S754_finite s m e -> (0 <= e)%Z ->
     score result = sum) /\
  ((forall s m e, Prim2SF sum <> S754_finite s m e) -> score result = sum) /\
  weights = [0.15; 0.15; 0.1; 0.2; 0.1; 0.15; 0.15] /\
  fold_left PrimFloat.add weights 0 = 1 /\
  fold_left Z.add (map (scaled_value 56) weights) 0%Z = (1 * 2 ^ 56)%Z.
Proof.
  cbv zeta. repeat split.
  - intros s m e Hsum He. exists (JS.nearest_tie_up s m e).
    assert (Hscore : score (CompleteCode.calculateConfidenceScore inputs) =
                     JS.of_integer s (JS.nearest_tie_up s m e)).
    { unfold CompleteCode.calculateConfidenceScore; cbn [score].
      rewrite weighted_sum_unfolded. unfold weighted_sum_of, JS.Math_round.
      rewrite Hsum. destruct (Z.leb_spec 0 e); [lia | reflexivity]. }
    split; [exact Hscore|]. split.
    + rewrite Hscore.
      pose proof (Prim2SF_valid
                    (weighted_sum_of (CompleteCode.normalized inputs))) as Hv.
      unfold weighted_sum_of in Hv. rewrite Hsum in Hv.
      destruct (Binary64Facts.bounded_mantissa m e Hv) as (Hm & _).
      apply Binary64Facts.of_integer_val; [lia|].
      apply Binary64Facts.nearest_tie_up_small; assumption.
    + apply nearest_tie_up_spec; assumption.
  - intros s m e Hsum He.
    unfold CompleteCode.calculateConfidenceScore; cbn [score].
    rewrite weighted_sum_unfolded. unfold weighted_sum_of, JS.Math_round.
    rewrite Hsum. destruct (Z.leb_spec 0 e); [reflexivity | lia].
  - intros Hsum.
    unfold CompleteCode.calculateConfidenceScore; cbn [score].
    rewrite weighted_sum_unfolded. unfold weighted_sum_of, JS.Math_round.
    destruct (Prim2SF _) eqn:E; try reflexivity.
    exfalso. exact (Hsum _ _ _ eq_refl).
Qed.

(** ** C6: no error, no clamping *)

(** C6: for every input, whatever the numbers, [reduce] finds a weight
    under each key it visits (no [undefined] enters the arithmetic), and
    the result is the one the normalization, the weighted sum, the
    rounding and the conditional chain compute: nothing is rejected and
    nothing is restricted to a range. Inputs far outside the documented
    ranges give scores outside 0-100 (184 and -36) and a breakdown outside
    it (-400), and a NaN input gives a NaN score. *)
Theorem no_error_no_clamping (inputs : ConfidenceInputs) :
  let n :=
    {| voiceVolume := voiceVolume inputs;
       voiceStability := voiceStability inputs;
       pauseFrequency := 100 - pauseFrequency inputs;
       facialConfidence := facialConfidence inputs;
       emotionPositivity := emotionPositivity inputs + 50;
       answerQuality := answerQuality inputs;
       answerCompleteness := answerCompleteness inputs |} in
  (forall key value, In (key, value) (Object_entries n) ->
     exists w, get_property CompleteCode.weights key = Some w) /\
  CompleteCode.calculateConfidenceScore inputs =
    {| score := JS.Math_round (weighted_sum_of n);
       level := CompleteCode.level_of (weighted_sum_of n);
       breakdown := n |} /\
  score (CompleteCode.calculateConfidenceScore oversized_inputs) = 184 /\
  score (CompleteCode.calculateConfidenceScore undersized_inputs) = -36 /\
  pauseFrequency
    (breakdown (CompleteCode.calculateConfidenceScore undersized_inputs))
  = -400 /\
  score (CompleteCode.calculateConfidenceScore nan_inputs) = nan.
Proof.
  cbv zeta. split; [|repeat split].
  intros key value Hin. simpl in Hin.
  repeat (destruct Hin as [Hin|Hin];
          [inversion Hin; subst; eexists; reflexivity|]).
  contradiction.
Qed.

(** ** C7: determinism *)

(** What a computation on the heap does, one step at a time. *)
Module HeapFacts.
Import Heap.

(** Objects stay where they are when others are created. *)
Lemma lookup_old (h new : heap) (l : loc) (o : object) :
  lookup h l = Some o -> lookup (h ++ new) l = Some o.
Proof.
  unfold lookup. intro H.
  rewrite nth_error_app1; [exact H|].
  apply nth_error_Some. congruence.
Qed.

Lemma lookup_new (h new : heap) (k : nat) :
  lookup (h ++ new) (List.length h + k)%nat = nth_error new k.
Proof.
  unfold lookup. rewrite nth_error_app2 by lia.
  f_equal. lia.
Qed.

Lemma lookup_last (h : heap) (o : object) :
  lookup (h ++ [o]) (List.length h) = Some o.
Proof.
  unfold lookup. rewrite nth_error_app2 by lia.
  rewrite Nat.sub_diag. reflexivity.
Qed.

Lemma run_bind {A B : Type} (c : M A) (k : A -> M B) (h h' : heap) (a : A) :
  c h = Some (a, h') -> (x <- c ;; k x) h = k a h'.
Proof. intro H. unfold bind. rewrite H. reflexivity. Qed.

Lemma run_new_object {A : Type} (o : object) (k : loc -> M A) (h : heap) :
  (x <- new_object o ;; k x) h = k (List.length h) (h ++ [o])%list.
Proof. reflexivity. Qed.

Lemma run_get {A : Type} (l : loc) (key : string) (k : value -> M A)
  (h : heap) (o : object) :
  lookup h l = Some o -> (x <- get l key ;; k x) h = k (get_own o key) h.
Proof. intro H. unfold bind, get. rewrite H. reflexivity. Qed.

Lemma run_Object_entries {A : Type} (l : loc)
  (k : list (string * value) -> M A) (h : heap) (o : object) :
  lookup h l = Some o -> (x <- Object_entries l ;; k x) h = k o h.
Proof. intro H. unfold bind, Object_entries. rewrite H. reflexivity. Qed.

Lemma run_minus {A : Type} (a b : JS.number) (k : value -> M A) (h : heap) :
  (x <- minus (Num a) (Num b) ;; k x) h = k (Num (a - b)) h.
Proof. reflexivity. Qed.

Lemma run_plus {A : Type} (a b : JS.number) (k : value -> M A) (h : heap) :
  (x <- plus (Num a) (Num b) ;; k x) h = k (Num (a + b)) h.
Proof. reflexivity. Qed.

(** One step of [reduce]: the weight is read, nothing is written. *)
Lemma run_weigh (h : heap) (weights : loc) (w : object) (key : string)
  (total value x : JS.number) :
  lookup h weights = Some w -> get_own w key = Num x ->
  (weight <- get weights key ;;
   product <- times (Num value) weight ;;
   plus (Num total) product) h = Some (Num (total + value * x), h).
Proof.
  intros Hw Hx. rewrite (run_get _ _ _ _ _ Hw), Hx. reflexivity.
Qed.

End HeapFacts.

Lemma number_of_get (o : Heap.object) (key : string) (n : JS.number) :
  number_of o key = Some n -> Heap.get_own o key = Heap.Num n.
Proof.
  unfold number_of. destruct (Heap.get_own o key); congruence.
Qed.

Lemma metrics_at_inv (h : Heap.heap) (l : Heap.loc) (m : Metrics) :
  metrics_at h l = Some m ->
  exists o,
    Heap.lookup h l = Some o /\
    Heap.get_own o "voiceVolume" = Heap.Num (voiceVolume m) /\
    Heap.get_own o "voiceStability" = Heap.Num (voiceStability m) /\
    Heap.get_own o "pauseFrequency" = Heap.Num (pauseFrequency m) /\
    Heap.get_own o "facialConfidence" = Heap.Num (facialConfidence m) /\
    Heap.get_own o "emotionPositivity" = Heap.Num (emotionPositivity m) /\
    Heap.get_own o "answerQuality" = Heap.Num (answerQuality m) /\
    Heap.get_own o "answerCompleteness" = Heap.Num (answerCompleteness m).
Proof.
  unfold metrics_at.
  destruct (Heap.lookup h l) as [o|]; [|discriminate].
  destruct (number_of o "voiceVolume") as [a|] eqn:Ha; [|discriminate].
  destruct (number_of o "voiceStability") as [b|] eqn:Hb; [|discriminate].
  destruct (number_of o "pauseFrequency") as [c|] eqn:Hc; [|discriminate].
  destruct (number_of o "facialConfidence") as [d|] eqn:Hd; [|discriminate].
  destruct (number_of o "emotionPositivity") as [e|] eqn:He; [|discriminate].
  destruct (number_of o "answerQuality") as [f|] eqn:Hf; [|discriminate].
  destruct (number_of o "answerCompleteness") as [g|] eqn:Hg; [|discriminate].
  intros [= <-]. exists o.
  cbn [voiceVolume voiceStability pauseFrequency facialConfidence
       emotionPositivity answerQuality answerCompleteness].
  repeat split; apply number_of_get; assumption.
Qed.

(** A call on an object that holds the metrics [m]: the objects [weights],
    [normalized] and the result are created after the objects of the heap,
    [inputs] and [weights] are read, and nothing is written. *)
Lemma call_returns_new (h : Heap.heap) (inputs : Heap.loc)
  (m : ConfidenceInputs) :
  metrics_at h inputs = Some m ->
  returns_new (CompleteCodeHeap.calculateConfidenceScore inputs) h
    (CompleteCode.calculateConfidenceScore m).
Proof.
  intro Hm.
  destruct (metrics_at_inv _ _ _ Hm)
    as (o & Ho & Ha & Hb & Hc & Hd & He & Hf & Hg).
  unfold returns_new, CompleteCodeHeap.calculateConfidenceScore.
  rewrite HeapFacts.run_new_object.
  set (w := [("voiceVolume"%string, Heap.Num 0.15); _; _; _; _; _; _]).
  pose proof (HeapFacts.lookup_old h [w] _ _ Ho) as Ho1.
  repeat first
    [ rewrite (HeapFacts.run_get _ _ _ _ _ Ho1)
    | rewrite Hc, HeapFacts.run_minus
    | rewrite He, HeapFacts.run_plus ].
  rewrite Ha, Hb, Hd, Hf, Hg.
  rewrite HeapFacts.run_new_object.
  set (n := [("voiceVolume"%string, Heap.Num (voiceVolume m));
             _; _; _; _; _; _]).
  assert (Hw : Heap.lookup ((h ++ [w]) ++ [n]) (List.length h) = Some w)
    by apply HeapFacts.lookup_old, HeapFacts.lookup_last.
  assert (Hn : Heap.lookup ((h ++ [w]) ++ [n]) (List.length (h ++ [w]))
               = Some n)
    by apply HeapFacts.lookup_last.
  rewrite (HeapFacts.run_Object_entries _ _ _ _ Hn).
  erewrite HeapFacts.run_bind.
  2: { unfold n at 1. cbn [Heap.reduce fst snd].
       do 7 (erewrite HeapFacts.run_bind
               by (eapply HeapFacts.run_weigh; [exact Hw | reflexivity])).
       reflexivity. }
  cbv beta iota delta [Heap.bind Heap.to_number Heap.ret Heap.new_object].
  replace (List.length ((h ++ [w]) ++ [n])) with (List.length h + 2)%nat
    by (rewrite !length_app; cbn; lia).
  replace (List.length (h ++ [w])) with (List.length h + 1)%nat
    by (rewrite !length_app; cbn; lia).
  set (res := [("score"%string, _); _; _]).
  rewrite <- !app_assoc. cbn [app].
  exists (List.length h + 2)%nat, (List.length h + 1)%nat, [w; n; res].
  assert (Hb' : breakdown_at (h ++ [w; n; res]) (List.length h + 2)%nat
                = Some (List.length h + 1)%nat).
  { unfold breakdown_at. rewrite HeapFacts.lookup_new. reflexivity. }
  split; [reflexivity|]. split; [|split; [exact Hb'|lia]].
  unfold result_at. rewrite Hb'.
  unfold metrics_at. rewrite !HeapFacts.lookup_new.
  destruct m; reflexivity.
Qed.

(** C7: the result of a call depends on the seven numbers of [inputs]
    only, and the call changes nothing.  Take two invocations, in any two
    heaps, on objects that hold the same seven numbers [m] (the same
    object or not, and whatever else the heaps and the objects hold):
    both return, and the score, the level and the contents of the
    breakdown they return are identical, and are those of the function
    [CompleteCode.calculateConfidenceScore] of [m] alone.  Each invocation
    returns a new object with a new breakdown, and leaves every object
    that existed before it, [inputs] among them, as it was. *)
Theorem calculateConfidenceScore_is_pure
  (h1 h2 : Heap.heap) (inputs1 inputs2 : Heap.loc) (m : ConfidenceInputs) :
  metrics_at h1 inputs1 = Some m ->
  metrics_at h2 inputs2 = Some m ->
  exists res : ConfidenceResult,
    returns_new (CompleteCodeHeap.calculateConfidenceScore inputs1) h1 res /\
    returns_new (CompleteCodeHeap.calculateConfidenceScore inputs2) h2 res /\
    res = CompleteCode.calculateConfidenceScore m.
Proof.
  intros H1 H2. exists (CompleteCode.calculateConfidenceScore m).
  repeat split; apply call_returns_new; assumption.
Qed.

(** Two invocations on the same object, one after the other: the second
    runs in the heap the first has left. *)
Lemma calculateConfidenceScore_is_pure_witness :
  exists res : ConfidenceResult,
    returns_new (CompleteCodeHeap.calculateConfidenceScore 0%nat)
      [example_object] res /\
    returns_new (CompleteCodeHeap.calculateConfidenceScore 0%nat)
      (heap_after (CompleteCodeHeap.calculateConfidenceScore 0%nat)
         [example_object]) res /\
    res = CompleteCode.calculateConfidenceScore example_inputs.
Proof.
  apply (calculateConfidenceScore_is_pure
           [example_object]
           (heap_after (CompleteCodeHeap.calculateConfidenceScore 0%nat)
              [example_object])
           0%nat 0%nat example_inputs);
    reflexivity.
Defined.

(** ** C8: the mock routes *)

(** C8, as stated, fails: a request that passes [authenticateToken] but
    whose [req.body] is [undefined] makes the destructuring throw, and the
    handlers that read the body answer 500 from their [catch]. *)
Lemma mock_routes_fail_without_body :
  Express.authenticated accept_abc request_without_body = true /\
  SetupGuide.evaluate_answer accept_abc request_without_body =
    {| Express.status := 500;
       Express.payload :=
         Express.JObject
           [("error"%string, Express.JString "Evaluation failed")] |} /\
  SetupGuide.evaluate_answer accept_abc request_without_body <>
    Express.res_json SetupGuide.evaluation /\
  QuickStart.evaluate_answer accept_abc request_without_body <>
    Express.res_json QuickStart.evaluation /\
  QuickStart.analyze_facial accept_abc request_without_body =
    {| Express.status := 500;
       Express.payload :=
         Express.JObject
           [("error"%string, Express.JString "Analysis failed")] |}.
Proof. vm_compute. repeat split; discriminate. Qed.

(** C8, amended: for every request that passes [authenticateToken], if
    [req.body] is neither [undefined] nor [null] then, whatever it holds,
    the answer-evaluation route sends the fixed evaluation and the
    facial-analysis route the fixed analysis, with status 200; the
    facial-analysis route of the setup guide, which does not read the
    body, does so for every body. *)
Theorem mock_routes_return_fixed_values
  (jwt_verify : string -> option Express.json) (req : Express.Request) :
  Express.authenticated jwt_verify req = true ->
  SetupGuide.analyze_facial jwt_verify req =
    {| Express.status := 200;
       Express.payload := SetupGuide.facial_analysis |} /\
  (forall j, Express.body req = Some j -> j <> Express.JNull ->
     SetupGuide.evaluate_answer jwt_verify req =
       {| Express.status := 200;
          Express.payload := SetupGuide.evaluation |} /\
     QuickStart.evaluate_answer jwt_verify req =
       {| Express.status := 200;
          Express.payload := QuickStart.evaluation |} /\
     QuickStart.analyze_facial jwt_verify req =
       {| Express.status := 200;
          Express.payload := QuickStart.facial_analysis |}).
Proof.
  unfold Express.authenticated.
  unfold SetupGuide.analyze_facial, SetupGuide.evaluate_answer,
    QuickStart.evaluate_answer, QuickStart.analyze_facial,
    Express.app_post, Express.authenticateToken.
  destruct (Express.token_of _) as [[|c t]|]; try discriminate.
  destruct (jwt_verify (String c t)) as [u|]; try discriminate.
  intros _. cbn [Express.falsy]. split; [reflexivity|].
  intros b Hbody Hb.
  unfold SetupGuide.evaluate_answer_handler,
    QuickStart.evaluate_answer_handler, QuickStart.analyze_facial_handler.
  cbn [Express.body]. rewrite Hbody.
  destruct b; try contradiction; repeat split.
Qed.

Lemma mock_routes_return_fixed_values_witness :
  SetupGuide.analyze_facial accept_abc request_with_body =
    {| Express.status := 200;
       Express.payload := SetupGuide.facial_analysis |} /\
  SetupGuide.evaluate_answer accept_abc request_with_body =
    {| Express.status := 200;
       Express.payload := SetupGuide.evaluation |}.
Proof.
  destruct (mock_routes_return_fixed_values accept_abc request_with_body
              eq_refl) as [Hfacial Hbody].
  split; [exact Hfacial|].
  apply (Hbody _ eq_refl). discriminate.
Defined.

(** ** C9: the two implementations *)

(** The sum that [reduce] accumulates from 0 is the sum that
    AI_FEATURES_IMPLEMENTATION.md writes out without the 0: the two can only
    differ in the sign of a zero, and the pause term is never [-0]. *)
Lemma weighted_sums_agree (inputs : ConfidenceInputs) :
  CompleteCode.weighted_sum inputs = FeaturesImpl.weighted_sum inputs.
Proof.
  rewrite weighted_sum_unfolded.
  unfold weighted_sum_of, FeaturesImpl.weighted_sum.
  cbn [CompleteCode.normalized FeaturesImpl.normalizedInputs
       FeaturesImpl.weights voiceVolume voiceStability pauseFrequency
       facialConfidence emotionPositivity answerQuality answerCompleteness].
  rewrite Binary64Facts.add_zero_prefix
    by apply Binary64Facts.normalized_pause_term_not_neg_zero.
  reflexivity.
Qed.

(** C9: for every input the two implementations return the same score and
    the same breakdown: [value + 50] and [value + 100 / 2] are the same
    number, the weights are the same, and the two sums are equal. *)
Theorem implementations_agree (inputs : ConfidenceInputs) :
  let r := CompleteCode.calculateConfidenceScore inputs in
  let r' := FeaturesImpl.calculateConfidenceScore inputs in
  score r = score r' /\ breakdown r = breakdown r' /\
  emotionPositivity (breakdown r) = emotionPositivity inputs + 50 /\
  emotionPositivity (breakdown r') = emotionPositivity inputs + 100 / 2 /\
  CompleteCode.weights = FeaturesImpl.weights /\
  CompleteCode.weighted_sum inputs = FeaturesImpl.weighted_sum inputs.
Proof.
  cbv zeta. repeat split.
  - unfold CompleteCode.calculateConfidenceScore,
      FeaturesImpl.calculateConfidenceScore; cbn [score].
    rewrite weighted_sums_agree. reflexivity.
  - apply weighted_sums_agree.
Qed.

(** ** C10: monotonicity *)

Import Binary64Facts.

Lemma SFleb_not_SFltb (x y : spec_float) :
  SFleb x y = true -> SFltb y x = false.
Proof.
  unfold SFleb, SFltb, SFcompare.
  destruct x as [sx|sx| |sx mx ex], y as [sy|sy| |sy my ey];
    repeat match goal with s : bool |- _ => destruct s end;
    try reflexivity; try discriminate;
    rewrite (Z.compare_antisym ex ey);
    destruct (Z.compare ex ey); cbn [CompOpp];
    try reflexivity; try discriminate;
    rewrite !Pos.compare_cont_spec; cbn [Pos.switch_Eq];
    rewrite (Pos.compare_antisym mx my);
    destruct (Pos.compare mx my); cbn [CompOpp];
    try reflexivity; discriminate.
Qed.

Lemma is_nan_true (x : float) : is_nan x = true -> Prim2SF x = S754_nan.
Proof.
  intro H. destruct (Prim2SF x) as [s|s| |s m e] eqn:E; try reflexivity;
    assert (Hn : is_nan x = false) by (apply is_nan_spec; rewrite E; discriminate);
    rewrite Hn in H; discriminate.
Qed.

(** An order [a <= b] that holds whenever both sides are numbers excludes
    [b < a] on all floats. *)
Lemma not_below_intro (a b : float) :
  (is_nan a = false -> is_nan b = false -> (a <=? b) = true) ->
  not_below a b.
Proof.
  intro H. split; [|exact H].
  rewrite ltb_spec.
  destruct (is_nan a) eqn:Ha; [apply is_nan_true in Ha; rewrite Ha|].
  { unfold SFltb. destruct (Prim2SF b); reflexivity. }
  destruct (is_nan b) eqn:Hb; [apply is_nan_true in Hb; rewrite Hb|].
  { reflexivity. }
  apply SFleb_not_SFltb. rewrite <- leb_spec. apply H; reflexivity.
Qed.

Lemma Math_round_nan (x : float) :
  is_nan (JS.Math_round x) = false -> is_nan x = false.
Proof.
  intro H. destruct (is_nan x) eqn:Hx; [|reflexivity].
  apply is_nan_true in Hx. unfold JS.Math_round in H. rewrite Hx in H.
  apply is_nan_spec in H. contradiction.
Qed.

Lemma not_below_Math_round (a b : float) :
  not_below a b -> not_below (JS.Math_round a) (JS.Math_round b).
Proof.
  intros [_ H]. apply not_below_intro. intros Ha Hb.
  apply Math_round_mono. apply H; apply Math_round_nan; assumption.
Qed.

(** The terms of the sum: the numbers 0.15, 0.1 and 0.2 are positive and
    normal. *)
Lemma times_weight_mono (x x' w : float) :
  w = 0.15 \/ w = 0.1 \/ w = 0.2 ->
  (x <=? x') = true -> (x * w <=? x' * w) = true.
Proof.
  intros [->|[->| ->]].
  - apply (mul_le_mono_const x x' 0.15 5404319552844595 (-55));
      [reflexivity | vm_compute; discriminate].
  - apply (mul_le_mono_const x x' 0.1 7205759403792794 (-56));
      [reflexivity | vm_compute; discriminate].
  - apply (mul_le_mono_const x x' 0.2 7205759403792794 (-55));
      [reflexivity | vm_compute; discriminate].
Qed.

(** The sum is monotone in the normalized record, field by field. *)
Lemma weighted_sum_of_mono (n n' : Metrics) :
  (voiceVolume n <=? voiceVolume n') = true ->
  (voiceStability n <=? voiceStability n') = true ->
  (pauseFrequency n <=? pauseFrequency n') = true ->
  (facialConfidence n <=? facialConfidence n') = true ->
  (emotionPositivity n <=? emotionPositivity n') = true ->
  (answerQuality n <=? answerQuality n') = true ->
  (answerCompleteness n <=? answerCompleteness n') = true ->
  is_nan (weighted_sum_of n) = false ->
  is_nan (weighted_sum_of n') = false ->
  (weighted_sum_of n <=? weighted_sum_of n') = true.
Proof.
  intros H1 H2 H3 H4 H5 H6 H7 Hn Hn'. unfold weighted_sum_of in *.
  repeat match goal with
         | H : is_nan (_ + _) = false |- _ =>
             let Ha := fresh "Hacc" in
             pose proof (proj1 (add_not_nan _ _ H)) as Ha; revert H
         end.
  intros.
  repeat (apply add_le_mono;
          [ | apply times_weight_mono; [tauto | assumption]
            | assumption | assumption ]).
  reflexivity.
Qed.

(** A sum that is a number was computed from numbers. *)
Lemma sum_not_nan_fields (n : Metrics) :
  is_nan (weighted_sum_of n) = false ->
  is_nan (voiceVolume n) = false /\ is_nan (voiceStability n) = false /\
  is_nan (pauseFrequency n) = false /\ is_nan (facialConfidence n) = false /\
  is_nan (emotionPositivity n) = false /\ is_nan (answerQuality n) = false /\
  is_nan (answerCompleteness n) = false.
Proof.
  unfold weighted_sum_of. intro H.
  repeat match goal with
         | H : is_nan (_ + _) = false |- _ =>
             let Ha := fresh "Hacc" in
             let Ht := fresh "Hterm" in
             destruct (add_not_nan _ _ H) as [Ha Ht]; clear H;
             apply mul_not_nan in Ht; destruct Ht as [Ht _]
         end.
  repeat split; assumption.
Qed.

Lemma sum_not_nan_inputs (i : ConfidenceInputs) :
  is_nan (CompleteCode.weighted_sum i) = false ->
  is_nan (voiceVolume i) = false /\ is_nan (voiceStability i) = false /\
  is_nan (pauseFrequency i) = false /\ is_nan (facialConfidence i) = false /\
  is_nan (emotionPositivity i) = false /\ is_nan (answerQuality i) = false /\
  is_nan (answerCompleteness i) = false /\
  is_nan (100 - pauseFrequency i) = false /\
  is_nan (emotionPositivity i + 50) = false.
Proof.
  rewrite weighted_sum_unfolded. intro H.
  apply sum_not_nan_fields in H.
  cbn [CompleteCode.normalized voiceVolume voiceStability pauseFrequency
       facialConfidence emotionPositivity answerQuality answerCompleteness]
    in H.
  destruct H as (H1 & H2 & H3 & H4 & H5 & H6 & H7).
  pose proof (proj2 (sub_not_nan _ _ H3)).
  pose proof (proj1 (add_not_nan _ _ H5)).
  repeat split; assumption.
Qed.

(** The unrounded sum is monotone in the inputs: nondecreasing in six of
    them, nonincreasing in pauseFrequency. *)
Lemma weighted_sum_mono (i i' : ConfidenceInputs) :
  (voiceVolume i <=? voiceVolume i') = true ->
  (voiceStability i <=? voiceStability i') = true ->
  (pauseFrequency i' <=? pauseFrequency i) = true ->
  (facialConfidence i <=? facialConfidence i') = true ->
  (emotionPositivity i <=? emotionPositivity i') = true ->
  (answerQuality i <=? answerQuality i') = true ->
  (answerCompleteness i <=? answerCompleteness i') = true ->
  is_nan (CompleteCode.weighted_sum i) = false ->
  is_nan (CompleteCode.weighted_sum i') = false ->
  (CompleteCode.weighted_sum i <=? CompleteCode.weighted_sum i') = true.
Proof.
  intros H1 H2 H3 H4 H5 H6 H7 Hn Hn'.
  destruct (sum_not_nan_inputs i Hn) as (_ & _ & _ & _ & _ & _ & _ & Hp & He).
  destruct (sum_not_nan_inputs i' Hn')
    as (_ & _ & _ & _ & _ & _ & _ & Hp' & He').
  rewrite weighted_sum_unfolded in *.
  apply weighted_sum_of_mono; try assumption;
    cbn [CompleteCode.normalized voiceVolume voiceStability pauseFrequency
         facialConfidence emotionPositivity answerQuality answerCompleteness];
    try assumption.
  - apply sub_le_anti; assumption.
  - apply add_le_mono; [assumption | reflexivity | assumption | assumption].
Qed.

Ltac monotone_field :=
  let inputs := fresh "inputs" in
  let x := fresh "x" in
  let x' := fresh "x'" in
  let Hle := fresh "Hle" in
  let Hn := fresh "Hn" in
  let Hn' := fresh "Hn'" in
  intros inputs x x' Hle; apply not_below_intro; intros Hn Hn';
  pose proof (sum_not_nan_inputs _ Hn) as (? & ? & ? & ? & ? & ? & ? & _);
  apply weighted_sum_mono; try assumption;
  cbn [with_voiceVolume with_voiceStability with_pauseFrequency
       with_facialConfidence with_emotionPositivity with_answerQuality
       with_answerCompleteness voiceVolume voiceStability pauseFrequency
       facialConfidence emotionPositivity answerQuality answerCompleteness]
    in *;
  try assumption; apply leb_refl; assumption.

(** C10: holding the other six inputs fixed, the unrounded weighted sum
    and the returned (rounded) score never decrease when voiceVolume,
    voiceStability, facialConfidence, emotionPositivity, answerQuality or
    answerCompleteness increases, and never increase when pauseFrequency
    increases: for [x <= x'] the value at [x'] is not below (for
    pauseFrequency, not above) the value at [x], and it is [>=] ([<=])
    it whenever both values are numbers rather than NaN. *)
Theorem weighted_sum_monotone :
  let sum := CompleteCode.weighted_sum in
  let rounded :=
    fun inputs => score (CompleteCode.calculateConfidenceScore inputs) in
  (nondecreasing_in with_voiceVolume sum /\
   nondecreasing_in with_voiceStability sum /\
   nondecreasing_in with_facialConfidence sum /\
   nondecreasing_in with_emotionPositivity sum /\
   nondecreasing_in with_answerQuality sum /\
   nondecreasing_in with_answerCompleteness sum /\
   nonincreasing_in with_pauseFrequency sum) /\
  (nondecreasing_in with_voiceVolume rounded /\
   nondecreasing_in with_voiceStability rounded /\
   nondecreasing_in with_facialConfidence rounded /\
   nondecreasing_in with_emotionPositivity rounded /\
   nondecreasing_in with_answerQuality rounded /\
   nondecreasing_in with_answerCompleteness rounded /\
   nonincreasing_in with_pauseFrequency rounded).
Proof.
  cbv zeta.
  assert (Hsum :
    nondecreasing_in with_voiceVolume CompleteCode.weighted_sum /\
    nondecreasing_in with_voiceStability CompleteCode.weighted_sum /\
    nondecreasing_in with_facialConfidence CompleteCode.weighted_sum /\
    nondecreasing_in with_emotionPositivity CompleteCode.weighted_sum /\
    nondecreasing_in with_answerQuality CompleteCode.weighted_sum /\
    nondecreasing_in with_answerCompleteness CompleteCode.weighted_sum /\
    nonincreasing_in with_pauseFrequency CompleteCode.weighted_sum).
  { repeat apply conj; monotone_field. }
  split; [exact Hsum|].
  destruct Hsum as (H1 & H2 & H3 & H4 & H5 & H6 & H7).
  unfold CompleteCode.calculateConfidenceScore; cbn [score].
  repeat apply conj; intros inputs x x' Hle; apply not_below_Math_round;
    [apply H1 | apply H2 | apply H3 | apply H4 | apply H5 | apply H6
     | apply H7]; assumption.
Qed.

Lemma weighted_sum_monotone_witness :
  (CompleteCode.weighted_sum (with_voiceVolume 75 example_inputs) <=?
   CompleteCode.weighted_sum (with_voiceVolume 90 example_inputs)) = true.
Proof.
  destruct weighted_sum_monotone as [[H _] _].
  apply (H example_inputs 75 90 eq_refl); reflexivity.
Defined.

(** ** The score on inputs in the documented ranges *)

Import Binary64.

(** A number between two finite numbers is finite. *)
Lemma between_finite (lo hi x : float) :
  SFfin (Prim2SF lo) -> SFfin (Prim2SF hi) -> between lo hi x = true ->
  SFfin (Prim2SF x).
Proof.
  unfold between. rewrite andb_true_iff, !leb_spec. unfold SFleb.
  intros Hlo Hhi [H1 H2].
  destruct (Prim2SF x) as [s|[|]| |s m e]; try exact I.
  - destruct (Prim2SF lo) as [?|?| |[|] ? ?]; try contradiction; discriminate H1.
  - destruct (Prim2SF hi) as [?|?| |[|] ? ?]; try contradiction; discriminate H2.
  - destruct (Prim2SF lo) as [?|?| |? ? ?]; discriminate H1.
Qed.

Lemma times_weight_finite (x w : float) :
  w = 0.15 \/ w = 0.1 \/ w = 0.2 ->
  SFfin (Prim2SF x) -> SFfin (Prim2SF (x * w)).
Proof.
  intros Hw Hx. rewrite mul_spec.
  destruct Hw as [->|[->| ->]];
    match goal with
    | |- context [Prim2SF ?w] =>
        let c := eval vm_compute in (Prim2SF w) in
        change (Prim2SF w) with c
    end;
    (apply SFmul_const_fin;
     [reflexivity | vm_compute; discriminate | vm_compute; discriminate
     | apply Prim2SF_valid | exact Hx]).
Qed.

(** Adding a finite term never produces NaN. *)
Lemma add_finite_not_nan (a t : float) :
  is_nan a = false -> SFfin (Prim2SF t) -> is_nan (a + t) = false.
Proof.
  rewrite !is_nan_spec, add_spec. intros Ha Ht.
  apply SFadd_fin_not_nan; try apply Prim2SF_valid; assumption.
Qed.

(** On finite fields the sum is a number (an infinity at worst). *)
Lemma weighted_sum_of_number (n : Metrics) :
  SFfin (Prim2SF (voiceVolume n)) -> SFfin (Prim2SF (voiceStability n)) ->
  SFfin (Prim2SF (pauseFrequency n)) -> SFfin (Prim2SF (facialConfidence n)) ->
  SFfin (Prim2SF (emotionPositivity n)) -> SFfin (Prim2SF (answerQuality n)) ->
  SFfin (Prim2SF (answerCompleteness n)) ->
  is_nan (weighted_sum_of n) = false.
Proof.
  intros H1 H2 H3 H4 H5 H6 H7. unfold weighted_sum_of.
  repeat (apply add_finite_not_nan; [|apply times_weight_finite; [tauto|assumption]]).
  reflexivity.
Qed.

(** The two normalized fields of finite inputs are finite. *)
Lemma hundred_minus_finite (x : float) :
  SFfin (Prim2SF x) -> SFfin (Prim2SF (100 - x)).
Proof.
  intro Hx. rewrite sub_spec, SFsub_add_opp.
  pose proof (Prim2SF_valid x) as Hv.
  apply SFadd_small_fin.
  - reflexivity.
  - rewrite SFopp_valid. exact Hv.
  - exact I.
  - destruct (Prim2SF x); try contradiction; exact I.
  - left. vm_compute. split; discriminate.
Qed.

Lemma plus_fifty_finite (x : float) :
  SFfin (Prim2SF x) -> SFfin (Prim2SF (x + 50)).
Proof.
  intro Hx. rewrite add_spec.
  apply SFadd_small_fin; try apply Prim2SF_valid; try assumption.
  - exact I.
  - right. vm_compute. split; discriminate.
Qed.

Lemma weighted_sum_number (i : ConfidenceInputs) :
  SFfin (Prim2SF (voiceVolume i)) -> SFfin (Prim2SF (voiceStability i)) ->
  SFfin (Prim2SF (pauseFrequency i)) -> SFfin (Prim2SF (facialConfidence i)) ->
  SFfin (Prim2SF (emotionPositivity i)) -> SFfin (Prim2SF (answerQuality i)) ->
  SFfin (Prim2SF (answerCompleteness i)) ->
  is_nan (CompleteCode.weighted_sum i) = false.
Proof.
  intros H1 H2 H3 H4 H5 H6 H7. rewrite weighted_sum_unfolded.
  apply weighted_sum_of_number;
    cbn [CompleteCode.normalized voiceVolume voiceStability pauseFrequency
         facialConfidence emotionPositivity answerQuality answerCompleteness];
    try assumption.
  - apply hundred_minus_finite; assumption.
  - apply plus_fifty_finite; assumption.
Qed.

(** On inputs in the documented ranges the sum lies between -5 and 105,
    the values it takes on [lowest_inputs] and [highest_inputs], and so
    does the score of either implementation. *)
Lemma score_between_minus_5_and_105 (i : ConfidenceInputs) :
  in_documented_ranges i = true ->
  let sum := CompleteCode.weighted_sum i in
  is_nan sum = false /\
  between (-5) 105 sum = true /\
  between (-5) 105 (score (CompleteCode.calculateConfidenceScore i)) = true /\
  between (-5) 105 (score (FeaturesImpl.calculateConfidenceScore i)) = true.
Proof.
  intros H sum. unfold in_documented_ranges in H.
  rewrite !andb_true_iff in H.
  destruct H as [[[[[[H1 H2] H3] H4] H5] H6] H7].
  assert (Hn : is_nan sum = false).
  { apply weighted_sum_number;
      first [apply (between_finite 0 100); [exact I | exact I | assumption]
            |apply (between_finite (-100) 100); [exact I | exact I | assumption]]. }
  unfold between in H1, H2, H3, H4, H5, H6, H7.
  rewrite andb_true_iff in H1, H2, H3, H4, H5, H6, H7.
  assert (Hlo : (-5 <=? sum) = true).
  { change (-5) with (CompleteCode.weighted_sum lowest_inputs).
    apply weighted_sum_mono; try exact Hn; try reflexivity;
      cbn [lowest_inputs voiceVolume voiceStability pauseFrequency
           facialConfidence emotionPositivity answerQuality answerCompleteness];
      tauto. }
  assert (Hhi : (sum <=? 105) = true).
  { change 105 with (CompleteCode.weighted_sum highest_inputs).
    apply weighted_sum_mono; try exact Hn; try reflexivity;
      cbn [highest_inputs voiceVolume voiceStability pauseFrequency
           facialConfidence emotionPositivity answerQuality answerCompleteness];
      tauto. }
  assert (Hs : between (-5) 105 (JS.Math_round sum) = true).
  { unfold between. rewrite andb_true_iff. split.
    - change (-5) with (JS.Math_round (-5)). apply Math_round_mono. exact Hlo.
    - change 105 with (JS.Math_round 105). apply Math_round_mono. exact Hhi. }
  split; [exact Hn|]. split.
  { unfold between. rewrite Hlo, Hhi. reflexivity. }
  split; [exact Hs|].
  unfold FeaturesImpl.calculateConfidenceScore. cbn [score].
  rewrite <- weighted_sums_agree. exact Hs.
Qed.

(** ** The middleware and the transcription route *)

Lemma split_space_first (a b : string) :
  no_space a = true ->
  Express.split_space (a ++ String " "%char b)%string = a :: Express.split_space b.
Proof.
  induction a as [|c a IH]; intro Ha.
  - reflexivity.
  - cbn [no_space] in Ha. apply andb_prop in Ha as [Hc Ha].
    cbn [append Express.split_space].
    destruct (Ascii.eqb c " ") eqn:E; [discriminate|].
    rewrite (IH Ha). reflexivity.
Qed.

Lemma split_space_word (a : string) :
  no_space a = true -> Express.split_space a = [a].
Proof.
  induction a as [|c a IH]; intro Ha.
  - reflexivity.
  - cbn [no_space] in Ha. apply andb_prop in Ha as [Hc Ha].
    cbn [Express.split_space].
    destruct (Ascii.eqb c " ") eqn:E; [discriminate|].
    rewrite (IH Ha). reflexivity.
Qed.

Lemma token_of_second_word (scheme token rest : string) :
  no_space scheme = true -> no_space token = true ->
  Express.token_of (Some (scheme ++ String " "%char token)%string) = Some token /\
  Express.token_of
    (Some (scheme ++ String " "%char (token ++ String " "%char rest))%string) =
  Some token.
Proof.
  intros Hs Ht. split.
  - unfold Express.token_of.
    rewrite split_space_first by assumption.
    rewrite split_space_word by assumption.
    destruct scheme; reflexivity.
  - unfold Express.token_of.
    rewrite split_space_first by assumption.
    rewrite split_space_first by assumption.
    destruct scheme; reflexivity.
Qed.

(** X1: [authenticateToken] answers a request that carries no usable token
    itself: 401 "Unauthorized" when the [authorization] header is missing
    or its second space-separated word is missing or empty, 403
    "Forbidden" when [jwt.verify] rejects the token.  The handler of the
    route is not run: the answer is the same whatever the handler. *)
Theorem unauthenticated_request_is_rejected
  (jwt_verify : string -> option Express.json)
  (handler handler' : Express.Request -> Express.Response)
  (req : Express.Request) :
  Express.authenticated jwt_verify req = false ->
  let token :=
    Express.token_of (Express.lookup (Express.headers req) "authorization") in
  Express.app_post jwt_verify handler req =
    (if Express.falsy token then Express.res_sendStatus 401
     else Express.res_sendStatus 403) /\
  Express.app_post jwt_verify handler req =
  Express.app_post jwt_verify handler' req.
Proof.
  intros H token. subst token.
  unfold Express.authenticated in H.
  unfold Express.app_post, Express.authenticateToken.
  destruct (Express.token_of _) as [[|c t]|]; cbn [Express.falsy].
  - split; reflexivity.
  - destruct (jwt_verify (String c t)); [discriminate|]. split; reflexivity.
  - split; reflexivity.
Qed.

Lemma unauthenticated_request_is_rejected_witness :
  Express.app_post accept_abc SetupGuide.analyze_facial_handler
    (with_authorization "Bearer xyz" request_with_body) =
  Express.res_sendStatus 403.
Proof.
  apply (unauthenticated_request_is_rejected accept_abc
           SetupGuide.analyze_facial_handler
           SetupGuide.analyze_facial_handler
           (with_authorization "Bearer xyz" request_with_body) eq_refl).
Defined.

(** X2: the token is the second space-separated word of the header,
    whatever the first word is and whatever follows the second: the
    scheme is not checked.  A header [scheme token] or [scheme token rest]
    with a non-empty [token] runs the handler, with [req.user] set to the
    decoded payload, exactly when [jwt.verify] accepts [token], and is
    answered 403 otherwise; [Basic t] or [x t y z] pass as [Bearer t]
    does. *)
Theorem scheme_word_is_not_checked
  (jwt_verify : string -> option Express.json)
  (handler : Express.Request -> Express.Response)
  (req : Express.Request) (scheme token rest header : string) :
  no_space scheme = true -> no_space token = true -> token <> EmptyString ->
  header = (scheme ++ String " "%char token)%string \/
  header = (scheme ++ String " "%char (token ++ String " "%char rest))%string ->
  Express.app_post jwt_verify handler (with_authorization header req) =
  match jwt_verify token with
  | Some u =>
      handler {| Express.headers := [("authorization"%string, header)];
                 Express.body := Express.body req;
                 Express.user := Some u |}
  | None => Express.res_sendStatus 403
  end.
Proof.
  intros Hs Ht Hne Hh.
  unfold Express.app_post, Express.authenticateToken, with_authorization.
  cbn [Express.headers Express.body Express.lookup].
  rewrite String.eqb_refl.
  destruct (token_of_second_word scheme token rest Hs Ht) as [H1 H2].
  assert (Htok : Express.token_of (Some header) = Some token)
    by (destruct Hh as [-> | ->]; assumption).
  rewrite Htok.
  destruct token as [|c t]; [contradiction|]. reflexivity.
Qed.

Lemma scheme_word_is_not_checked_witness :
  Express.app_post accept_abc SetupGuide.analyze_facial_handler
    (with_authorization "Basic abc" request_with_body) =
  Express.res_json SetupGuide.facial_analysis.
Proof.
  apply (scheme_word_is_not_checked accept_abc
           SetupGuide.analyze_facial_handler request_with_body
           "Basic" "abc" "" "Basic abc" eq_refl eq_refl).
  - discriminate.
  - left. reflexivity.
Defined.

(** X3: a doubled space after the scheme makes the token the empty
    string: the request is answered 401 without [jwt.verify] being
    consulted, whatever follows. *)
Theorem doubled_space_is_unauthorized
  (jwt_verify : string -> option Express.json)
  (handler : Express.Request -> Express.Response)
  (req : Express.Request) (scheme rest : string) :
  no_space scheme = true ->
  Express.app_post jwt_verify handler
    (with_authorization
       (scheme ++ String " "%char (String " "%char rest))%string req) =
  Express.res_sendStatus 401.
Proof.
  intro Hs.
  unfold Express.app_post, Express.authenticateToken, with_authorization.
  cbn [Express.headers Express.body Express.lookup].
  rewrite String.eqb_refl.
  assert (Ht : Express.token_of
                 (Some (scheme ++ String " "%char (String " "%char rest))%string) =
               Some EmptyString).
  { unfold Express.token_of.
    rewrite split_space_first by assumption.
    destruct scheme; reflexivity. }
  rewrite Ht. reflexivity.
Qed.

Lemma doubled_space_is_unauthorized_witness :
  Express.app_post accept_abc SetupGuide.analyze_facial_handler
    (with_authorization "Bearer  abc" request_with_body) =
  Express.res_sendStatus 401.
Proof.
  apply (doubled_space_is_unauthorized accept_abc
           SetupGuide.analyze_facial_handler request_with_body
           "Bearer" "abc" eq_refl).
Defined.

(** X4: the transcription route of either guide, on a request that passes
    [authenticateToken]: the fixed transcript with status 200 whenever
    [req.body] is neither [undefined] nor [null], whatever it holds (the
    [audio] property may be missing), and status 500 with
    "Transcription failed" when it is [undefined] or [null]. *)
Theorem transcribe_returns_fixed_transcript
  (jwt_verify : string -> option Express.json) (req : Express.Request) :
  Express.authenticated jwt_verify req = true ->
  (forall j, Express.body req = Some j -> j <> Express.JNull ->
     Transcribe.setup_guide jwt_verify req =
       {| Express.status := 200;
          Express.payload := Transcribe.setup_guide_transcript |} /\
     Transcribe.quick_start jwt_verify req =
       {| Express.status := 200;
          Express.payload := Transcribe.quick_start_transcript |}) /\
  (Express.body req = None \/ Express.body req = Some Express.JNull ->
     Transcribe.setup_guide jwt_verify req = Transcribe.failed /\
     Transcribe.quick_start jwt_verify req = Transcribe.failed).
Proof.
  unfold Express.authenticated.
  unfold Transcribe.setup_guide, Transcribe.quick_start,
    Express.app_post, Express.authenticateToken.
  destruct (Express.token_of _) as [[|c t]|]; try discriminate.
  destruct (jwt_verify (String c t)) as [u|]; try discriminate.
  intros _. cbn [Express.falsy].
  unfold Transcribe.setup_guide_handler, Transcribe.quick_start_handler.
  cbn [Express.body]. split.
  - intros b Hbody Hb. rewrite Hbody.
    destruct b; try contradiction; split; reflexivity.
  - intros [Hbody|Hbody]; rewrite Hbody; split; reflexivity.
Qed.

Lemma transcribe_returns_fixed_transcript_witness :
  Transcribe.setup_guide accept_abc request_with_body =
    {| Express.status := 200;
       Express.payload := Transcribe.setup_guide_transcript |} /\
  Transcribe.quick_start accept_abc request_without_body =
    Transcribe.failed.
Proof.
  destruct (transcribe_returns_fixed_transcript accept_abc request_with_body
              eq_refl) as [Hbody _].
  destruct (transcribe_returns_fixed_transcript accept_abc
              request_without_body eq_refl) as [_ Hnone].
  split.
  - apply (Hbody _ eq_refl). discriminate.
  - apply Hnone. left. reflexivity.
Defined.

(** ** More of the order of numbers *)

Module NumberFacts.

Import Binary64 Binary64Facts.

Lemma leb_total (a b : float) :
  is_nan a = false -> is_nan b = false ->
  (a <=? b) = true \/ (b <=? a) = true.
Proof.
  rewrite !is_nan_spec, !leb_spec. intros Ha Hb.
  destruct (Z.le_ge_cases (SFvalue 1074 (Prim2SF a))
              (SFvalue 1074 (Prim2SF b))) as [H|H]; [left|right];
    apply (SFleb_val 1074); try assumption; try apply Prim2SF_valid; lia.
Qed.

Lemma leb_antisym_value (a b : float) :
  (a <=? b) = true -> (b <=? a) = true ->
  SFvalue 1074 (Prim2SF a) = SFvalue 1074 (Prim2SF b).
Proof.
  intros H1 H2. destruct (leb_not_nan a b H1) as [Ha Hb].
  rewrite leb_spec in H1, H2.
  apply (SFleb_val 1074) in H1;
    try assumption; try apply Prim2SF_valid; try lia.
  apply (SFleb_val 1074) in H2;
    try assumption; try apply Prim2SF_valid; lia.
Qed.

(** A number that is not [>= c] is [<= c], unless it is NaN. *)
Lemma not_ge_le (s c : float) :
  is_nan s = false -> is_nan c = false -> JS.ge s c = false ->
  (s <=? c) = true.
Proof.
  unfold JS.ge. intros Hs Hc H.
  destruct (leb_total s c Hs Hc) as [Hle|Hle]; [exact Hle|].
  rewrite Hle in H. discriminate.
Qed.

Lemma Math_round_not_nan (x : float) :
  is_nan x = false -> is_nan (JS.Math_round x) = false.
Proof.
  rewrite !is_nan_spec. intro H.
  apply (Math_round_val 1074 x ltac:(lia) H).
Qed.

Lemma is_nan_Math_round (x : float) :
  is_nan (JS.Math_round x) = is_nan x.
Proof.
  destruct (is_nan x) eqn:Hx.
  - apply is_nan_true in Hx. unfold JS.Math_round. rewrite Hx.
    destruct (is_nan x) eqn:Hx'; [reflexivity|].
    apply is_nan_spec in Hx'. contradiction.
  - apply Math_round_not_nan. exact Hx.
Qed.

(** Two valid numbers of the same value are the same number, unless both
    are zeros. *)
Lemma SFvalue_inj (K : Z) (x y : spec_float) :
  (1074 <= K)%Z -> valid_binary x = true -> valid_binary y = true ->
  x <> S754_nan -> y <> S754_nan ->
  SFvalue K x = SFvalue K y ->
  x = y \/ (exists s s', x = S754_zero s /\ y = S754_zero s').
Proof.
  intros HK Hx Hy Hnx Hny Hv.
  pose proof (Omega_pos K ltac:(lia)) as HO.
  destruct x as [sx|sx| |sx mx ex], y as [sy|sy| |sy my ey];
    try contradiction; cbn [SFvalue valid_binary] in *;
    try (pose proof (finite_val_bounds K mx ex HK Hx));
    try (pose proof (finite_val_bounds K my ey HK Hy)).
  - right. eauto.
  - destruct sy; cbn [cond_Zopp] in Hv; lia.
  - destruct sy; cbn [cond_Zopp] in Hv; lia.
  - destruct sx; cbn [cond_Zopp] in Hv; lia.
  - left. destruct sx, sy; cbn [cond_Zopp] in Hv; try reflexivity; lia.
  - destruct sx, sy; cbn [cond_Zopp] in Hv; lia.
  - destruct sx; cbn [cond_Zopp] in Hv; lia.
  - destruct sx, sy; cbn [cond_Zopp] in Hv; lia.
  - left.
    assert (Hs : sx = sy)
      by (destruct sx, sy; cbn [cond_Zopp] in Hv; try reflexivity; lia).
    subst sy.
    assert (Hm : (Zpos mx * 2 ^ (ex + K) = Zpos my * 2 ^ (ey + K))%Z)
      by (destruct sx; cbn [cond_Zopp] in Hv; lia).
    pose proof (finite_compare_val K mx my ex ey HK Hx Hy) as Hc.
    rewrite Hm, Z.compare_refl in Hc.
    destruct (Z.compare_spec ex ey) as [He|He|He]; try discriminate.
    subst ey. rewrite Pos.compare_cont_spec in Hc.
    destruct (Pos.compare_spec mx my) as [Hmm|Hmm|Hmm];
      try discriminate Hc.
    subst my. reflexivity.
Qed.

(** [Math.round] leaves its results unchanged: they are integral. *)
Lemma Math_round_idempotent (x : float) :
  JS.Math_round (JS.Math_round x) = JS.Math_round x.
Proof.
  destruct (is_nan x) eqn:Hx.
  { apply is_nan_true in Hx.
    assert (H : JS.Math_round x = x) by (unfold JS.Math_round; rewrite Hx; reflexivity).
    rewrite H. exact H. }
  apply is_nan_spec in Hx.
  destruct (Math_round_val 1074 x ltac:(lia) Hx) as [Hy Hvy].
  set (y := JS.Math_round x) in *.
  destruct (Math_round_val 1074 y ltac:(lia) Hy) as [Hz Hvz].
  assert (Hsame : SFvalue 1074 (Prim2SF (JS.Math_round y)) =
                  SFvalue 1074 (Prim2SF y)).
  { rewrite Hvz, Hvy. unfold round_half_up at 2.
    apply round_half_up_multiple. lia. }
  destruct (SFvalue_inj 1074 _ _ ltac:(lia) (Prim2SF_valid _)
              (Prim2SF_valid _) Hz Hy Hsame) as [Heq|(s & s' & _ & Hzero)].
  - apply Prim2SF_inj. exact Heq.
  - unfold JS.Math_round at 1. rewrite Hzero. reflexivity.
Qed.

(** Rounding keeps a number on its side of an integral bound. *)
Lemma Math_round_ge (s c : float) :
  JS.Math_round c = c -> JS.ge s c = true -> JS.ge (JS.Math_round s) c = true.
Proof.
  unfold JS.ge. intros Hc H. rewrite <- Hc. apply Math_round_mono. exact H.
Qed.

Lemma Math_round_le (s c : float) :
  JS.Math_round c = c -> (s <=? c) = true -> (JS.Math_round s <=? c) = true.
Proof.
  intros Hc H. rewrite <- Hc. apply Math_round_mono. exact H.
Qed.

Lemma is_finite_SFfin (x : float) :
  is_finite x = true -> SFfin (Prim2SF x).
Proof.
  unfold is_finite, is_infinity. intro H.
  apply negb_true_iff, orb_false_iff in H as [Hn Hi].
  apply is_nan_spec in Hn.
  rewrite eqb_spec, abs_spec in Hi.
  destruct (Prim2SF x) as [s|s| |s m e]; try exact I; try contradiction.
  exfalso. cbn in Hi. discriminate.
Qed.

End NumberFacts.

(** ** The level, the score and the card *)

Import NumberFacts.

Lemma integral_bounds :
  JS.Math_round 80 = 80 /\ JS.Math_round 65 = 65 /\
  JS.Math_round 50 = 50 /\ JS.Math_round 35 = 35.
Proof. vm_compute. repeat split. Qed.

(** The label of a rounded number is the label of the number or the next
    one up in the chain. *)
Lemma getConfidenceLevel_of_rounded (s : float) :
  let l := FeaturesImpl.getConfidenceLevel s in
  let l' := FeaturesImpl.getConfidenceLevel (JS.Math_round s) in
  l' = l \/ level_rank l' = S (level_rank l).
Proof.
  destruct integral_bounds as (R80 & R65 & R50 & R35).
  cbv zeta. unfold FeaturesImpl.getConfidenceLevel.
  destruct (is_nan s) eqn:Hn.
  { apply is_nan_true in Hn.
    assert (H : JS.Math_round s = s)
      by (unfold JS.Math_round; rewrite Hn; reflexivity).
    rewrite H. left. reflexivity. }
  destruct (JS.ge s 80) eqn:H80.
  { rewrite (Math_round_ge s 80 R80 H80). left. reflexivity. }
  pose proof (Math_round_le s 80 R80 (not_ge_le s 80 Hn eq_refl H80)) as L80.
  destruct (JS.ge s 65) eqn:H65.
  { rewrite (Math_round_ge s 65 R65 H65).
    destruct (JS.ge (JS.Math_round s) 80); [right|left]; reflexivity. }
  pose proof (Math_round_le s 65 R65 (not_ge_le s 65 Hn eq_refl H65)) as L65.
  assert (N80 : JS.ge (JS.Math_round s) 80 = false).
  { unfold JS.ge. destruct (80 <=? JS.Math_round s) eqn:E; [|reflexivity].
    pose proof (FloatOrder.leb_trans _ _ _ E L65) as F. discriminate F. }
  rewrite N80.
  destruct (JS.ge s 50) eqn:H50.
  { rewrite (Math_round_ge s 50 R50 H50).
    destruct (JS.ge (JS.Math_round s) 65); [right|left]; reflexivity. }
  pose proof (Math_round_le s 50 R50 (not_ge_le s 50 Hn eq_refl H50)) as L50.
  assert (N65 : JS.ge (JS.Math_round s) 65 = false).
  { unfold JS.ge. destruct (65 <=? JS.Math_round s) eqn:E; [|reflexivity].
    pose proof (FloatOrder.leb_trans _ _ _ E L50) as F. discriminate F. }
  rewrite N65.
  destruct (JS.ge s 35) eqn:H35.
  { rewrite (Math_round_ge s 35 R35 H35).
    destruct (JS.ge (JS.Math_round s) 50); [right|left]; reflexivity. }
  pose proof (Math_round_le s 35 R35 (not_ge_le s 35 Hn eq_refl H35)) as L35.
  assert (N50 : JS.ge (JS.Math_round s) 50 = false).
  { unfold JS.ge. destruct (50 <=? JS.Math_round s) eqn:E; [|reflexivity].
    pose proof (FloatOrder.leb_trans _ _ _ E L35) as F. discriminate F. }
  rewrite N50.
  destruct (JS.ge (JS.Math_round s) 35); [right|left]; reflexivity.
Qed.

Lemma level_of_of_rounded (s : float) :
  let l := CompleteCode.level_of s in
  let l' := CompleteCode.level_of (JS.Math_round s) in
  l' = l \/
  (l = "Confident"%string /\ l' = "Very Confident"%string) \/
  (l = "Moderately Confident"%string /\ l' = "Confident"%string) \/
  (l = "Needs Improvement"%string /\ l' = "Moderately Confident"%string).
Proof.
  destruct integral_bounds as (R80 & R65 & R50 & R35).
  cbv zeta. unfold CompleteCode.level_of.
  destruct (is_nan s) eqn:Hn.
  { apply is_nan_true in Hn.
    assert (H : JS.Math_round s = s)
      by (unfold JS.Math_round; rewrite Hn; reflexivity).
    rewrite H. left. reflexivity. }
  destruct (JS.ge s 80) eqn:H80.
  { rewrite (Math_round_ge s 80 R80 H80). left. reflexivity. }
  pose proof (Math_round_le s 80 R80 (not_ge_le s 80 Hn eq_refl H80)) as L80.
  destruct (JS.ge s 65) eqn:H65.
  { rewrite (Math_round_ge s 65 R65 H65).
    destruct (JS.ge (JS.Math_round s) 80); tauto. }
  pose proof (Math_round_le s 65 R65 (not_ge_le s 65 Hn eq_refl H65)) as L65.
  assert (N80 : JS.ge (JS.Math_round s) 80 = false).
  { unfold JS.ge. destruct (80 <=? JS.Math_round s) eqn:E; [|reflexivity].
    pose proof (FloatOrder.leb_trans _ _ _ E L65) as F. discriminate F. }
  rewrite N80.
  destruct (JS.ge s 50) eqn:H50.
  { rewrite (Math_round_ge s 50 R50 H50).
    destruct (JS.ge (JS.Math_round s) 65); tauto. }
  pose proof (Math_round_le s 50 R50 (not_ge_le s 50 Hn eq_refl H50)) as L50.
  assert (N65 : JS.ge (JS.Math_round s) 65 = false).
  { unfold JS.ge. destruct (65 <=? JS.Math_round s) eqn:E; [|reflexivity].
    pose proof (FloatOrder.leb_trans _ _ _ E L50) as F. discriminate F. }
  rewrite N65.
  destruct (JS.ge (JS.Math_round s) 50); tauto.
Qed.

(** X5: how far the returned level can be from the returned score.  The
    label that the thresholds give to the rounded score is the returned
    level or the next label up, in both implementations: rounding moves a
    sum by less than one band. *)
Theorem label_of_score_is_level_or_next (inputs : ConfidenceInputs) :
  let r := CompleteCode.calculateConfidenceScore inputs in
  let r' := FeaturesImpl.calculateConfidenceScore inputs in
  (CompleteCode.level_of (score r) = level r \/
   (level r = "Confident"%string /\
    CompleteCode.level_of (score r) = "Very Confident"%string) \/
   (level r = "Moderately Confident"%string /\
    CompleteCode.level_of (score r) = "Confident"%string) \/
   (level r = "Needs Improvement"%string /\
    CompleteCode.level_of (score r) = "Moderately Confident"%string)) /\
  (FeaturesImpl.getConfidenceLevel (score r') = level r' \/
   level_rank (FeaturesImpl.getConfidenceLevel (score r')) =
   S (level_rank (level r'))).
Proof.
  cbv zeta. split.
  - apply level_of_of_rounded.
  - apply getConfidenceLevel_of_rounded.
Qed.

(** The colour of a level's band. *)
Lemma colors_of_level (s : float) :
  ScoreCard.colors s =
  (if String.eqb (CompleteCode.level_of s) "Very Confident"
   then "bg-green-500"
   else if String.eqb (CompleteCode.level_of s) "Confident"
   then "bg-blue-500"
   else if String.eqb (CompleteCode.level_of s) "Moderately Confident"
   then "bg-yellow-500"
   else "bg-red-500")%string.
Proof.
  unfold ScoreCard.colors, CompleteCode.level_of.
  destruct (JS.ge s 80); [reflexivity|].
  destruct (JS.ge s 65); [reflexivity|].
  destruct (JS.ge s 50); reflexivity.
Qed.

(** X6: a [ConfidenceScoreCard] that is given the score and the level of
    one result of [calculateConfidenceScore] shows the level on the colour
    of its own band or of the next band up: "Very Confident" is always on
    green, "Confident" on blue or green, "Moderately Confident" on yellow
    or blue, "Less Confident" on red or yellow, and "Needs Improvement" on
    red, or on yellow when the level comes from AI-COMPLETE-CODE.tsx, which
    has no "Less Confident". *)
Theorem card_colour_of_level (inputs : ConfidenceInputs) :
  let r := CompleteCode.calculateConfidenceScore inputs in
  let r' := FeaturesImpl.calculateConfidenceScore inputs in
  let c := ScoreCard.colors (score r) in
  let c' := ScoreCard.getColorClass (score r') in
  (level r = "Very Confident" /\ c = "bg-green-500" \/
   level r = "Confident" /\ (c = "bg-blue-500" \/ c = "bg-green-500") \/
   level r = "Moderately Confident" /\
     (c = "bg-yellow-500" \/ c = "bg-blue-500") \/
   level r = "Needs Improvement" /\
     (c = "bg-red-500" \/ c = "bg-yellow-500"))%string /\
  (level r' = "Very Confident" /\ c' = "bg-green-500" \/
   level r' = "Confident" /\ (c' = "bg-blue-500" \/ c' = "bg-green-500") \/
   level r' = "Moderately Confident" /\
     (c' = "bg-yellow-500" \/ c' = "bg-blue-500") \/
   level r' = "Less Confident" /\
     (c' = "bg-red-500" \/ c' = "bg-yellow-500") \/
   level r' = "Needs Improvement" /\ c' = "bg-red-500")%string.
Proof.
  cbv zeta. split.
  - pose proof (level_of_of_rounded (CompleteCode.weighted_sum inputs)) as H.
    cbv zeta in H. rewrite colors_of_level.
    unfold CompleteCode.calculateConfidenceScore. cbn [score level].
    set (l := CompleteCode.level_of (CompleteCode.weighted_sum inputs)) in *.
    set (l' := CompleteCode.level_of
                 (JS.Math_round (CompleteCode.weighted_sum inputs))) in *.
    assert (Hl : (l = "Very Confident" \/ l = "Confident" \/
                  l = "Moderately Confident" \/
                  l = "Needs Improvement")%string).
    { unfold l, CompleteCode.level_of.
      destruct (JS.ge _ 80); [tauto|].
      destruct (JS.ge _ 65); [tauto|].
      destruct (JS.ge _ 50); tauto. }
    destruct H as [H|[[H1 H2]|[[H1 H2]|[H1 H2]]]].
    + rewrite H.
      destruct Hl as [Hl|[Hl|[Hl|Hl]]]; rewrite Hl; cbn; tauto.
    + rewrite H1, H2. cbn. tauto.
    + rewrite H1, H2. cbn. tauto.
    + rewrite H1, H2. cbn. tauto.
  - unfold FeaturesImpl.calculateConfidenceScore. cbn [score level].
    set (s := FeaturesImpl.weighted_sum inputs).
    destruct integral_bounds as (R80 & R65 & R50 & R35).
    unfold ScoreCard.getColorClass, FeaturesImpl.getConfidenceLevel.
    destruct (is_nan s) eqn:Hn.
    { apply is_nan_true in Hn.
      assert (H : JS.Math_round s = s)
        by (unfold JS.Math_round; rewrite Hn; reflexivity).
      rewrite H. unfold JS.ge. rewrite !leb_spec, Hn.
      do 4 right. split; reflexivity. }
    destruct (JS.ge s 80) eqn:H80.
    { rewrite (Math_round_ge s 80 R80 H80). tauto. }
    pose proof (Math_round_le s 80 R80 (not_ge_le s 80 Hn eq_refl H80)) as L80.
    destruct (JS.ge s 65) eqn:H65.
    { rewrite (Math_round_ge s 65 R65 H65).
      destruct (JS.ge (JS.Math_round s) 80); tauto. }
    pose proof (Math_round_le s 65 R65 (not_ge_le s 65 Hn eq_refl H65)) as L65.
    assert (N80 : JS.ge (JS.Math_round s) 80 = false).
    { unfold JS.ge. destruct (80 <=? JS.Math_round s) eqn:E; [|reflexivity].
      pose proof (FloatOrder.leb_trans _ _ _ E L65) as F. discriminate F. }
    rewrite N80.
    destruct (JS.ge s 50) eqn:H50.
    { rewrite (Math_round_ge s 50 R50 H50).
      destruct (JS.ge (JS.Math_round s) 65); tauto. }
    pose proof (Math_round_le s 50 R50 (not_ge_le s 50 Hn eq_refl H50)) as L50.
    assert (N65 : JS.ge (JS.Math_round s) 65 = false).
    { unfold JS.ge. destruct (65 <=? JS.Math_round s) eqn:E; [|reflexivity].
      pose proof (FloatOrder.leb_trans _ _ _ E L50) as F. discriminate F. }
    rewrite N65.
    destruct (JS.ge s 35) eqn:H35.
    { destruct (JS.ge (JS.Math_round s) 50); tauto. }
    pose proof (Math_round_le s 35 R35 (not_ge_le s 35 Hn eq_refl H35)) as L35.
    assert (N50 : JS.ge (JS.Math_round s) 50 = false).
    { unfold JS.ge. destruct (50 <=? JS.Math_round s) eqn:E; [|reflexivity].
      pose proof (FloatOrder.leb_trans _ _ _ E L35) as F. discriminate F. }
    rewrite N50. tauto.
Qed.

(** X7: the score is integral whenever it is finite: for every input, in
    both implementations, [Math.round] leaves the returned score
    unchanged, and the score is NaN exactly when the unrounded sum is. *)
Theorem score_is_integral (inputs : ConfidenceInputs) :
  let r := CompleteCode.calculateConfidenceScore inputs in
  let r' := FeaturesImpl.calculateConfidenceScore inputs in
  JS.Math_round (score r) = score r /\
  JS.Math_round (score r') = score r' /\
  is_nan (score r) = is_nan (CompleteCode.weighted_sum inputs) /\
  is_nan (score r') = is_nan (FeaturesImpl.weighted_sum inputs).
Proof.
  cbv zeta.
  unfold CompleteCode.calculateConfidenceScore,
    FeaturesImpl.calculateConfidenceScore. cbn [score].
  repeat apply conj;
    first [apply Math_round_idempotent | apply is_nan_Math_round].
Qed.

(** X8: on finite inputs the score is a number: the unrounded sum and the
    score of both implementations are not NaN. *)
Theorem finite_inputs_give_a_number (inputs : ConfidenceInputs) :
  finite_inputs inputs = true ->
  is_nan (CompleteCode.weighted_sum inputs) = false /\
  is_nan (score (CompleteCode.calculateConfidenceScore inputs)) = false /\
  is_nan (score (FeaturesImpl.calculateConfidenceScore inputs)) = false.
Proof.
  unfold finite_inputs. rewrite !andb_true_iff.
  intros [[[[[[H1 H2] H3] H4] H5] H6] H7].
  assert (Hn : is_nan (CompleteCode.weighted_sum inputs) = false)
    by (apply weighted_sum_number; apply is_finite_SFfin; assumption).
  split; [exact Hn|].
  unfold CompleteCode.calculateConfidenceScore,
    FeaturesImpl.calculateConfidenceScore. cbn [score].
  rewrite <- weighted_sums_agree.
  split; apply Math_round_not_nan; exact Hn.
Qed.

Lemma finite_inputs_give_a_number_witness :
  is_nan (score (CompleteCode.calculateConfidenceScore oversized_inputs))
  = false.
Proof.
  apply (finite_inputs_give_a_number oversized_inputs eq_refl).
Defined.

(** X9: on inputs in the documented ranges the score of both
    implementations is an integral number between -5 and 105. *)
Theorem documented_inputs_score_range (inputs : ConfidenceInputs) :
  in_documented_ranges inputs = true ->
  let r := CompleteCode.calculateConfidenceScore inputs in
  let r' := FeaturesImpl.calculateConfidenceScore inputs in
  between (-5) 105 (score r) = true /\ JS.Math_round (score r) = score r /\
  between (-5) 105 (score r') = true /\ JS.Math_round (score r') = score r'.
Proof.
  intros H r r'.
  destruct (score_between_minus_5_and_105 inputs H) as (_ & _ & H1 & H2).
  repeat apply conj; try assumption;
    unfold r, r', CompleteCode.calculateConfidenceScore,
      FeaturesImpl.calculateConfidenceScore; cbn [score];
    apply Math_round_idempotent.
Qed.

Lemma documented_inputs_score_range_witness :
  between (-5) 105
    (score (CompleteCode.calculateConfidenceScore example_inputs)) = true.
Proof.
  apply (documented_inputs_score_range example_inputs eq_refl).
Defined.

(** X10: the normalization reaches 0-100 when [emotionPositivity] lies
    between -50 and 50: with the other six inputs between 0 and 100, the
    unrounded sum lies between 0 and 100 and the score of both
    implementations is an integer between 0 and 100. *)
Theorem normalizing_inputs_score_range (inputs : ConfidenceInputs) :
  in_normalizing_ranges inputs = true ->
  between 0 100 (CompleteCode.weighted_sum inputs) = true /\
  integer_in_0_100 (score (CompleteCode.calculateConfidenceScore inputs))
  = true /\
  integer_in_0_100 (score (FeaturesImpl.calculateConfidenceScore inputs))
  = true.
Proof.
  intro H. unfold in_normalizing_ranges in H.
  rewrite !andb_true_iff in H.
  destruct H as [[[[[[H1 H2] H3] H4] H5] H6] H7].
  set (sum := CompleteCode.weighted_sum inputs).
  assert (Hn : is_nan sum = false).
  { apply weighted_sum_number;
      first [apply (between_finite 0 100); [exact I | exact I | assumption]
            |apply (between_finite (-50) 50); [exact I | exact I | assumption]]. }
  unfold between in H1, H2, H3, H4, H5, H6, H7.
  rewrite andb_true_iff in H1, H2, H3, H4, H5, H6, H7.
  assert (Hlo : (0 <=? sum) = true).
  { change 0 with (CompleteCode.weighted_sum zero_inputs).
    apply weighted_sum_mono; try exact Hn; try reflexivity;
      cbn [zero_inputs voiceVolume voiceStability pauseFrequency
           facialConfidence emotionPositivity answerQuality answerCompleteness];
      tauto. }
  assert (Hhi : (sum <=? 100) = true).
  { change 100 with (CompleteCode.weighted_sum hundred_inputs).
    apply weighted_sum_mono; try exact Hn; try reflexivity;
      cbn [hundred_inputs voiceVolume voiceStability pauseFrequency
           facialConfidence emotionPositivity answerQuality answerCompleteness];
      tauto. }
  assert (Hs : integer_in_0_100 (JS.Math_round sum) = true).
  { unfold integer_in_0_100, between. rewrite !andb_true_iff.
    repeat apply conj.
    - change 0 with (JS.Math_round 0). apply Math_round_mono. exact Hlo.
    - change 100 with (JS.Math_round 100). apply Math_round_mono. exact Hhi.
    - rewrite Math_round_idempotent.
      apply Leibniz.eqb_spec. reflexivity. }
  split; [unfold between; rewrite Hlo, Hhi; reflexivity|].
  split; [exact Hs|].
  unfold FeaturesImpl.calculateConfidenceScore. cbn [score].
  rewrite <- weighted_sums_agree. exact Hs.
Qed.

Lemma normalizing_inputs_score_range_witness :
  integer_in_0_100 (score (CompleteCode.calculateConfidenceScore example_inputs))
  = true.
Proof.
  apply (normalizing_inputs_score_range example_inputs eq_refl).
Defined.

(** ** The level is monotone *)

(** A sum that is NaN is the sum of an infinity and the opposite one. *)
Lemma add_nan_inv (a b : float) :
  is_nan a = false -> is_nan b = false -> is_nan (a + b) = true ->
  exists s, Prim2SF a = S754_infinity s /\ Prim2SF b = S754_infinity (negb s).
Proof.
  intros Ha Hb H. apply is_nan_true in H.
  apply is_nan_spec in Ha. apply is_nan_spec in Hb.
  pose proof (Prim2SF_valid a) as Va. pose proof (Prim2SF_valid b) as Vb.
  rewrite add_spec in H.
  destruct (Prim2SF a) as [sa|sa| |sa ma ea] eqn:Ea,
           (Prim2SF b) as [sb|sb| |sb mb eb] eqn:Eb;
    try contradiction;
    try (exfalso;
         apply (SFadd_val 1074 _ _ ltac:(lia) Va Vb I I); exact H);
    unfold SF64add in H; cbn [SFadd] in H; try discriminate H.
  exists sa. destruct sa, sb; try discriminate H; split; reflexivity.
Qed.

Lemma leb_neg_infinity_r (t t' : float) :
  (t <=? t') = true -> Prim2SF t' = S754_infinity true ->
  Prim2SF t = S754_infinity true.
Proof.
  rewrite leb_spec. intros H Ht'. rewrite Ht' in H.
  destruct (Prim2SF t) as [s|[|]| |[|] m e]; try discriminate H; reflexivity.
Qed.

Lemma leb_pos_infinity_l (t t' : float) :
  (t <=? t') = true -> Prim2SF t = S754_infinity false ->
  Prim2SF t' = S754_infinity false.
Proof.
  rewrite leb_spec. intros H Ht. rewrite Ht in H.
  destruct (Prim2SF t') as [s|[|]| |[|] m e]; try discriminate H; reflexivity.
Qed.

Lemma add_neg_infinity (p t : float) :
  Prim2SF p = S754_infinity true \/ Prim2SF t = S754_infinity true ->
  is_nan (p + t) = false -> Prim2SF (p + t) = S754_infinity true.
Proof.
  intros H Hn. apply is_nan_spec in Hn. rewrite add_spec in *.
  unfold SF64add in *.
  destruct H as [H|H]; rewrite H in *.
  - destruct (Prim2SF t) as [s|[|]| |s m e]; cbn [SFadd] in *;
      try reflexivity; contradiction.
  - destruct (Prim2SF p) as [s|[|]| |s m e]; cbn [SFadd] in *;
      try reflexivity; contradiction.
Qed.

(** One step of the accumulation: the partial sums stay ordered, unless
    the lower one has reached [-Infinity]. *)
Lemma add_step (p p' t t' : float) :
  is_nan (p + t) = false -> (t <=? t') = true ->
  (p <=? p') = true \/ Prim2SF p = S754_infinity true ->
  (p + t <=? p' + t') = true \/ Prim2SF (p + t) = S754_infinity true.
Proof.
  intros Hn Ht [Hp|Hp].
  - destruct (is_nan (p' + t')) eqn:Hn'.
    + right.
      destruct (leb_not_nan _ _ Ht) as [_ Ht'].
      destruct (leb_not_nan _ _ Hp) as [_ Hp'].
      apply is_nan_spec in Ht', Hp'.
      destruct (add_nan_inv p' t' Hp' Ht' Hn') as ([|] & E1 & E2);
        cbn [negb] in E2.
      * apply add_neg_infinity; [|exact Hn]. left.
        apply (leb_neg_infinity_r p p' Hp E1).
      * apply add_neg_infinity; [|exact Hn]. right.
        apply (leb_neg_infinity_r t t' Ht E2).
    + left. apply add_le_mono; assumption.
  - right. apply add_neg_infinity; [left; exact Hp | exact Hn].
Qed.

Lemma weighted_sum_of_mono_or_neg_infinity (n n' : Metrics) :
  (voiceVolume n <=? voiceVolume n') = true ->
  (voiceStability n <=? voiceStability n') = true ->
  (pauseFrequency n <=? pauseFrequency n') = true ->
  (facialConfidence n <=? facialConfidence n') = true ->
  (emotionPositivity n <=? emotionPositivity n') = true ->
  (answerQuality n <=? answerQuality n') = true ->
  (answerCompleteness n <=? answerCompleteness n') = true ->
  is_nan (weighted_sum_of n) = false ->
  (weighted_sum_of n <=? weighted_sum_of n') = true \/
  Prim2SF (weighted_sum_of n) = S754_infinity true.
Proof.
  intros H1 H2 H3 H4 H5 H6 H7 Hn. unfold weighted_sum_of in *.
  repeat (apply add_step;
          [exact Hn
          |apply times_weight_mono; [tauto|assumption]
          |apply add_not_nan in Hn; destruct Hn as [Hn _]]).
  left. reflexivity.
Qed.

Lemma sub_number (a x : float) :
  SFfin (Prim2SF a) -> is_nan x = false -> is_nan (a - x) = false.
Proof.
  rewrite !is_nan_spec, sub_spec. unfold SF64sub.
  destruct (Prim2SF a) as [?|?| |? ? ?] eqn:Ea; try contradiction;
    intros _ Hx.
  - destruct (Prim2SF x) as [[|]|?| |? ? ?]; try contradiction;
      destruct s; cbn; discriminate.
  - pose proof (Prim2SF_valid a) as Va. rewrite Ea in Va.
    pose proof (Prim2SF_valid x) as Vx.
    destruct (Prim2SF x) as [sx|sx| |sx mx ex] eqn:Ex; try contradiction;
      try (cbn [SFsub]; discriminate).
    change (SFsub prec emax (S754_finite s m e) (S754_finite sx mx ex))
      with (SF64sub (S754_finite s m e) (S754_finite sx mx ex)).
    rewrite SFsub_add_opp.
    apply (SFadd_val 1074); try assumption; try lia; try exact I.
Qed.

Lemma add_number (x a : float) :
  SFfin (Prim2SF a) -> is_nan x = false -> is_nan (x + a) = false.
Proof.
  rewrite !is_nan_spec, add_spec. intros Ha Hx.
  pose proof (Prim2SF_valid a) as Va. pose proof (Prim2SF_valid x) as Vx.
  destruct (Prim2SF x) as [sx|sx| |sx mx ex] eqn:Ex; try contradiction.
  - apply (SFadd_val 1074); try assumption; try lia; exact I.
  - destruct (Prim2SF a) as [?|?| |? ? ?]; try contradiction; discriminate.
  - apply (SFadd_val 1074); try assumption; try lia; exact I.
Qed.

Lemma weighted_sum_mono_or_neg_infinity (i i' : ConfidenceInputs) :
  (voiceVolume i <=? voiceVolume i') = true ->
  (voiceStability i <=? voiceStability i') = true ->
  (pauseFrequency i' <=? pauseFrequency i) = true ->
  (facialConfidence i <=? facialConfidence i') = true ->
  (emotionPositivity i <=? emotionPositivity i') = true ->
  (answerQuality i <=? answerQuality i') = true ->
  (answerCompleteness i <=? answerCompleteness i') = true ->
  is_nan (CompleteCode.weighted_sum i) = false ->
  (CompleteCode.weighted_sum i <=? CompleteCode.weighted_sum i') = true \/
  Prim2SF (CompleteCode.weighted_sum i) = S754_infinity true.
Proof.
  intros H1 H2 H3 H4 H5 H6 H7 Hn.
  destruct (sum_not_nan_inputs i Hn) as (_ & _ & _ & _ & _ & _ & _ & Hp & He).
  destruct (leb_not_nan _ _ H3) as [Hp' _]. apply is_nan_spec in Hp'.
  destruct (leb_not_nan _ _ H5) as [_ He']. apply is_nan_spec in He'.
  rewrite !weighted_sum_unfolded in *.
  apply weighted_sum_of_mono_or_neg_infinity;
    cbn [CompleteCode.normalized voiceVolume voiceStability pauseFrequency
         facialConfidence emotionPositivity answerQuality answerCompleteness];
    try assumption.
  - apply sub_le_anti; try assumption. apply sub_number; [exact I|assumption].
  - apply add_le_mono; try assumption; try reflexivity.
    apply add_number; [exact I|assumption].
Qed.

Lemma getConfidenceLevel_rank_mono (s s' : float) :
  (s <=? s') = true \/ Prim2SF s = S754_infinity true ->
  (level_rank (FeaturesImpl.getConfidenceLevel s) <=
   level_rank (FeaturesImpl.getConfidenceLevel s'))%nat.
Proof.
  intros [H|H].
  - unfold FeaturesImpl.getConfidenceLevel, JS.ge.
    destruct (80 <=? s) eqn:H80.
    { rewrite (FloatOrder.leb_trans _ _ _ H80 H). apply le_n. }
    destruct (65 <=? s) eqn:H65.
    { rewrite (FloatOrder.leb_trans _ _ _ H65 H).
      destruct (80 <=? s'); cbn; lia. }
    destruct (50 <=? s) eqn:H50.
    { rewrite (FloatOrder.leb_trans _ _ _ H50 H).
      destruct (80 <=? s'), (65 <=? s'); cbn; lia. }
    destruct (35 <=? s) eqn:H35.
    { rewrite (FloatOrder.leb_trans _ _ _ H35 H).
      destruct (80 <=? s'), (65 <=? s'), (50 <=? s'); cbn; lia. }
    cbn. lia.
  - assert (E : FeaturesImpl.getConfidenceLevel s = "Needs Improvement"%string).
    { unfold FeaturesImpl.getConfidenceLevel, JS.ge.
      rewrite !leb_spec, H. reflexivity. }
    rewrite E. cbn. lia.
Qed.

Lemma level_of_rank_mono (s s' : float) :
  (s <=? s') = true \/ Prim2SF s = S754_infinity true ->
  (level_rank (CompleteCode.level_of s) <=
   level_rank (CompleteCode.level_of s'))%nat.
Proof.
  intros [H|H].
  - unfold CompleteCode.level_of, JS.ge.
    destruct (80 <=? s) eqn:H80.
    { rewrite (FloatOrder.leb_trans _ _ _ H80 H). apply le_n. }
    destruct (65 <=? s) eqn:H65.
    { rewrite (FloatOrder.leb_trans _ _ _ H65 H).
      destruct (80 <=? s'); cbn; lia. }
    destruct (50 <=? s) eqn:H50.
    { rewrite (FloatOrder.leb_trans _ _ _ H50 H).
      destruct (80 <=? s'), (65 <=? s'); cbn; lia. }
    cbn. lia.
  - assert (E : CompleteCode.level_of s = "Needs Improvement"%string).
    { unfold CompleteCode.level_of, JS.ge.
      rewrite !leb_spec, H. reflexivity. }
    rewrite E. cbn. lia.
Qed.

(** The level of a sum that is NaN is the lowest one. *)
Lemma level_of_nan (s : float) :
  is_nan s = true ->
  CompleteCode.level_of s = "Needs Improvement"%string /\
  FeaturesImpl.getConfidenceLevel s = "Needs Improvement"%string.
Proof.
  intro H. apply is_nan_true in H.
  unfold CompleteCode.level_of, FeaturesImpl.getConfidenceLevel, JS.ge.
  rewrite !leb_spec, H. split; reflexivity.
Qed.

Lemma levels_mono (i i' : ConfidenceInputs) :
  (voiceVolume i <=? voiceVolume i') = true \/ voiceVolume i = voiceVolume i' ->
  (voiceStability i <=? voiceStability i') = true \/
    voiceStability i = voiceStability i' ->
  (pauseFrequency i' <=? pauseFrequency i) = true \/
    pauseFrequency i = pauseFrequency i' ->
  (facialConfidence i <=? facialConfidence i') = true \/
    facialConfidence i = facialConfidence i' ->
  (emotionPositivity i <=? emotionPositivity i') = true \/
    emotionPositivity i = emotionPositivity i' ->
  (answerQuality i <=? answerQuality i') = true \/
    answerQuality i = answerQuality i' ->
  (answerCompleteness i <=? answerCompleteness i') = true \/
    answerCompleteness i = answerCompleteness i' ->
  (level_rank (level (CompleteCode.calculateConfidenceScore i)) <=
   level_rank (level (CompleteCode.calculateConfidenceScore i')))%nat /\
  (level_rank (level (FeaturesImpl.calculateConfidenceScore i)) <=
   level_rank (level (FeaturesImpl.calculateConfidenceScore i')))%nat.
Proof.
  intros H1 H2 H3 H4 H5 H6 H7.
  unfold CompleteCode.calculateConfidenceScore,
    FeaturesImpl.calculateConfidenceScore. cbn [level].
  rewrite <- !weighted_sums_agree.
  destruct (is_nan (CompleteCode.weighted_sum i)) eqn:Hn.
  { destruct (level_of_nan _ Hn) as [E1 E2]. rewrite E1, E2.
    split; cbn; lia. }
  destruct (sum_not_nan_inputs i Hn) as (N1 & N2 & N3 & N4 & N5 & N6 & N7 & _).
  assert (Hle : forall a b : float, is_nan a = false ->
            (a <=? b) = true \/ a = b -> (a <=? b) = true).
  { intros a b Ha [H| <-]; [exact H | apply leb_refl; exact Ha]. }
  assert (Hle' : forall a b : float, is_nan a = false ->
            (b <=? a) = true \/ a = b -> (b <=? a) = true).
  { intros a b Ha [H| <-]; [exact H | apply leb_refl; exact Ha]. }
  pose proof (weighted_sum_mono_or_neg_infinity i i'
                (Hle _ _ N1 H1) (Hle _ _ N2 H2) (Hle' _ _ N3 H3)
                (Hle _ _ N4 H4) (Hle _ _ N5 H5) (Hle _ _ N6 H6)
                (Hle _ _ N7 H7) Hn) as H.
  split; [apply level_of_rank_mono | apply getConfidenceLevel_rank_mono];
    exact H.
Qed.

Ltac level_field :=
  let inputs := fresh "inputs" in
  let x := fresh "x" in
  let x' := fresh "x'" in
  let Hle := fresh "Hle" in
  intros inputs x x' Hle;
  first [refine (proj1 (levels_mono _ _ _ _ _ _ _ _ _))
        |refine (proj2 (levels_mono _ _ _ _ _ _ _ _ _))];
  cbn [with_voiceVolume with_voiceStability with_pauseFrequency
       with_facialConfidence with_emotionPositivity with_answerQuality
       with_answerCompleteness voiceVolume voiceStability pauseFrequency
       facialConfidence emotionPositivity answerQuality answerCompleteness];
  first [left; exact Hle | right; reflexivity].

(** X11: the level never drops when an input improves.  Holding the other
    six inputs fixed, raising voiceVolume, voiceStability,
    facialConfidence, emotionPositivity, answerQuality or
    answerCompleteness never moves the returned level to a lower label,
    and raising pauseFrequency never moves it to a higher one; this holds
    for every number, the infinities and NaN among the other inputs
    included, in both implementations. *)
Theorem level_never_drops :
  (level_nondecreasing_in with_voiceVolume
     CompleteCode.calculateConfidenceScore /\
   level_nondecreasing_in with_voiceStability
     CompleteCode.calculateConfidenceScore /\
   level_nonincreasing_in with_pauseFrequency
     CompleteCode.calculateConfidenceScore /\
   level_nondecreasing_in with_facialConfidence
     CompleteCode.calculateConfidenceScore /\
   level_nondecreasing_in with_emotionPositivity
     CompleteCode.calculateConfidenceScore /\
   level_nondecreasing_in with_answerQuality
     CompleteCode.calculateConfidenceScore /\
   level_nondecreasing_in with_answerCompleteness
     CompleteCode.calculateConfidenceScore) /\
  (level_nondecreasing_in with_voiceVolume
     FeaturesImpl.calculateConfidenceScore /\
   level_nondecreasing_in with_voiceStability
     FeaturesImpl.calculateConfidenceScore /\
   level_nonincreasing_in with_pauseFrequency
     FeaturesImpl.calculateConfidenceScore /\
   level_nondecreasing_in with_facialConfidence
     FeaturesImpl.calculateConfidenceScore /\
   level_nondecreasing_in with_emotionPositivity
     FeaturesImpl.calculateConfidenceScore /\
   level_nondecreasing_in with_answerQuality
     FeaturesImpl.calculateConfidenceScore /\
   level_nondecreasing_in with_answerCompleteness
     FeaturesImpl.calculateConfidenceScore).
Proof.
  unfold level_nondecreasing_in, level_nonincreasing_in.
  repeat apply conj; level_field.
Qed.

Lemma level_never_drops_witness :
  Nat.le
    (level_rank
       (level (FeaturesImpl.calculateConfidenceScore
                 (with_answerQuality 10 example_inputs))))
    (level_rank
       (level (FeaturesImpl.calculateConfidenceScore
                 (with_answerQuality 90 example_inputs)))).
Proof.
  destruct level_never_drops as [_ (_ & _ & _ & _ & _ & H & _)].
  apply (H example_inputs 10 90 eq_refl).
Defined.

(** X12: the breakdown on inputs in the documented ranges: the inverted
    pauseFrequency lies between 0 and 100, the shifted emotionPositivity
    between -50 and 150 (not between 0 and 100), and the other five
    entries are the inputs, between 0 and 100. *)
Theorem breakdown_ranges (inputs : ConfidenceInputs) :
  in_documented_ranges inputs = true ->
  let b := breakdown (CompleteCode.calculateConfidenceScore inputs) in
  let b' := breakdown (FeaturesImpl.calculateConfidenceScore inputs) in
  b' = b /\
  between 0 100 (voiceVolume b) = true /\
  between 0 100 (voiceStability b) = true /\
  between 0 100 (pauseFrequency b) = true /\
  between 0 100 (facialConfidence b) = true /\
  between (-50) 150 (emotionPositivity b) = true /\
  between 0 100 (answerQuality b) = true /\
  between 0 100 (answerCompleteness b) = true.
Proof.
  intros H b b'. subst b b'.
  unfold in_documented_ranges in H. rewrite !andb_true_iff in H.
  destruct H as [[[[[[H1 H2] H3] H4] H5] H6] H7].
  unfold CompleteCode.calculateConfidenceScore,
    FeaturesImpl.calculateConfidenceScore.
  cbn [breakdown CompleteCode.normalized FeaturesImpl.normalizedInputs
       voiceVolume voiceStability pauseFrequency facialConfidence
       emotionPositivity answerQuality answerCompleteness].
  repeat apply conj; try assumption.
  - reflexivity.
  - unfold between in *. rewrite andb_true_iff in *.
    destruct H3 as [Hlo Hhi].
    destruct (leb_not_nan _ _ Hlo) as [_ Hp]. apply is_nan_spec in Hp.
    split.
    + change 0 with (100 - 100).
      apply sub_le_anti; try assumption; try reflexivity.
      apply sub_number; [exact I|assumption].
    + change 100 with (100 - 0) at 2.
      apply sub_le_anti; try assumption; try reflexivity.
      apply sub_number; [exact I|assumption].
  - unfold between in *. rewrite andb_true_iff in *.
    destruct H5 as [Hlo Hhi].
    destruct (leb_not_nan _ _ Hlo) as [_ Hp]. apply is_nan_spec in Hp.
    split.
    + change (-50) with (-100 + 50).
      apply add_le_mono; try assumption; try reflexivity.
      apply add_number; [exact I|assumption].
    + change 150 with (100 + 50).
      apply add_le_mono; try assumption; try reflexivity.
      apply add_number; [exact I|assumption].
Qed.

Lemma breakdown_ranges_witness :
  between (-50) 150
    (emotionPositivity
       (breakdown (CompleteCode.calculateConfidenceScore highest_inputs)))
  = true.
Proof.
  apply (breakdown_ranges highest_inputs eq_refl).
Defined.

(** X13: the levels of the two implementations.  For every input they
    return the same level, except when the unrounded sum is at least 35
    and not at least 50: there [getConfidenceLevel] answers
    "Less Confident" and the conditional chain of AI-COMPLETE-CODE.tsx,
    which has no such arm, "Needs Improvement". *)
Theorem levels_agree_outside_one_band (inputs : ConfidenceInputs) :
  let r := CompleteCode.calculateConfidenceScore inputs in
  let r' := FeaturesImpl.calculateConfidenceScore inputs in
  let s := CompleteCode.weighted_sum inputs in
  (JS.ge s 50 = true \/ JS.ge s 35 = false) /\ level r = level r' \/
  (JS.ge s 50 = false /\ JS.ge s 35 = true) /\
  level r = "Needs Improvement"%string /\
  level r' = "Less Confident"%string.
Proof.
  cbv zeta.
  unfold CompleteCode.calculateConfidenceScore,
    FeaturesImpl.calculateConfidenceScore. cbn [level].
  rewrite <- weighted_sums_agree.
  set (s := CompleteCode.weighted_sum inputs).
  unfold CompleteCode.level_of, FeaturesImpl.getConfidenceLevel.
  destruct (JS.ge s 80) eqn:H80.
  { left. split; [|reflexivity]. left.
    unfold JS.ge in *. apply (FloatOrder.leb_trans 50 80 s eq_refl H80). }
  destruct (JS.ge s 65) eqn:H65.
  { left. split; [|reflexivity]. left.
    unfold JS.ge in *. apply (FloatOrder.leb_trans 50 65 s eq_refl H65). }
  destruct (JS.ge s 50) eqn:H50.
  { left. split; [|reflexivity]. left. reflexivity. }
  destruct (JS.ge s 35) eqn:H35.
  - right. repeat split.
  - left. split; [|reflexivity]. right. reflexivity.
Qed.

(** ** Facts of binary64 division *)

Module QuotientFacts.

Import Binary64 Binary64Facts Binary64Quotient.

#[local] Open Scope Z_scope.

(** *** The location of a remainder *)

Lemma new_location_inv (D q r : Z) :
  0 < D -> 0 <= q -> 0 <= r < D ->
  shr_inv (q * D + r) D (shr_record_of_loc q (new_location D r)).
Proof.
  intros HD Hq Hr. unfold shr_inv, new_location.
  assert (Hrho : q * D + r - q * D = r) by lia.
  destruct (Z.even D) eqn:Hev.
  - unfold new_location_even.
    destruct (Z.eqb_spec r 0) as [->|Hr0].
    + cbn [shr_record_of_loc shr_m shr_r shr_s loc_ok].
      rewrite !Hrho. lia.
    + destruct (Z.compare_spec (2 * r) D) as [H|H|H];
        cbn [shr_record_of_loc shr_m shr_r shr_s loc_ok];
        rewrite !Hrho; lia.
  - unfold new_location_odd.
    rewrite Zeven_mod in Hev. apply Z.eqb_neq in Hev.
    pose proof (Z.div_mod D 2 ltac:(lia)) as Hdm.
    pose proof (Z.mod_pos_bound D 2 ltac:(lia)) as Hmb.
    set (h := D / 2) in *. set (b := D mod 2) in *.
    destruct (Z.eqb_spec r 0) as [->|Hr0].
    + cbn [shr_record_of_loc shr_m shr_r shr_s loc_ok].
      rewrite !Hrho. lia.
    + destruct (Z.compare_spec (2 * r + 1) D) as [H|H|H];
        cbn [shr_record_of_loc shr_m shr_r shr_s loc_ok];
        rewrite !Hrho; lia.
Qed.

Lemma shr_record_of_loc_m (m : Z) (l : location) :
  shr_m (shr_record_of_loc m l) = m.
Proof. destruct l as [|[| |]]; reflexivity. Qed.

Lemma shr_fexp_loc (m : Z) (l : location) (e X U : Z) :
  let E := fexp prec emax (Zdigits2 m + e) in
  e <= E -> shr_inv X U (shr_record_of_loc m l) ->
  exists mrs,
    shr_fexp prec emax m e l = (mrs, E) /\
    shr_inv X (U * 2 ^ (E - e)) mrs.
Proof.
  intros E HE Hinv. unfold shr_fexp. fold E. unfold shr.
  destruct (E - e) as [|k|k] eqn:Hn; try lia.
  - eexists; split; [f_equal; lia|].
    rewrite Z.pow_0_r, Z.mul_1_r. exact Hinv.
  - eexists; split; [f_equal; lia|].
    apply iter_shr_1_inv. exact Hinv.
Qed.

Lemma Zdigits2_bounds (m : Z) :
  0 <= m -> 0 <= Zdigits2 m /\ m < 2 ^ Zdigits2 m /\
  (0 < m -> 2 ^ (Zdigits2 m - 1) <= m).
Proof.
  intro Hm. destruct m as [|p|p]; cbn [Zdigits2].
  - split; [lia|]. split; [reflexivity|lia].
  - pose proof (digits2_pos_bounds p). lia.
  - lia.
Qed.

Lemma rne_loc_bounds (m e X U : Z) (mrs : shr_record) :
  let E := fexp prec emax (Zdigits2 m + e) in
  e <= E -> shr_inv X U mrs -> shr_m mrs = m ->
  let M := rne X (U * 2 ^ (E - e)) in
  0 <= M <= 2 ^ 53 /\ (-1074 < E -> 2 ^ 52 <= M).
Proof.
  intros E HE Hinv Hm M.
  destruct (shr_inv_div X U mrs Hinv) as [Hq _].
  destruct Hinv as (Hm0 & HU & _ & _). subst m.
  set (m := shr_m mrs) in *.
  destruct (Zdigits2_bounds m Hm0) as (Hd0 & Hhi & Hlo).
  set (d := Zdigits2 m) in *.
  assert (HEeq : E = Z.max (d + e - 53) (-1074)) by reflexivity.
  set (n := E - e) in *.
  assert (Hn : 0 <= n) by (unfold n; lia).
  assert (HW : 0 < 2 ^ n) by (apply pow2_pos; lia).
  assert (HUW : 0 < U * 2 ^ n) by nia.
  pose proof (rne_bounds X (U * 2 ^ n) HUW) as HM. fold M in HM.
  assert (Hdiv : X / (U * 2 ^ n) = m / 2 ^ n).
  { rewrite <- Z.div_div by lia. rewrite <- Hq. reflexivity. }
  rewrite Hdiv in HM.
  assert (Hq0 : 0 <= m / 2 ^ n) by (apply Z.div_pos; lia).
  assert (Hq1 : m / 2 ^ n < 2 ^ 53).
  { apply Z.div_lt_upper_bound; [lia|].
    rewrite <- Z.pow_add_r by lia.
    apply Z.lt_le_trans with (2 ^ d); [assumption|].
    apply Z.pow_le_mono_r; unfold n; lia. }
  split; [lia|].
  intro HEgt.
  assert (Hmpos : 0 < m).
  { destruct (Z.eq_dec m 0) as [H0|H0]; [|lia].
    exfalso. unfold d in HEeq. rewrite H0 in HEeq.
    cbn [Zdigits2] in HEeq. lia. }
  specialize (Hlo Hmpos).
  assert (Hq2 : 2 ^ 52 <= m / 2 ^ n).
  { apply Z.div_le_lower_bound; [lia|].
    rewrite <- Z.pow_add_r by lia.
    replace (n + 52) with (d - 1) by (unfold n; lia). assumption. }
  lia.
Qed.

Lemma binary_round_aux_loc_unscaled
  (s : bool) (m : Z) (l : location) (e X U : Z) :
  let E := fexp prec emax (Zdigits2 m + e) in
  e <= E -> shr_inv X U (shr_record_of_loc m l) ->
  let M := rne X (U * 2 ^ (E - e)) in
  binary_round_aux prec emax s m e l =
  if M =? 0 then S754_zero s
  else if M =? 2 ^ 53
       then (if E + 1 <=? 971 then S754_finite s (Z.to_pos (2 ^ 52)) (E + 1)
             else S754_infinity s)
       else (if E <=? 971 then S754_finite s (Z.to_pos M) E
             else S754_infinity s).
Proof.
  intros E HE Hinv M.
  destruct (shr_fexp_loc m l e X U HE Hinv) as (mrs & Hshr & Hinv').
  fold E in Hshr, Hinv'.
  assert (Hm : shr_m (shr_record_of_loc m l) = m)
    by apply shr_record_of_loc_m.
  destruct (rne_loc_bounds m e X U _ HE Hinv Hm) as [HM _]. fold E M in HM.
  unfold binary_round_aux. rewrite Hshr.
  rewrite (round_nearest_even_rne _ _ _ Hinv'). fold M.
  assert (HEmin : -1074 <= E) by (unfold E; rewrite fexp64_eq; lia).
  rewrite (shr_fexp_second M E HEmin HM).
  destruct (Z.eqb_spec M (2 ^ 53)) as [HM53|HM53].
  - rewrite HM53. reflexivity.
  - cbn [shr_m]. destruct M as [|pm|pm]; try lia; reflexivity.
Qed.

Lemma binary_round_aux_loc_val
  (s : bool) (m : Z) (l : location) (e X U K : Z) :
  let E := fexp prec emax (Zdigits2 m + e) in
  e <= E -> shr_inv X U (shr_record_of_loc m l) -> 1074 <= K ->
  let M := rne X (U * 2 ^ (E - e)) in
  let R := binary_round_aux prec emax s m e l in
  SFsign s R /\
  SFvalue K R = cond_Zopp s (Z.min (M * 2 ^ (E + K)) (Omega K)).
Proof.
  intros E HE Hinv HK M R.
  pose proof (binary_round_aux_loc_unscaled s m l e X U HE Hinv) as HR.
  assert (Hm : shr_m (shr_record_of_loc m l) = m)
    by apply shr_record_of_loc_m.
  destruct (rne_loc_bounds m e X U _ HE Hinv Hm) as [HM HM52].
  cbv zeta in HR. fold E M in HR, HM, HM52. fold R in HR.
  assert (HEmin : -1074 <= E) by (unfold E; rewrite fexp64_eq; lia).
  set (W := 2 ^ (E + K)).
  assert (HW : 0 < W) by (apply pow2_pos; lia).
  unfold Omega.
  destruct (Z.eqb_spec M 0) as [HM0|HM0].
  { rewrite HR. split; [reflexivity|].
    cbn [SFvalue]. rewrite HM0.
    assert (0 < 2 ^ (1024 + K)) by (apply pow2_pos; lia).
    rewrite Z.min_l by lia. destruct s; reflexivity. }
  destruct (Z.eqb_spec M (2 ^ 53)) as [HM53|HM53].
  { destruct (Z.leb_spec (E + 1) 971) as [HE1|HE1]; rewrite HR.
    - split; [reflexivity|]. cbn [SFvalue]. f_equal.
      rewrite Z2Pos.id by lia.
      replace (E + 1 + K) with (Z.succ (E + K)) by lia.
      rewrite Z.pow_succ_r by lia. fold W.
      rewrite (pow2_split (E + K) (1024 + K)) by lia. fold W.
      assert (2 ^ 54 <= 2 ^ (1024 + K - (E + K)))
        by (apply Z.pow_le_mono_r; lia).
      rewrite Z.min_l by nia. lia.
    - split; [reflexivity|]. cbn [SFvalue]. f_equal. unfold Omega.
      unfold W. rewrite (pow2_split (971 + K) (E + K)) by lia.
      replace (1024 + K) with (53 + (971 + K)) by lia.
      rewrite Z.pow_add_r by lia.
      assert (1 <= 2 ^ (E + K - (971 + K)))
        by (pose proof (pow2_pos (E + K - (971 + K))); lia).
      assert (0 < 2 ^ (971 + K)) by (apply pow2_pos; lia).
      rewrite Z.min_r by nia. reflexivity. }
  destruct (Z.leb_spec E 971) as [HE1|HE1]; rewrite HR.
  - split; [reflexivity|]. cbn [SFvalue]. f_equal.
    rewrite Z2Pos.id by lia. fold W.
    rewrite (pow2_split (E + K) (1024 + K)) by lia. fold W.
    assert (2 ^ 53 <= 2 ^ (1024 + K - (E + K)))
      by (apply Z.pow_le_mono_r; lia).
    rewrite Z.min_l by nia. reflexivity.
  - split; [reflexivity|]. cbn [SFvalue]. f_equal. unfold Omega.
    specialize (HM52 ltac:(lia)).
    unfold W. rewrite (pow2_split (972 + K) (E + K)) by lia.
    replace (1024 + K) with (52 + (972 + K)) by lia.
    rewrite Z.pow_add_r by lia.
    assert (1 <= 2 ^ (E + K - (972 + K)))
      by (pose proof (pow2_pos (E + K - (972 + K))); lia).
    assert (0 < 2 ^ (972 + K)) by (apply pow2_pos; lia).
    assert (2 ^ 52 <= M * 2 ^ (E + K - (972 + K))) by nia.
    rewrite Z.mul_assoc.
    rewrite Z.min_r by (apply Z.mul_le_mono_nonneg_r; lia). reflexivity.
Qed.

End QuotientFacts.

Module DivisionFacts.

Import Binary64 Binary64Facts Binary64Quotient QuotientFacts.

#[local] Open Scope Z_scope.

(** *** The value of a quotient *)

Lemma log2_div_pow2 (a b j : Z) :
  0 < b -> 1 <= a / b -> 0 <= j ->
  Z.log2 (a * 2 ^ j / b) = Z.log2 (a / b) + j.
Proof.
  intros Hb Hq Hj.
  pose proof (Z.div_mod a b ltac:(lia)) as Hdm.
  pose proof (Z.mod_pos_bound a b Hb) as Hmb.
  set (q := a / b) in *. set (r := a mod b) in *.
  destruct (Z.log2_spec q ltac:(lia)) as [Hlo Hhi].
  pose proof (Z.log2_nonneg q) as Hl0.
  set (l := Z.log2 q) in *.
  assert (H2j : 0 < 2 ^ j) by (apply pow2_pos; lia).
  apply Z.log2_unique; [lia|].
  replace (Z.succ (l + j)) with (Z.succ l + j) by lia.
  rewrite !Z.pow_add_r by lia.
  assert (H1 : b * 2 ^ l <= a) by nia.
  assert (H2 : a < b * 2 ^ Z.succ l) by nia.
  set (P := 2 ^ l) in *. set (P' := 2 ^ Z.succ l) in *.
  set (J := 2 ^ j) in *.
  split.
  - apply Z.div_le_lower_bound; [lia|].
    replace (b * (P * J)) with (b * P * J) by ring.
    apply Z.mul_le_mono_nonneg_r; lia.
  - apply Z.div_lt_upper_bound; [lia|].
    replace (b * (P' * J)) with (b * P' * J) by ring.
    apply Z.mul_lt_mono_pos_r; lia.
Qed.

Lemma div_eucl_div_mod (a b q r : Z) :
  Z.div_eucl a b = (q, r) -> q = a / b /\ r = a mod b.
Proof.
  intro H. unfold Z.div, Z.modulo. rewrite H. split; reflexivity.
Qed.

Lemma SFdiv_finite_val
  (K : Z) (sx sy : bool) (mx my : positive) (ex ey : Z) :
  2045 <= K ->
  bounded prec emax mx ex = true -> bounded prec emax my ey = true ->
  let R := SF64div (S754_finite sx mx ex) (S754_finite sy my ey) in
  SFsign (xorb sx sy) R /\
  SFvalue K R =
  cond_Zopp (xorb sx sy)
    (round_quotient K (Zpos mx * 2 ^ (ex - ey + K)) (Zpos my)).
Proof.
  intros HK Hbx Hby R. subst R.
  pose proof (bounded_mantissa mx ex Hbx) as (Hmx & Hex & _).
  pose proof (bounded_mantissa my ey Hby) as (Hmy & Hey & _).
  pose proof (digits2_pos_bounds mx) as [Hx1 Hx2].
  pose proof (digits2_pos_bounds my) as [Hy1 Hy2].
  unfold SF64div. cbn [SFdiv]. unfold SFdiv_core_binary.
  cbn [Zdigits2].
  set (d1 := Zpos (digits2_pos mx)) in *.
  set (d2 := Zpos (digits2_pos my)) in *.
  assert (Hd1 : 1 <= d1 <= 53).
  { split; [unfold d1; lia|].
    destruct (Z.le_gt_cases d1 53) as [H|H]; [exact H|].
    assert (2 ^ 53 <= 2 ^ (d1 - 1)) by (apply Z.pow_le_mono_r; lia). lia. }
  assert (Hd2 : 1 <= d2 <= 53).
  { split; [unfold d2; lia|].
    destruct (Z.le_gt_cases d2 53) as [H|H]; [exact H|].
    assert (2 ^ 53 <= 2 ^ (d2 - 1)) by (apply Z.pow_le_mono_r; lia). lia. }
  set (F := fexp prec emax (d1 + ex - (d2 + ey))).
  assert (HF : F = Z.max (d1 + ex - (d2 + ey) - 53) (-1074)) by reflexivity.
  change (IntDef.Z.min F (ex - ey)) with (Z.min F (ex - ey)).
  set (e' := Z.min F (ex - ey)).
  set (s := ex - ey - e').
  assert (Hs : 0 <= s) by (unfold s, e'; lia).
  set (m' := match s with
             | 0 => Zpos mx
             | Zpos _ => IntDef.Z.shiftl (Zpos mx) s
             | Zneg _ => 0
             end).
  assert (Hm' : m' = Zpos mx * 2 ^ s).
  { unfold m'. destruct s as [|ps|ps] eqn:Es; try lia.
    change (IntDef.Z.shiftl (Zpos mx) (Zpos ps))
      with (Z.shiftl (Zpos mx) (Zpos ps)).
    apply Z.shiftl_mul_pow2. lia. }
  change (IntDef.Z.div_eucl m' (Zpos my)) with (Z.div_eucl m' (Zpos my)).
  destruct (Z.div_eucl m' (Zpos my)) as [q r] eqn:Hdiv.
  destruct (div_eucl_div_mod _ _ _ _ Hdiv) as [Hq Hr].
  pose proof (Z.div_mod m' (Zpos my) ltac:(lia)) as Hdm.
  pose proof (Z.mod_pos_bound m' (Zpos my) ltac:(lia)) as Hmb.
  rewrite <- Hq, <- Hr in Hdm. rewrite <- Hr in Hmb.
  assert (H2s : 0 < 2 ^ s) by (apply pow2_pos; lia).
  assert (Hq0 : 0 <= q) by (rewrite Hq; apply Z.div_pos; nia).
  assert (Hinv : shr_inv m' (Zpos my)
                   (shr_record_of_loc q (new_location (Zpos my) r))).
  { replace m' with (q * Zpos my + r) by lia.
    apply new_location_inv; lia. }
  (* the quotient has 53 digits unless the result is subnormal *)
  assert (HE : e' <= fexp prec emax (Zdigits2 q + e')).
  { rewrite fexp64_eq.
    destruct (Z.le_gt_cases e' (-1074)) as [Hsub|Hnorm]; [lia|].
    assert (He' : e' <= d1 + ex - (d2 + ey) - 53) by (unfold e'; lia).
    assert (Hs53 : 53 - d1 + d2 <= s) by (unfold s; lia).
    assert (Hbig : 2 ^ 52 * Zpos my <= m').
    { rewrite Hm'.
      apply Z.le_trans with (2 ^ 52 * 2 ^ d2); [nia|].
      apply Z.le_trans with (2 ^ (d1 - 1) * 2 ^ s); [|nia].
      rewrite <- !Z.pow_add_r by lia.
      apply Z.pow_le_mono_r; lia. }
    assert (Hq52 : 2 ^ 52 <= q).
    { rewrite Hq. apply Z.div_le_lower_bound; lia. }
    destruct (Zdigits2_bounds q Hq0) as (_ & Hqhi & _).
    destruct (Z.le_gt_cases 53 (Zdigits2 q)) as [H|H]; [lia|].
    assert (2 ^ Zdigits2 q <= 2 ^ 52).
    { apply Z.pow_le_mono_r; lia. }
    lia. }
  destruct (binary_round_aux_loc_val (xorb sx sy) q
              (new_location (Zpos my) r) e' m' (Zpos my) K HE Hinv
              ltac:(lia)) as [Hsign Hval].
  split; [exact Hsign|].
  rewrite Hval. f_equal. unfold round_quotient.
  set (E := fexp prec emax (Zdigits2 q + e')) in *.
  assert (He'K : 0 <= e' + K) by (unfold e'; lia).
  assert (H2e : 0 < 2 ^ (e' + K)) by (apply pow2_pos; lia).
  assert (HN : Zpos mx * 2 ^ (ex - ey + K) = m' * 2 ^ (e' + K)).
  { rewrite Hm', <- Z.mul_assoc, <- Z.pow_add_r by lia.
    f_equal. f_equal. unfold s. lia. }
  rewrite HN.
  assert (HEE : fexp prec emax
                  (Z.log2 (m' * 2 ^ (e' + K) / Zpos my) + 1 - K) = E).
  { destruct (Z.le_gt_cases 1 q) as [Hq1|Hq1].
    - rewrite log2_div_pow2 by lia. rewrite <- Hq.
      unfold E. f_equal.
      destruct q as [|pq|pq]; try lia. cbn [Zdigits2].
      rewrite digits2_pos_log2. lia.
    - assert (Hq00 : q = 0) by lia.
      unfold E in *. rewrite Hq00 in HE |- *.
      cbn [Zdigits2] in HE |- *. rewrite !fexp64_eq in HE |- *.
      assert (Hm'lt : m' < Zpos my) by nia.
      assert (Hlt : m' * 2 ^ (e' + K) / Zpos my < 2 ^ (e' + K)).
      { apply Z.div_lt_upper_bound; [lia|]. nia. }
      assert (Hge : 0 <= m' * 2 ^ (e' + K) / Zpos my)
        by (apply Z.div_pos; nia).
      set (v := m' * 2 ^ (e' + K) / Zpos my) in *.
      assert (Hlog : Z.log2 v < Z.max (e' + K) 1).
      { destruct (Z.eq_dec v 0) as [->|Hv]; [cbn; lia|].
        assert (Z.log2 v < e' + K) by (apply Z.log2_lt_pow2; lia).
        lia. }
      rewrite ?fexp64_eq. lia. }
  rewrite HEE.
  assert (HEmin : -1074 <= E) by (unfold E; rewrite fexp64_eq; lia).
  f_equal. f_equal.
  rewrite (pow2_split (e' + K) (E + K)) by lia.
  replace (E + K - (e' + K)) with (E - e') by lia.
  rewrite Z.mul_assoc.
  rewrite rne_scale; [reflexivity| |lia].
  assert (0 < 2 ^ (E - e')) by (apply pow2_pos; lia). nia.
Qed.


(** *** Division by a positive number is monotone *)

Lemma round_quotient_bounds (K N D : Z) :
  1074 <= K -> 0 <= N -> 0 < D -> 0 <= round_quotient K N D <= Omega K.
Proof.
  intros HK HN HD. unfold round_quotient. rewrite fexp64_eq.
  set (E := Z.max _ _).
  assert (HW : 0 < 2 ^ (E + K)) by (apply pow2_pos; lia).
  assert (HDW : 0 < D * 2 ^ (E + K)) by nia.
  pose proof (rne_bounds N (D * 2 ^ (E + K)) HDW) as [Hlo _].
  pose proof (Z.div_pos N (D * 2 ^ (E + K)) HN HDW).
  pose proof (Omega_pos K ltac:(lia)).
  split; [apply Z.min_glb; nia | apply Z.le_min_r].
Qed.

Lemma rne_quot_le (N D W a : Z) :
  0 < D -> 0 < W -> 0 <= a -> N <= 2 ^ a * W * D -> rne N (D * W) * W <= 2 ^ a * W.
Proof.
  intros HD HW Ha HN.
  assert (HDW : 0 < D * W) by nia.
  pose proof (rne_mul_le N (D * W) (2 ^ a * W * D) (2 ^ a) HDW
                ltac:(ring) HN) as H.
  nia.
Qed.

Lemma rne_quot_ge (N D W a : Z) :
  0 < D -> 0 < W -> 0 <= a -> 2 ^ a * W * D <= N -> 2 ^ a * W <= rne N (D * W) * W.
Proof.
  intros HD HW Ha HN.
  assert (HDW : 0 < D * W) by nia.
  pose proof (rne_mul_ge N (D * W) (2 ^ a * W * D) (2 ^ a) HDW
                ltac:(ring) HN) as H.
  nia.
Qed.

Lemma round_quotient_mono (K N N' D : Z) :
  1074 <= K -> 0 < D -> 0 <= N -> N <= N' ->
  round_quotient K N D <= round_quotient K N' D.
Proof.
  intros HK HD HN HNN'. unfold round_quotient. rewrite !fexp64_eq.
  pose proof (Z.div_mod N D ltac:(lia)) as Hdm.
  pose proof (Z.mod_pos_bound N D HD) as Hmb.
  pose proof (Z.div_mod N' D ltac:(lia)) as Hdm'.
  pose proof (Z.mod_pos_bound N' D HD) as Hmb'.
  assert (Hv0 : 0 <= N / D) by (apply Z.div_pos; lia).
  pose proof (Z.div_le_mono N N' D HD HNN') as Hvv.
  set (v := N / D) in *. set (v' := N' / D) in *.
  pose proof (Z.log2_le_mono v v' Hvv) as Hlog.
  pose proof (Z.log2_nonneg v) as Hl0.
  assert (Hvhi : v < 2 ^ (Z.log2 v + 1)).
  { destruct (Z.eq_dec v 0) as [->|Hv]; [reflexivity|].
    pose proof (Z.log2_spec v ltac:(lia)) as [_ H].
    rewrite <- Z.add_1_r in H. exact H. }
  set (l := Z.log2 v) in *. set (l' := Z.log2 v') in *.
  set (E := Z.max (l + 1 - K - 53) (-1074)).
  set (E' := Z.max (l' + 1 - K - 53) (-1074)).
  assert (HW : 0 < 2 ^ (E + K)) by (apply pow2_pos; lia).
  assert (HW' : 0 < 2 ^ (E' + K)) by (apply pow2_pos; lia).
  apply Z.min_le_compat_r.
  destruct (Z.eq_dec E E') as [Heq|Hne].
  - rewrite <- Heq. apply Z.mul_le_mono_nonneg_r; [lia|].
    apply rne_mono; [nia|assumption].
  - assert (HEE : E < E') by lia.
    assert (HE' : E' = l' + 1 - K - 53) by lia.
    assert (Hll : l < l') by lia.
    assert (Hv'pos : 0 < v').
    { destruct (Z.eq_dec v' 0) as [H0|H0]; [|lia].
      exfalso. unfold l' in Hll. rewrite H0 in Hll. cbn in Hll. lia. }
    pose proof (Z.log2_spec v' Hv'pos) as [Hv'lo _]. fold l' in Hv'lo.
    apply Z.le_trans with (2 ^ l').
    + set (a := Z.max (l + 1) (E + K)).
      apply Z.le_trans with (2 ^ a).
      * rewrite (pow2_split (E + K) a) by lia.
        apply rne_quot_le; try lia.
        rewrite <- (pow2_split (E + K) a) by lia.
        assert (2 ^ (l + 1) <= 2 ^ a) by (apply Z.pow_le_mono_r; lia).
        nia.
      * apply Z.pow_le_mono_r; lia.
    + rewrite (pow2_split (E' + K) l') by lia.
      apply rne_quot_ge; try lia.
      rewrite <- (pow2_split (E' + K) l') by lia.
      nia.
Qed.

Lemma round_quotient_exact (K V D : Z) :
  0 < D -> round_quotient K (V * D) D = round_nearest K V.
Proof.
  intro HD. unfold round_quotient, round_nearest.
  rewrite Z.div_mul by lia.
  set (W := 2 ^ _).
  destruct (Z.lt_trichotomy W 0) as [HW|[HW|HW]].
  - exfalso. unfold W in HW. pose proof (Z.pow_nonneg 2 (fexp prec emax (Z.log2 V + 1 - K) + K) ltac:(lia)). lia.
  - rewrite HW. rewrite !Z.mul_0_r. reflexivity.
  - rewrite (Z.mul_comm D W), rne_scale by lia. reflexivity.
Qed.

Lemma quotient_signed_mono (K S S' D : Z) :
  1074 <= K -> 0 < D -> S <= S' ->
  quotient_signed K S D <= quotient_signed K S' D.
Proof.
  intros HK HD HS.
  destruct S as [|p|p], S' as [|p'|p']; cbn [quotient_signed]; try lia;
    try (pose proof (round_quotient_bounds K (Zpos p) D HK ltac:(lia) HD));
    try (pose proof (round_quotient_bounds K (Zpos p') D HK ltac:(lia) HD));
    try (pose proof (round_quotient_bounds K (- Zneg p) D HK ltac:(lia) HD));
    try (pose proof (round_quotient_bounds K (- Zneg p') D HK ltac:(lia) HD));
    try lia.
  - apply round_quotient_mono; lia.
  - pose proof (round_quotient_mono K (- Zneg p') (- Zneg p) D HK HD
                  ltac:(lia) ltac:(lia)).
    lia.
Qed.

(** The quotient of a number by a positive finite number. *)
Lemma SFdiv_pos_val (K : Z) (x : spec_float) (my : positive) (ey : Z) :
  2045 <= K -> valid_binary x = true -> SFfin x ->
  bounded prec emax my ey = true ->
  let R := SF64div x (S754_finite false my ey) in
  R <> S754_nan /\
  SFvalue K R = quotient_signed K (SFvalue (K - ey) x) (Zpos my).
Proof.
  intros HK Hx Hfx Hby R. subst R.
  destruct x as [sx|sx| |sx mx ex]; try contradiction.
  - unfold SF64div. cbn [SFdiv SFvalue quotient_signed].
    split; [discriminate|reflexivity].
  - cbn [valid_binary] in Hx.
    destruct (SFdiv_finite_val K sx false mx my ex ey HK Hx Hby)
      as [Hs Hv].
    cbv zeta in Hs, Hv. rewrite xorb_false_r in Hs, Hv.
    split; [intro Hn; rewrite Hn in Hs; exact Hs|].
    rewrite Hv. cbn [SFvalue].
    pose proof (bounded_mantissa mx ex Hx) as (_ & Hex & _).
    pose proof (bounded_mantissa my ey Hby) as (_ & Hey & _).
    replace (ex + (K - ey)) with (ex - ey + K) by lia.
    assert (HW : 0 < 2 ^ (ex - ey + K)) by (apply pow2_pos; lia).
    destruct (Zpos mx * 2 ^ (ex - ey + K)) as [|p|p] eqn:HV; try lia.
    destruct sx; cbn [cond_Zopp quotient_signed Z.opp]; reflexivity.
Qed.

Lemma SFdiv_pos_not_nan (x : spec_float) (my : positive) (ey : Z) :
  valid_binary x = true -> x <> S754_nan ->
  bounded prec emax my ey = true ->
  SF64div x (S754_finite false my ey) <> S754_nan.
Proof.
  intros Hx Hn Hby.
  destruct x as [sx|sx| |sx mx ex]; try contradiction.
  - discriminate.
  - discriminate.
  - apply (SFdiv_pos_val 2045); try assumption; try lia. exact I.
Qed.

Lemma SFdiv_pos_mono (x x' : spec_float) (my : positive) (ey : Z) :
  bounded prec emax my ey = true ->
  valid_binary x = true -> valid_binary x' = true ->
  let y := S754_finite false my ey in
  valid_binary (SF64div x y) = true -> valid_binary (SF64div x' y) = true ->
  SFleb x x' = true -> SFleb (SF64div x y) (SF64div x' y) = true.
Proof.
  intros Hby Hx Hx' y HR HR' Hle. subst y.
  pose proof (bounded_mantissa my ey Hby) as (_ & Hey & _).
  assert (HK : 2045 <= 2045) by lia.
  assert (Hfin : forall z z', valid_binary z = true -> valid_binary z' = true ->
            SFfin z -> SFfin z' ->
            valid_binary (SF64div z (S754_finite false my ey)) = true ->
            valid_binary (SF64div z' (S754_finite false my ey)) = true ->
            SFleb z z' = true ->
            SFleb (SF64div z (S754_finite false my ey))
                  (SF64div z' (S754_finite false my ey)) = true).
  { intros z z' Hz Hz' Hfz Hfz' HRz HRz' Hzz.
    destruct (SFdiv_pos_val 2045 z my ey HK Hz Hfz Hby) as [Hn Hv].
    destruct (SFdiv_pos_val 2045 z' my ey HK Hz' Hfz' Hby) as [Hn' Hv'].
    apply (SFleb_val 2045); try assumption; try lia.
    cbv zeta in Hv, Hv'. rewrite Hv, Hv'.
    apply quotient_signed_mono; try lia.
    apply (SFleb_val (2045 - ey)); try assumption; try lia.
    - destruct z; try contradiction; discriminate.
    - destruct z'; try contradiction; discriminate. }
  assert (Hnn : forall z, valid_binary z = true -> z <> S754_nan ->
            SF64div z (S754_finite false my ey) <> S754_nan).
  { intros z Hz Hzn. apply SFdiv_pos_not_nan; assumption. }
  destruct x as [sx|sx| |sx mx ex], x' as [sx'|sx'| |sx' mx' ex'];
    try discriminate Hle;
    try (apply Hfin; solve [assumption | exact I]).
  all: try (change (SF64div (S754_infinity true) (S754_finite false my ey))
             with (S754_infinity true);
            apply SFleb_neg_infinity; apply Hnn;
            [assumption|discriminate]).
  all: try (change (SF64div (S754_infinity false) (S754_finite false my ey))
             with (S754_infinity false);
            apply SFleb_pos_infinity; apply Hnn;
            [assumption|discriminate]).
  all: repeat match goal with s : bool |- _ => destruct s end;
    try discriminate Hle; try reflexivity.
  all: try (change (SF64div (S754_infinity true) (S754_finite false my ey))
             with (S754_infinity true);
            apply SFleb_neg_infinity; apply Hnn;
            [assumption|discriminate]).
  all: try (change (SF64div (S754_infinity false) (S754_finite false my ey))
             with (S754_infinity false);
            apply SFleb_pos_infinity; apply Hnn;
            [assumption|discriminate]).
Qed.

(** A positive finite number divided by itself is 1. *)
Lemma SFdiv_self_val (K : Z) (my : positive) (ey : Z) :
  2045 <= K -> bounded prec emax my ey = true ->
  SFvalue K (SF64div (S754_finite false my ey) (S754_finite false my ey))
  = 2 ^ K.
Proof.
  intros HK Hby.
  destruct (SFdiv_finite_val K false false my my ey ey HK Hby Hby)
    as [_ Hv].
  cbv zeta in Hv. rewrite Hv. cbn [xorb cond_Zopp].
  replace (ey - ey + K) with K by lia.
  rewrite (Z.mul_comm (Zpos my)), round_quotient_exact by lia.
  replace (2 ^ K) with (1 * 2 ^ K) by lia.
  apply round_nearest_exact_int; lia.
Qed.

#[local] Open Scope float_scope.

(** *** The primitive division *)

Lemma div_le_mono_pos (x x' y : float) (my : positive) (ey : Z) :
  Prim2SF y = S754_finite false my ey ->
  (x <=? x') = true -> (x / y <=? x' / y) = true.
Proof.
  intros Hy. rewrite !leb_spec. intro Hle.
  pose proof (Prim2SF_valid (x / y)) as HR.
  pose proof (Prim2SF_valid (x' / y)) as HR'.
  pose proof (Prim2SF_valid y) as Hvy.
  repeat rewrite div_spec in *. rewrite Hy in *.
  apply SFdiv_pos_mono; try assumption; apply Prim2SF_valid.
Qed.

Lemma div_self_le_one (y : float) (my : positive) (ey : Z) :
  Prim2SF y = S754_finite false my ey -> (y / y <=? 1) = true.
Proof.
  intro Hy. rewrite leb_spec.
  pose proof (Prim2SF_valid (y / y)) as HR.
  pose proof (Prim2SF_valid y) as Hvy.
  rewrite div_spec in *. rewrite Hy in *. cbn [valid_binary] in Hvy.
  apply (SFleb_val 2045); try assumption; try lia; try reflexivity.
  - apply SFdiv_pos_not_nan; [exact Hvy | discriminate | exact Hvy].
  - discriminate.
  - rewrite SFdiv_self_val by (assumption || lia).
    vm_compute. discriminate.
Qed.

End DivisionFacts.

(** ** The average confidence *)

Module AverageFacts.

Import Binary64 Binary64Facts NumberFacts DivisionFacts.

Lemma of_integer_finite (k : Z) :
  (0 <= k < 2 ^ 53)%Z -> SFfin (Prim2SF (JS.of_integer false k)).
Proof.
  intro Hk.
  destruct (of_integer_val 1074 false k ltac:(lia) ltac:(lia)) as [Hn Hv].
  apply (SFfin_of_value 1074); [lia | exact Hn |].
  rewrite Hv. unfold Omega.
  assert (0 < 2 ^ 1074)%Z by (apply pow2_pos; lia).
  rewrite (Z.pow_add_r 2 1024 1074) by lia.
  assert (2 ^ 53 < 2 ^ 1024)%Z by (apply Z.pow_lt_mono_r; lia).
  nia.
Qed.

Lemma of_integer_positive (k : Z) :
  (0 < k < 2 ^ 53)%Z ->
  exists m e, Prim2SF (JS.of_integer false k) = S754_finite false m e.
Proof.
  intro Hk.
  destruct (of_integer_val 1074 false k ltac:(lia) ltac:(lia)) as [Hn Hv].
  pose proof (of_integer_finite k ltac:(lia)) as Hf.
  assert (0 < 2 ^ 1074)%Z by (apply pow2_pos; lia).
  destruct (Prim2SF (JS.of_integer false k)) as [s|s| |s m e];
    try contradiction; cbn [SFvalue] in Hv.
  - nia.
  - destruct s; [|eauto].
    exfalso. cbn [cond_Zopp] in Hv.
    pose proof (Z.pow_nonneg 2 (e + 1074) ltac:(lia)). nia.
Qed.

(** Counting up: [k + 1] on the numbers that hold integers. *)
Lemma of_integer_succ (k : Z) :
  (0 <= k)%Z -> (k + 1 < 2 ^ 53)%Z ->
  JS.of_integer false k + 1 = JS.of_integer false (k + 1).
Proof.
  intros Hk0 Hk.
  pose proof (of_integer_finite k ltac:(lia)) as Hf.
  destruct (of_integer_val 1074 false k ltac:(lia) ltac:(lia)) as [Hn Hv].
  destruct (of_integer_val 1074 false (k + 1) ltac:(lia) ltac:(lia))
    as [Hn' Hv'].
  apply Prim2SF_inj.
  destruct (SFadd_val 1074 (Prim2SF (JS.of_integer false k)) (Prim2SF 1)
              ltac:(lia) (Prim2SF_valid _) (Prim2SF_valid _) Hf I)
    as [Hna Hva].
  rewrite <- add_spec in Hna, Hva.
  assert (H2K : (0 < 2 ^ 1074)%Z) by (apply pow2_pos; lia).
  assert (Hsame : SFvalue 1074 (Prim2SF (JS.of_integer false k + 1)) =
                  SFvalue 1074 (Prim2SF (JS.of_integer false (k + 1)))).
  { rewrite Hva, Hv, Hv'.
    change (SFvalue 1074 (Prim2SF 1)) with (1 * 2 ^ 1074)%Z.
    rewrite <- Z.mul_add_distr_r.
    destruct ((k + 1) * 2 ^ 1074)%Z as [|p|p] eqn:HV; try nia.
    cbn [round_signed]. rewrite <- HV.
    apply round_nearest_exact_int; lia. }
  destruct (SFvalue_inj 1074 _ _ ltac:(lia) (Prim2SF_valid _)
              (Prim2SF_valid _) Hna Hn' Hsame)
    as [Heq|(s & s' & _ & Hz)]; [exact Heq|].
  exfalso. rewrite Hz in Hv'. cbn [SFvalue] in Hv'. nia.
Qed.

(** The accumulated total of [reduce] stays between 0 and the number of
    scores added. *)
Lemma total_bounds (metrics : list FacialAnalysis.FacialMetrics) :
  forall (acc : float) (k : Z),
    (0 <= k)%Z -> (k + Z.of_nat (List.length metrics) < 2 ^ 53)%Z ->
    scores_in_unit_interval metrics = true ->
    (0 <=? acc) = true -> (acc <=? JS.of_integer false k) = true ->
    let total :=
      fold_left (fun sum m => sum + FacialAnalysis.confidence m) metrics acc
    in
    (0 <=? total) = true /\
    (total <=? JS.of_integer false (k + Z.of_nat (List.length metrics)))
    = true.
Proof.
  induction metrics as [|m rest IH]; intros acc k Hk Hlen Hall Hlo Hhi.
  - cbn [fold_left List.length Z.of_nat]. rewrite Z.add_0_r. split; assumption.
  - cbn [fold_left]. cbn [scores_in_unit_interval forallb] in Hall.
    apply andb_prop in Hall as [Hm Hall].
    rewrite length_cons, Nat2Z.inj_succ in Hlen |- *.
    replace (k + Z.succ (Z.of_nat (List.length rest)))%Z
      with (k + 1 + Z.of_nat (List.length rest))%Z by lia.
    assert (Hfm : SFfin (Prim2SF (FacialAnalysis.confidence m)))
      by (apply (between_finite 0 1); [exact I | exact I | exact Hm]).
    unfold between in Hm. apply andb_prop in Hm as [Hm0 Hm1].
    assert (Hna : is_nan acc = false).
    { apply is_nan_spec. apply (leb_not_nan _ _ Hlo). }
    assert (Hn1 : is_nan (acc + FacialAnalysis.confidence m) = false)
      by (apply add_finite_not_nan; assumption).
    apply IH; try lia; try assumption.
    + change 0 with (0 + 0) at 1.
      apply add_le_mono; try assumption. reflexivity.
    + rewrite <- of_integer_succ by lia.
      apply add_le_mono; try assumption.
      apply add_finite_not_nan; [|exact I].
      apply is_nan_spec. apply (leb_not_nan _ _ Hhi).
Qed.

End AverageFacts.

Import AverageFacts DivisionFacts.

(** X14: [calculateAverageConfidence] returns 0 for an empty array, without
    dividing, and for detection scores between 0 and 1 it returns a number
    between 0 and 100: rounding in the sum, the division and the product
    never carries the mean outside the percentage range. *)
Theorem average_confidence_is_a_percentage
  (metrics : list FacialAnalysis.FacialMetrics) :
  (Z.of_nat (List.length metrics) < 2 ^ 32)%Z ->
  scores_in_unit_interval metrics = true ->
  FacialAnalysis.calculateAverageConfidence [] = 0 /\
  between 0 100 (FacialAnalysis.calculateAverageConfidence metrics) = true.
Proof.
  intros Hlen Hall. split; [reflexivity|].
  destruct metrics as [|m rest] eqn:Hm; [reflexivity|].
  rewrite <- Hm in *. unfold FacialAnalysis.calculateAverageConfidence.
  rewrite Hm at 1. cbv zeta.
  set (total := fold_left _ metrics 0).
  set (n := FacialAnalysis.length_of metrics).
  assert (Hpos : (0 < Z.of_nat (List.length metrics) < 2 ^ 53)%Z).
  { rewrite Hm, length_cons in *. split; [lia|].
    apply Z.lt_trans with (2 ^ 32)%Z; [lia|reflexivity]. }
  destruct (total_bounds metrics 0 0 ltac:(lia) ltac:(lia) Hall eq_refl
              eq_refl) as [Hlo Hhi].
  cbv zeta in Hlo, Hhi. rewrite Z.add_0_l in Hhi.
  fold total in Hlo, Hhi.
  change (JS.of_integer false (Z.of_nat (List.length metrics)))
    with n in Hhi.
  destruct (of_integer_positive _ Hpos) as (mn & en & Hn).
  change (Prim2SF (JS.of_integer false (Z.of_nat (List.length metrics))))
    with (Prim2SF n) in Hn.
  assert (Hq0 : (0 <=? total / n) = true).
  { assert (Hz : 0 / n = 0).
    { apply Prim2SF_inj. rewrite div_spec, Hn. reflexivity. }
    rewrite <- Hz at 1. apply (div_le_mono_pos _ _ n mn en Hn Hlo). }
  assert (Hq1 : (total / n <=? 1) = true).
  { apply FloatOrder.leb_trans with (n / n).
    - apply (div_le_mono_pos _ _ n mn en Hn Hhi).
    - apply (div_self_le_one n mn en Hn). }
  unfold between. apply andb_true_intro. split.
  - change 0 with (0 * 100) at 1.
    apply (mul_le_mono_const _ _ 100 7036874417766400 (-46));
      [reflexivity | vm_compute; discriminate | exact Hq0].
  - change 100 with (1 * 100) at 2.
    apply (mul_le_mono_const _ _ 100 7036874417766400 (-46));
      [reflexivity | vm_compute; discriminate | exact Hq1].
Qed.

Lemma average_confidence_is_a_percentage_witness :
  between 0 100 (FacialAnalysis.calculateAverageConfidence sample_metrics)
  = true.
Proof.
  apply (average_confidence_is_a_percentage sample_metrics); reflexivity.
Defined.

Lemma total_mono (metrics metrics' : list FacialAnalysis.FacialMetrics) :
  scores_at_most metrics metrics' ->
  forall (acc acc' : float) (k : Z),
    (0 <= k)%Z -> (k + Z.of_nat (List.length metrics) < 2 ^ 53)%Z ->
    scores_in_unit_interval metrics = true ->
    scores_in_unit_interval metrics' = true ->
    (0 <=? acc) = true -> (acc <=? acc') = true ->
    (acc' <=? JS.of_integer false k) = true ->
    (fold_left (fun sum m => sum + FacialAnalysis.confidence m) metrics acc
     <=?
     fold_left (fun sum m => sum + FacialAnalysis.confidence m) metrics' acc')
    = true.
Proof.
  induction 1 as [|m m' rest rest' Hm Hrest IH];
    intros acc acc' k Hk Hlen Hall Hall' Hlo Hle Hhi.
  - exact Hle.
  - cbn [fold_left]. cbn [scores_in_unit_interval forallb] in Hall, Hall'.
    apply andb_prop in Hall as [Hu Hall].
    apply andb_prop in Hall' as [Hu' Hall'].
    rewrite length_cons, Nat2Z.inj_succ in Hlen.
    assert (Hfm : SFfin (Prim2SF (FacialAnalysis.confidence m)))
      by (apply (between_finite 0 1); [exact I | exact I | exact Hu]).
    assert (Hfm' : SFfin (Prim2SF (FacialAnalysis.confidence m')))
      by (apply (between_finite 0 1); [exact I | exact I | exact Hu']).
    unfold between in Hu, Hu'.
    apply andb_prop in Hu as [Hu0 Hu1].
    apply andb_prop in Hu' as [Hu0' Hu1'].
    assert (Hna : is_nan acc = false)
      by (apply Binary64Facts.is_nan_spec;
          apply (Binary64Facts.leb_not_nan _ _ Hlo)).
    assert (Hna' : is_nan acc' = false)
      by (apply Binary64Facts.is_nan_spec;
          apply (Binary64Facts.leb_not_nan _ _ Hhi)).
    assert (Hn1 : is_nan (acc + FacialAnalysis.confidence m) = false)
      by (apply add_finite_not_nan; assumption).
    assert (Hn1' : is_nan (acc' + FacialAnalysis.confidence m') = false)
      by (apply add_finite_not_nan; assumption).
    apply (IH _ _ (k + 1)%Z); try lia; try assumption.
    + change 0 with (0 + 0) at 1.
      apply Binary64Facts.add_le_mono; try assumption. reflexivity.
    + apply Binary64Facts.add_le_mono; assumption.
    + rewrite <- AverageFacts.of_integer_succ by lia.
      apply Binary64Facts.add_le_mono; try assumption.
      apply add_finite_not_nan; [|exact I].
      apply Binary64Facts.is_nan_spec.
      apply (Binary64Facts.leb_not_nan _ _ Hhi).
Qed.

(** X15: the average follows the scores.  For two arrays of the same
    length whose detection scores lie between 0 and 1, if frame by frame
    the scores of the first are at most those of the second, then its
    average confidence is at most that of the second: no rounding in the
    sum, the division or the product reverses the order. *)
Theorem average_confidence_monotone
  (metrics metrics' : list FacialAnalysis.FacialMetrics) :
  (Z.of_nat (List.length metrics) < 2 ^ 32)%Z ->
  scores_in_unit_interval metrics = true ->
  scores_in_unit_interval metrics' = true ->
  scores_at_most metrics metrics' ->
  (FacialAnalysis.calculateAverageConfidence metrics <=?
   FacialAnalysis.calculateAverageConfidence metrics') = true.
Proof.
  intros Hlen Hall Hall' Hle.
  pose proof (Forall2_length Hle) as Hsame.
  destruct Hle as [|m m' rest rest' Hm Hrest]; [reflexivity|].
  assert (Hle : scores_at_most (m :: rest) (m' :: rest'))
    by (constructor; assumption).
  unfold FacialAnalysis.calculateAverageConfidence. cbv zeta.
  unfold FacialAnalysis.length_of. rewrite <- Hsame.
  set (n := JS.of_integer false (Z.of_nat (List.length (m :: rest)))).
  assert (Hpos : (0 < Z.of_nat (List.length (m :: rest)) < 2 ^ 53)%Z).
  { rewrite length_cons in *. split; [lia|].
    apply Z.lt_trans with (2 ^ 32)%Z; [lia|reflexivity]. }
  destruct (AverageFacts.of_integer_positive _ Hpos) as (mn & en & Hn).
  fold n in Hn.
  pose proof (total_mono _ _ Hle 0 0 0%Z ltac:(lia) ltac:(lia) Hall Hall'
                eq_refl eq_refl eq_refl) as Htot.
  apply (Binary64Facts.mul_le_mono_const _ _ 100 7036874417766400 (-46));
    [reflexivity | vm_compute; discriminate |].
  apply (div_le_mono_pos _ _ n mn en Hn Htot).
Qed.

Lemma average_confidence_monotone_witness :
  (FacialAnalysis.calculateAverageConfidence sample_metrics <=?
   FacialAnalysis.calculateAverageConfidence better_metrics) = true.
Proof.
  apply (average_confidence_monotone sample_metrics better_metrics);
    try reflexivity.
  repeat constructor.
Defined.

(** ** The answer evaluator *)

Lemma nan_add_l (y : float) : nan + y = nan.
Proof. apply Prim2SF_inj. rewrite add_spec. reflexivity. Qed.

Lemma nan_add_r (x : float) : x + nan = nan.
Proof.
  apply Prim2SF_inj. rewrite add_spec.
  change (Prim2SF nan) with S754_nan.
  destruct (Prim2SF x); reflexivity.
Qed.

Lemma nan_div (y : float) : nan / y = nan.
Proof. apply Prim2SF_inj. rewrite div_spec. reflexivity. Qed.

Lemma is_nan_eq (x : float) : is_nan x = true -> x = nan.
Proof. intro H. apply Prim2SF_inj. apply is_nan_true. exact H. Qed.

Lemma plain_mark_to_number (v : option Express.json) :
  plain_mark v = true -> exists x, JSValue.to_number v = Some x.
Proof.
  destruct v as [[| [] | | | |]|]; try discriminate;
    intros _; eexists; reflexivity.
Qed.

(** X16: the defaults of [parseEvaluationResponse] do not reach
    [overallScore].  When each of [correctness], [completeness] and
    [clarity] is a number, a boolean, [null] or missing, and at least one
    of them is missing, [overallScore], which is computed from the raw
    properties, is NaN, while the parsed mark of a missing property
    reads 0. *)
Theorem missing_mark_makes_overallScore_NaN
  (r : Express.json) (e : AnswerEvaluator.AnswerEvaluation) :
  AnswerEvaluator.parseEvaluationResponse (Some r) = Express.Returns e ->
  plain_mark (Express.property r "correctness") = true ->
  plain_mark (Express.property r "completeness") = true ->
  plain_mark (Express.property r "clarity") = true ->
  Express.property r "correctness" = None \/
  Express.property r "completeness" = None \/
  Express.property r "clarity" = None ->
  AnswerEvaluator.overallScore e = Some nan /\
  (Express.property r "correctness" = None ->
   AnswerEvaluator.correctness e = Express.JNumber 0) /\
  (Express.property r "completeness" = None ->
   AnswerEvaluator.completeness e = Express.JNumber 0) /\
  (Express.property r "clarity" = None ->
   AnswerEvaluator.clarity e = Express.JNumber 0).
Proof.
  intros Hparse Ha Hb Hc Hmiss.
  assert (He : e =
    {| AnswerEvaluator.correctness :=
         JSValue.or_else (Express.property r "correctness")
           (Express.JNumber 0);
       AnswerEvaluator.completeness :=
         JSValue.or_else (Express.property r "completeness")
           (Express.JNumber 0);
       AnswerEvaluator.clarity :=
         JSValue.or_else (Express.property r "clarity") (Express.JNumber 0);
       AnswerEvaluator.keyPointsCovered :=
         JSValue.or_else (Express.property r "keyPoints") (Express.JArray []);
       AnswerEvaluator.missingPoints :=
         JSValue.or_else (Express.property r "missingPoints")
           (Express.JArray []);
       AnswerEvaluator.suggestions :=
         JSValue.or_else (Express.property r "suggestions")
           (Express.JArray []);
       AnswerEvaluator.overallScore :=
         AnswerEvaluator.rounded_mean (Express.property r "correctness")
           (Express.property r "completeness")
           (Express.property r "clarity") |}).
  { unfold AnswerEvaluator.parseEvaluationResponse in Hparse.
    destruct r; try discriminate Hparse; injection Hparse as <-; reflexivity. }
  subst e.
  cbn [AnswerEvaluator.correctness AnswerEvaluator.completeness
       AnswerEvaluator.clarity AnswerEvaluator.overallScore].
  repeat apply conj; try (intros ->; reflexivity).
  unfold AnswerEvaluator.rounded_mean.
  destruct (plain_mark_to_number _ Ha) as (x & Hx).
  destruct (plain_mark_to_number _ Hb) as (y & Hy).
  destruct (plain_mark_to_number _ Hc) as (z & Hz).
  rewrite Hx, Hy, Hz.
  assert (Hsum : x + y + z = nan).
  { destruct Hmiss as [H|[H|H]].
    - rewrite H in Hx. injection Hx as <-. rewrite !nan_add_l. reflexivity.
    - rewrite H in Hy. injection Hy as <-.
      rewrite nan_add_r, nan_add_l. reflexivity.
    - rewrite H in Hz. injection Hz as <-. apply nan_add_r. }
  rewrite Hsum, nan_div. reflexivity.
Qed.

Lemma missing_mark_makes_overallScore_NaN_witness :
  exists e,
    AnswerEvaluator.parseEvaluationResponse
      (Some (Express.JObject [("correctness"%string, Express.JNumber 85);
                              ("clarity"%string, Express.JNumber 82)]))
    = Express.Returns e /\
    AnswerEvaluator.overallScore e = Some nan /\
    AnswerEvaluator.completeness e = Express.JNumber 0.
Proof.
  eexists. split; [reflexivity|].
  destruct (missing_mark_makes_overallScore_NaN
              (Express.JObject [("correctness"%string, Express.JNumber 85);
                                ("clarity"%string, Express.JNumber 82)])
              _ eq_refl eq_refl eq_refl eq_refl
              (or_intror (or_introl eq_refl)))
    as (Hnan & _ & H & _).
  split; [exact Hnan | exact (H eq_refl)].
Defined.

(** X17: when the three marks of the response are numbers between 0 and
    100, [parseEvaluationResponse] returns them unchanged, except that a
    mark of 0 or -0 reads 0, and [overallScore] is an integer between 0
    and 100. *)
Theorem overallScore_is_a_percentage (a b c : JS.number) :
  between 0 100 a = true -> between 0 100 b = true ->
  between 0 100 c = true ->
  exists e s,
    AnswerEvaluator.parseEvaluationResponse (Some (marks a b c)) =
    Express.Returns e /\
    AnswerEvaluator.overallScore e = Some s /\
    s = JS.Math_round ((a + b + c) / 3) /\
    integer_in_0_100 s = true /\
    AnswerEvaluator.correctness e =
      Express.JNumber (if a =? 0 then 0 else a) /\
    AnswerEvaluator.completeness e =
      Express.JNumber (if b =? 0 then 0 else b) /\
    AnswerEvaluator.clarity e = Express.JNumber (if c =? 0 then 0 else c).
Proof.
  intros Ha Hb Hc.
  assert (Hfa : SFfin (Prim2SF a))
    by (apply (between_finite 0 100); [exact I | exact I | exact Ha]).
  assert (Hfb : SFfin (Prim2SF b))
    by (apply (between_finite 0 100); [exact I | exact I | exact Hb]).
  assert (Hfc : SFfin (Prim2SF c))
    by (apply (between_finite 0 100); [exact I | exact I | exact Hc]).
  unfold between in Ha, Hb, Hc.
  apply andb_prop in Ha as [Ha0 Ha1].
  apply andb_prop in Hb as [Hb0 Hb1].
  apply andb_prop in Hc as [Hc0 Hc1].
  assert (Hna : is_nan a = false)
    by (apply is_nan_spec; apply (leb_not_nan _ _ Ha0)).
  assert (Hnb : is_nan b = false)
    by (apply is_nan_spec; apply (leb_not_nan _ _ Hb0)).
  assert (Hnc : is_nan c = false)
    by (apply is_nan_spec; apply (leb_not_nan _ _ Hc0)).
  assert (Hnab : is_nan (a + b) = false)
    by (apply add_finite_not_nan; assumption).
  assert (Hnabc : is_nan (a + b + c) = false)
    by (apply add_finite_not_nan; assumption).
  assert (Hab0 : (0 <=? a + b) = true).
  { change 0 with (0 + 0) at 1. apply add_le_mono; try assumption.
    reflexivity. }
  assert (Hab1 : (a + b <=? 200) = true).
  { change 200 with (100 + 100). apply add_le_mono; try assumption.
    reflexivity. }
  assert (Hs0 : (0 <=? a + b + c) = true).
  { change 0 with (0 + 0) at 1. apply add_le_mono; try assumption.
    reflexivity. }
  assert (Hs1 : (a + b + c <=? 300) = true).
  { change 300 with (200 + 100). apply add_le_mono; try assumption.
    reflexivity. }
  assert (H3 : Prim2SF 3 = S754_finite false 6755399441055744 (-51))
    by reflexivity.
  assert (Hq0 : (0 <=? (a + b + c) / 3) = true).
  { change 0 with (0 / 3) at 1.
    apply (DivisionFacts.div_le_mono_pos _ _ 3 _ _ H3 Hs0). }
  assert (Hq1 : ((a + b + c) / 3 <=? 100) = true).
  { change 100 with (300 / 3).
    apply (DivisionFacts.div_le_mono_pos _ _ 3 _ _ H3 Hs1). }
  eexists. exists (JS.Math_round ((a + b + c) / 3)).
  split; [reflexivity|].
  cbn [AnswerEvaluator.overallScore AnswerEvaluator.correctness
       AnswerEvaluator.completeness AnswerEvaluator.clarity
       marks Express.property Express.lookup String.eqb Ascii.eqb
       Bool.eqb].
  repeat apply conj.
  - reflexivity.
  - reflexivity.
  - unfold integer_in_0_100, between. rewrite !andb_true_iff.
    repeat apply conj.
    + change 0 with (JS.Math_round 0). apply Math_round_mono. exact Hq0.
    + change 100 with (JS.Math_round 100). apply Math_round_mono. exact Hq1.
    + rewrite NumberFacts.Math_round_idempotent.
      apply Leibniz.eqb_spec. reflexivity.
  - unfold JSValue.or_else, JSValue.truthy. rewrite Hna, orb_false_r.
    destruct (a =? 0); reflexivity.
  - unfold JSValue.or_else, JSValue.truthy. rewrite Hnb, orb_false_r.
    destruct (b =? 0); reflexivity.
  - unfold JSValue.or_else, JSValue.truthy. rewrite Hnc, orb_false_r.
    destruct (c =? 0); reflexivity.
Qed.

Lemma overallScore_is_a_percentage_witness :
  exists e s,
    AnswerEvaluator.parseEvaluationResponse (Some (marks 85 78 82)) =
    Express.Returns e /\
    AnswerEvaluator.overallScore e = Some s /\
    s = JS.Math_round ((85 + 78 + 82) / 3) /\
    integer_in_0_100 s = true /\
    AnswerEvaluator.correctness e =
      Express.JNumber (if 85 =? 0 then 0 else 85) /\
    AnswerEvaluator.completeness e =
      Express.JNumber (if 78 =? 0 then 0 else 78) /\
    AnswerEvaluator.clarity e = Express.JNumber (if 82 =? 0 then 0 else 82).
Proof.
  apply (overallScore_is_a_percentage 85 78 82); reflexivity.
Defined.

(** X18: the route and the parser, composed.  For every request that
    passes [authenticateToken] with a body, parsing the evaluation that
    the answer-evaluation route of either guide sends gives the marks 85,
    78 and 82, the route's [keyPoints] under the name [keyPointsCovered],
    and an [overallScore] of 82. *)
Theorem parsed_route_evaluation
  (jwt_verify : string -> option Express.json) (req : Express.Request)
  (j : Express.json) :
  Express.authenticated jwt_verify req = true ->
  Express.body req = Some j -> j <> Express.JNull ->
  exists e e',
    AnswerEvaluator.parseEvaluationResponse
      (evaluation_of (SetupGuide.evaluate_answer jwt_verify req)) =
    Express.Returns e /\
    AnswerEvaluator.parseEvaluationResponse
      (evaluation_of (QuickStart.evaluate_answer jwt_verify req)) =
    Express.Returns e' /\
    AnswerEvaluator.overallScore e = Some 82 /\
    AnswerEvaluator.overallScore e' = Some 82 /\
    AnswerEvaluator.correctness e = Express.JNumber 85 /\
    AnswerEvaluator.completeness e = Express.JNumber 78 /\
    AnswerEvaluator.clarity e = Express.JNumber 82 /\
    AnswerEvaluator.keyPointsCovered e =
      Express.JArray [Express.JString "Point 1"; Express.JString "Point 2"] /\
    AnswerEvaluator.keyPointsCovered e' =
      Express.JArray
        [Express.JString "Key point 1"; Express.JString "Key point 2"].
Proof.
  intros Hauth Hbody Hj.
  assert (H1 : SetupGuide.evaluate_answer jwt_verify req =
               Express.res_json SetupGuide.evaluation /\
               QuickStart.evaluate_answer jwt_verify req =
               Express.res_json QuickStart.evaluation).
  { unfold Express.authenticated in Hauth.
    unfold SetupGuide.evaluate_answer, QuickStart.evaluate_answer,
      Express.app_post, Express.authenticateToken.
    destruct (Express.token_of _) as [[|ch t]|]; try discriminate.
    destruct (jwt_verify (String ch t)) as [u|]; try discriminate.
    cbn [Express.falsy].
    unfold SetupGuide.evaluate_answer_handler,
      QuickStart.evaluate_answer_handler.
    cbn [Express.body]. rewrite Hbody.
    destruct j; try contradiction; split; reflexivity. }
  destruct H1 as [-> ->].
  eexists. eexists.
  split; [reflexivity|]. split; [reflexivity|].
  vm_compute. repeat split.
Qed.

Lemma parsed_route_evaluation_witness :
  exists e,
    AnswerEvaluator.parseEvaluationResponse
      (evaluation_of (SetupGuide.evaluate_answer accept_abc request_with_body))
    = Express.Returns e /\
    AnswerEvaluator.overallScore e = Some 82.
Proof.
  destruct (parsed_route_evaluation accept_abc request_with_body _
              eq_refl eq_refl ltac:(discriminate))
    as (e & e' & H1 & _ & H2 & _).
  exists e. split; assumption.
Defined.

(** ** The question bank *)

Lemma filter_filter {A : Type} (f g : A -> bool) (l : list A) :
  filter g (filter f l) = filter (fun x => f x && g x) l.
Proof.
  induction l as [|a l IH]; [reflexivity|].
  cbn [filter]. destruct (f a); cbn [filter andb].
  - rewrite IH. reflexivity.
  - exact IH.
Qed.

Lemma filter_true {A : Type} (l : list A) : filter (fun _ => true) l = l.
Proof.
  induction l as [|a l IH]; [reflexivity|]. cbn [filter]. rewrite IH.
  reflexivity.
Qed.

Lemma filtered_is_filter
  (Number_ : Express.json -> JS.number)
  (sort_at_random : list QuestionBank.Question -> list QuestionBank.Question)
  (QUESTIONS : list QuestionBank.Question)
  (category difficulty : option Express.json) :
  fst (QuestionBank.getQuestions Number_ sort_at_random QUESTIONS category
         difficulty) =
  firstn 5
    (sort_at_random
       (filter (passes_filters Number_ category difficulty) QUESTIONS)).
Proof.
  unfold QuestionBank.getQuestions. cbn [fst]. do 2 f_equal.
  unfold passes_filters.
  destruct (JSValue.truthy category), difficulty as [d|];
    cbn [negb orb andb];
    try destruct (JSValue.truthy (Some d)); cbn [negb orb andb];
    rewrite ?filter_filter;
    try (apply filter_ext; intro q;
         destruct (QuestionBank.strictly_equals_string _ _);
         reflexivity);
    try (symmetry; apply filter_true);
    try reflexivity.
  all: apply filter_ext; intro q; rewrite ?andb_true_r; reflexivity.
Qed.

(** X19: [getQuestions] returns at most five questions, each of them a
    question of [QUESTIONS] that passes the filters asked for, and as many
    as five whenever five pass: the number returned is the smaller of 5
    and the number of passing questions.  No question is returned more
    often than [QUESTIONS] holds it.  This holds for whatever order the
    sort under the random comparator leaves, as long as it rearranges the
    array. *)
Theorem getQuestions_returns_passing_questions
  (Number_ : Express.json -> JS.number)
  (sort_at_random : list QuestionBank.Question -> list QuestionBank.Question)
  (QUESTIONS : list QuestionBank.Question)
  (category difficulty : option Express.json) :
  (forall l, Permutation (sort_at_random l) l) ->
  let result :=
    fst (QuestionBank.getQuestions Number_ sort_at_random QUESTIONS category
           difficulty) in
  let passing := filter (passes_filters Number_ category difficulty)
                   QUESTIONS in
  List.length result = Nat.min 5 (List.length passing) /\
  (forall q, In q result ->
     In q QUESTIONS /\ passes_filters Number_ category difficulty q = true) /\
  (NoDup QUESTIONS -> NoDup result).
Proof.
  intros Hperm result passing. subst result. rewrite filtered_is_filter.
  fold passing.
  pose proof (Hperm passing) as Hp.
  repeat apply conj.
  - rewrite length_firstn. rewrite (Permutation_length Hp). reflexivity.
  - intros q Hq.
    assert (Hin : In q passing).
    { apply (Permutation_in q Hp).
      rewrite <- (firstn_skipn 5 (sort_at_random passing)).
      apply in_or_app. left. exact Hq. }
    apply filter_In in Hin. exact Hin.
  - intro Hnd.
    assert (Hnd' : NoDup (sort_at_random passing)).
    { apply (Permutation_NoDup (Permutation_sym Hp)).
      apply NoDup_filter. exact Hnd. }
    rewrite <- (firstn_skipn 5 (sort_at_random passing)) in Hnd'.
    apply NoDup_app_remove_r in Hnd'. exact Hnd'.
Qed.

Lemma getQuestions_returns_passing_questions_witness :
  List.length
    (fst (QuestionBank.getQuestions number_of_digit (@rev _) sample_bank
            (Some (Express.JString "DSA")) (Some (Express.JString "2")))) =
  Nat.min 5
    (List.length
       (filter (passes_filters number_of_digit
                  (Some (Express.JString "DSA")) (Some (Express.JString "2")))
          sample_bank)).
Proof.
  apply (getQuestions_returns_passing_questions number_of_digit (@rev _)
           sample_bank (Some (Express.JString "DSA"))
           (Some (Express.JString "2"))).
  intro l. apply Permutation_sym, Permutation_rev.
Defined.

(** X20: without a filter [getQuestions] shuffles the question bank
    itself.  When [category] and [difficulty] are both falsy (missing,
    the empty string, 0, ...), the array that is sorted in place is
    [QUESTIONS]: afterwards [QUESTIONS] holds the same questions in the
    order the sort left, and the result is its first five.  As soon as one
    filter runs, [QUESTIONS] is left as it was. *)
Theorem getQuestions_sorts_the_bank_in_place
  (Number_ : Express.json -> JS.number)
  (sort_at_random : list QuestionBank.Question -> list QuestionBank.Question)
  (QUESTIONS : list QuestionBank.Question)
  (category difficulty : option Express.json) :
  (forall l, Permutation (sort_at_random l) l) ->
  let out :=
    QuestionBank.getQuestions Number_ sort_at_random QUESTIONS category
      difficulty in
  (JSValue.truthy category = false -> JSValue.truthy difficulty = false ->
   snd out = sort_at_random QUESTIONS /\
   Permutation (snd out) QUESTIONS /\
   fst out = firstn 5 (snd out)) /\
  (JSValue.truthy category = true \/ JSValue.truthy difficulty = true ->
   snd out = QUESTIONS).
Proof.
  intros Hperm out. subst out. unfold QuestionBank.getQuestions.
  cbn [fst snd]. split.
  - intros Hc Hd. rewrite Hc, Hd. cbn [orb].
    destruct difficulty as [d|]; repeat apply conj;
      try reflexivity; apply Hperm.
  - intros [H|H]; rewrite H; rewrite ?orb_true_r; reflexivity.
Qed.

Lemma getQuestions_sorts_the_bank_in_place_witness :
  snd (QuestionBank.getQuestions number_of_digit (@rev _) sample_bank
         None (Some (Express.JNumber 0))) = rev sample_bank.
Proof.
  apply (getQuestions_sorts_the_bank_in_place number_of_digit (@rev _)
           sample_bank None (Some (Express.JNumber 0))).
  - intro l. apply Permutation_sym, Permutation_rev.
  - reflexivity.
  - reflexivity.
Defined.

(** ** The answer-evaluation route of AI_FEATURES_IMPLEMENTATION.md *)

